(** * The Sift entity-matcher serializer, embedded in Rocq

    A shallow embedding of [SiftEntityMatcherSerializer] (file
    [src/classes/SiftEntityMatcherSerializer.class.ts]) and of the node types
    of [src/types/sift.types.ts], followed by the properties proved of it.

    How the TypeScript is read:

    - A JavaScript value is a [JsValue].  An object is the list of its own
      enumerable properties in the order [for ... in] visits them; a
      well-formed object has no repeated key.  Objects built by the class
      receive new keys at the end, which is insertion order (an engine lists
      integer-like keys first, in a result as in an input; equalities between
      objects are to be read up to the place of such keys, and a statement
      about the place of a key leaves numerals out, [isIndexName]).
      [target[key]] is an own-property lookup and [hasOwnProperty] is the
      method of [Object.prototype]: on a key named like a member of
      [Object.prototype] ([constructor], [hasOwnProperty], [__proto__], ...)
      the class reads the inherited member, so what is stated of the objects
      the class builds or merges carries a hypothesis that leaves these
      names out ([plainKeys], [isPlainField], [shaped]).
    - An array that receives a named key has no counterpart in [JsValue]:
      [_deepMerge] has no value there.  What is stated of every tree of some
      kind proves that the merge has a value on those trees ([simple]).
    - Numbers are only carried around by the class, never computed with;
      [JNum] holds an integer.
    - The three operator types are closed unions of string literals and are
      enumerations here, with the string each one stands for.
    - [_idCounter] is a [nat]: the counter of the class is a double, exact up
      to 2^53 increments.
    - An exception is a [Throw]; the id counter is threaded through
      serialization by the monad [Gen], so that the counter reached when an
      exception is raised is known.
    - Nodes are owned by their parent list and are not shared, so a mutation
      through a reference returned by [_findNodeById] is the rebuilding of
      the tree at the first pre-order match ([mutateFound]).  The payload
      [value] of a condition node is aliased, not copied, by the class, and
      the merge of [deserialize] writes into a payload that is an object or
      an array when two conditions meet at the same path and operator.
      Functions return values here: [deserialize] gives the value one call
      returns on the tree as it is, and it is read-only on the trees whose
      payloads are primitives ([simple]). *)

From Stdlib Require Import List String Bool Arith ZArith Lia.
From Stdlib Require Import DecimalString Permutation.
Import ListNotations.
Open Scope string_scope.
Open Scope list_scope.

Set Implicit Arguments.

(** * Values handled by the serializer *)

Unset Elimination Schemes.

Inductive JsValue : Type :=
| JNull
| JUndefined
| JBool (b : bool)
| JNum (n : Z)
| JStr (s : string)
| JArr (items : list JsValue)
| JObj (props : list (string * JsValue)).

Inductive LogicalOperator := And | Or | Not.

Inductive ComparisonOperator :=
| Eq | In_ | Nin | Lt | Gt | Lte | Gte | Ne | Ilike | All | Exists | ElemMatch.

Inductive EmbeddedOperator := Some_ | Every | None_.

Inductive Node : Type :=
| Condition (id : nat) (fieldPath : list string)
            (operator : ComparisonOperator) (value : JsValue)
| Logical (id : nat) (operator : LogicalOperator) (children : list Node)
| Embedded (id : nat) (fieldPath : list string)
           (operator : EmbeddedOperator) (subtree : list Node).

Set Elimination Schemes.

(** The string literal of each operator, and the membership tests
    [_isLogicalOperator], [_isEmbeddedOperator], [_isComparisonOperator]
    together with the cast of the key to the operator type. *)
Definition logicalName (op : LogicalOperator) : string :=
  match op with And => "$and" | Or => "$or" | Not => "$not" end.

Definition comparisonName (op : ComparisonOperator) : string :=
  match op with
  | Eq => "$eq" | In_ => "$in" | Nin => "$nin" | Lt => "$lt" | Gt => "$gt"
  | Lte => "$lte" | Gte => "$gte" | Ne => "$ne" | Ilike => "$ilike"
  | All => "$all" | Exists => "$exists" | ElemMatch => "$elemMatch"
  end.

Definition embeddedName (op : EmbeddedOperator) : string :=
  match op with Some_ => "$some" | Every => "$every" | None_ => "$none" end.

Definition asLogicalOperator (key : string) : option LogicalOperator :=
  find (fun op => key =? logicalName op) [And; Or; Not].

Definition asEmbeddedOperator (key : string) : option EmbeddedOperator :=
  find (fun op => key =? embeddedName op) [Some_; Every; None_].

Definition asComparisonOperator (key : string) : option ComparisonOperator :=
  find (fun op => key =? comparisonName op)
       [Eq; In_; Nin; Lt; Gt; Lte; Gte; Ne; Ilike; All; Exists; ElemMatch].

Definition isSome {A : Type} (o : option A) : bool :=
  match o with Some _ => true | None => false end.

Definition _isLogicalOperator (key : string) : bool := isSome (asLogicalOperator key).
Definition _isEmbeddedOperator (key : string) : bool := isSome (asEmbeddedOperator key).
Definition _isComparisonOperator (key : string) : bool :=
  isSome (asComparisonOperator key).

(** * Exceptions and the id counter *)

(** The errors the class raises: [TypeError] by the language (a value that
    is not iterable in [for ... of]), the other four by the [throw]
    statements of [_addNode] and [updateConditionNode]. *)
Inductive Error :=
| TypeError | ParentNotFound | InvalidParentType | NodeNotFound | InvalidNodeType.

Inductive Result (A : Type) : Type :=
| Ok (a : A)
| Throw (e : Error).
Arguments Throw {A} e.

Definition Gen (A : Type) : Type := nat -> Result A * nat.

Definition ret {A : Type} (a : A) : Gen A := fun c => (Ok a, c).
Definition throw {A : Type} (e : Error) : Gen A := fun c => (Throw e, c).
Definition bind {A B : Type} (m : Gen A) (k : A -> Gen B) : Gen B :=
  fun c => match m c with
           | (Ok a, c') => k a c'
           | (Throw e, c') => (Throw e, c')
           end.
Definition _generateId : Gen nat := fun c => (Ok c, S c).

Notation "x <- m ;; k" := (bind m (fun x => k))
  (at level 61, m at next level, right associativity).

Section Loops.
Context {A S : Type}.
Variable body : A -> S -> Gen S.

Fixpoint forEach (xs : list A) (acc : S) : Gen S :=
  match xs with
  | [] => ret acc
  | x :: rest => acc' <- body x acc ;; forEach rest acc'
  end.
End Loops.

(** Truthiness and [typeof v === 'object'] (true of null and of arrays). *)
Definition truthy (v : JsValue) : bool :=
  match v with
  | JNull | JUndefined => false
  | JBool b => b
  | JNum n => negb (n =? 0)%Z
  | JStr s => negb (s =? "")
  | JArr _ | JObj _ => true
  end.

Definition typeofObject (v : JsValue) : bool :=
  match v with JObj _ | JArr _ | JNull => true | _ => false end.

(** * Serialization *)

Section SerializeBody.
(** The bodies of the loops of [_serializeObject]; [self] stands for the
    recursive call. *)
Variable self : JsValue -> list string -> Gen (list Node).

(** [for (const item of obj)]: serialize each element, flatten. *)
Definition serializeItem (currentPath : list string) (item : JsValue)
  (nodesArr : list Node) : Gen (list Node) :=
  childNodes <- self item currentPath ;;
  ret (nodesArr ++ childNodes).

(** [for (const item of value)] on the value of [$and] / [$or]: an array is
    iterated, a string yields characters that produce no node, anything
    else is not iterable. *)
Definition serializeIterable (currentPath : list string) (value : JsValue)
  : Gen (list Node) :=
  match value with
  | JArr items => forEach (serializeItem currentPath) items []
  | JStr _ => ret []
  | _ => throw TypeError
  end.

(** [for (const op in fieldValue)]: the loop state is
    [(fieldNodes, operatorFound)]. *)
Definition serializeOperator (currentPath : list string) (key : string)
  (opEntry : string * JsValue) (st : list Node * bool) : Gen (list Node * bool) :=
  let (op, opValue) := opEntry in
  let (fieldNodes, operatorFound) := st in
  match asEmbeddedOperator op with
  | Some eop =>
      subtree <- self opValue [] ;;
      id <- _generateId ;;
      ret (fieldNodes ++ [Embedded id (currentPath ++ [key]) eop subtree], true)
  | None =>
      match asComparisonOperator op with
      | Some cop =>
          id <- _generateId ;;
          ret (fieldNodes ++ [Condition id (currentPath ++ [key]) cop opValue], true)
      | None =>
          match asLogicalOperator op with
          | Some lop =>
              childNodes <- self opValue (currentPath ++ [key]) ;;
              id <- _generateId ;;
              ret (fieldNodes ++ [Logical id lop childNodes], true)
          | None => ret (fieldNodes, operatorFound)
          end
      end
  end.

(** [for (const key in obj)]: the loop state is [nodes]. *)
Definition serializeEntry (currentPath : list string) (entry : string * JsValue)
  (nodes : list Node) : Gen (list Node) :=
  let (key, value) := entry in
  match asLogicalOperator key with
  | Some Not =>
      childNodes <- self value currentPath ;;
      id <- _generateId ;;
      ret (nodes ++ [Logical id Not childNodes])
  | Some key' =>
      children <- serializeIterable currentPath value ;;
      id <- _generateId ;;
      ret (nodes ++ [Logical id key' children])
  | None =>
      let fieldValue := value in
      st <- match fieldValue with
            | JObj fieldProps =>
                forEach (serializeOperator currentPath key) fieldProps ([], false)
            | _ => ret ([], false)
            end ;;
      let (fieldNodes, operatorFound) := st in
      fieldNodes' <-
        (if negb operatorFound && (truthy fieldValue && typeofObject fieldValue)
         then self fieldValue (currentPath ++ [key])
         else ret fieldNodes) ;;
      ret (nodes ++ fieldNodes')
  end.
End SerializeBody.

(** [_serializeObject]: an array is flattened, an object is walked key by
    key, and [for ... in] over anything else yields no node (the indices of
    a string lead to one-character strings, which give nothing). *)
Fixpoint _serializeObject (obj : JsValue) (currentPath : list string) {struct obj}
  : Gen (list Node) :=
  match obj with
  | JArr items => forEach (serializeItem _serializeObject currentPath) items []
  | JObj props => forEach (serializeEntry _serializeObject currentPath) props []
  | _ => ret []
  end.

(** * Deserialization *)

Definition optBind {A B : Type} (m : option A) (k : A -> option B) : option B :=
  match m with Some a => k a | None => None end.

Notation "x <-- m ;; k" := (optBind m (fun x => k))
  (at level 61, m at next level, right associativity).

Section OptionLoops.
Context {A S : Type}.
Variable body : A -> S -> option S.

Fixpoint foldM (xs : list A) (acc : S) : option S :=
  match xs with
  | [] => Some acc
  | x :: rest => acc' <-- body x acc ;; foldM rest acc'
  end.
End OptionLoops.

(** [_isNotEmpty]. *)
Definition _isNotEmpty (obj : JsValue) : bool :=
  match obj with
  | JNull | JUndefined => false
  | JArr items => (0 <? List.length items)%nat
  | JObj props => (0 <? List.length props)%nat
  | _ => true
  end.

(** Own-property access on objects: [obj[key]] (undefined when absent) and
    [obj[key] = v] (in place when present, appended otherwise, which is
    where an engine lists a key that is no numeral). *)
Fixpoint getProp (key : string) (props : list (string * JsValue)) : JsValue :=
  match props with
  | [] => JUndefined
  | (k, v) :: rest => if k =? key then v else getProp key rest
  end.

Fixpoint hasProp (key : string) (props : list (string * JsValue)) : bool :=
  match props with
  | [] => false
  | (k, _) :: rest => (k =? key) || hasProp key rest
  end.

Fixpoint replaceProp (key : string) (v : JsValue) (props : list (string * JsValue))
  : list (string * JsValue) :=
  match props with
  | [] => []
  | (k, w) :: rest =>
      if k =? key then (k, v) :: rest else (k, w) :: replaceProp key v rest
  end.

Definition setProp (key : string) (v : JsValue) (props : list (string * JsValue))
  : list (string * JsValue) :=
  if hasProp key props then replaceProp key v props else props ++ [(key, v)].

Fixpoint replaceIndex (i : nat) (v : JsValue) (items : list JsValue) : list JsValue :=
  match items, i with
  | [], _ => []
  | _ :: rest, 0 => v :: rest
  | x :: rest, S j => x :: replaceIndex j v rest
  end.

(** The keys [for ... in] yields: names of an object, indices of an array.
    Reading or writing an array at a name, and writing past its end, have no
    counterpart in [JsValue]: [None]. *)
Inductive Key := KName (name : string) | KIndex (i : nat).

Definition indexName (i : nat) : string := NilEmpty.string_of_uint (Nat.to_uint i).

Definition getMember (target : JsValue) (key : Key) : option JsValue :=
  match target, key with
  | JObj props, KName name => Some (getProp name props)
  | JObj props, KIndex i => Some (getProp (indexName i) props)
  | JArr items, KIndex i => Some (nth i items JUndefined)
  | _, _ => None
  end.

Definition setMember (target : JsValue) (key : Key) (v : JsValue) : option JsValue :=
  match target, key with
  | JObj props, KName name => Some (JObj (setProp name v props))
  | JObj props, KIndex i => Some (JObj (setProp (indexName i) v props))
  | JArr items, KIndex i =>
      if (i <? List.length items)%nat then Some (JArr (replaceIndex i v items))
      else if (i =? List.length items)%nat then Some (JArr (items ++ [v]))
      else None
  | _, _ => None
  end.

Section MergeBody.
(** The body of the loop of [_deepMerge]; [self] stands for the recursive
    call.  [source.hasOwnProperty(key)] holds of every key that [for ... in]
    yields on the values of the model (it raises when the source has an own
    key [hasOwnProperty], a name the statements leave out). *)
Variable self : JsValue -> JsValue -> option JsValue.

Definition mergeKey (key : Key) (sourceValue : JsValue) (target : JsValue)
  : option JsValue :=
  targetValue <-- getMember target key ;;
  if truthy targetValue && typeofObject targetValue && typeofObject sourceValue
  then merged <-- self targetValue sourceValue ;; setMember target key merged
  else setMember target key sourceValue.

Definition mergeEntry (entry : string * JsValue) (target : JsValue)
  : option JsValue :=
  let (key, sourceValue) := entry in mergeKey (KName key) sourceValue target.

Definition mergeItem (sourceValue : JsValue) (st : nat * JsValue)
  : option (nat * JsValue) :=
  let (i, target) := st in
  target' <-- mergeKey (KIndex i) sourceValue target ;;
  Some (S i, target').
End MergeBody.

(** [_deepMerge]: [None] stands for a result that [JsValue] cannot express
    (an array that receives named properties).  A string source is never
    passed by the class. *)
Fixpoint _deepMerge (target source : JsValue) {struct source} : option JsValue :=
  match source with
  | JObj props => foldM (mergeEntry _deepMerge) props target
  | JArr items =>
      st <-- foldM (mergeItem _deepMerge) items (0, target) ;;
      Some (snd st)
  | JStr _ => None
  | _ => Some target
  end.

(** [_mergeObjects]. *)
Definition _mergeObjects (objects : list JsValue) : option JsValue :=
  foldM (fun obj result => _deepMerge result obj) objects (JObj []).

(** [_buildNestedObject]: the loop walks down a fresh object, creating one
    level per path segment.  Every level is new, so the test
    [!current[path[i]]] sees no own property and always holds; it fails on a
    segment named like a member of [Object.prototype], where the class walks
    into the inherited member: such segments are left out by the statements
    ([isPrototypeName]). *)
Fixpoint _buildNestedObject (path : list string) (condition : JsValue) : JsValue :=
  match path with
  | [] => condition
  | key :: rest => JObj [(key, _buildNestedObject rest condition)]
  end.

(** [_deserializeNodes] applied to an array of nodes (the class never
    passes it a single node); [deserializeNode] stands for the mutually
    recursive [_deserializeNode]. *)
Section DeserializeNodes.
Variable deserializeNode : Node -> option JsValue.

Definition deserializeEach (nodes : list Node) : option (list JsValue) :=
  foldM (fun node deserializedObjects =>
           d <-- deserializeNode node ;;
           Some (if _isNotEmpty d then deserializedObjects ++ [d]
                 else deserializedObjects))
        nodes [].

Definition deserializeNodesWith (nodes : list Node) : option JsValue :=
  deserializedObjects <-- deserializeEach nodes ;;
  _mergeObjects deserializedObjects.
End DeserializeNodes.

(** [_deserializeNode]. *)
Fixpoint _deserializeNode (node : Node) : option JsValue :=
  match node with
  | Condition _ fieldPath operator value =>
      let condition := JObj [(comparisonName operator, value)] in
      Some (_buildNestedObject fieldPath condition)
  | Logical _ Not children =>
      childObj <-- deserializeNodesWith _deserializeNode children ;;
      if negb (_isNotEmpty childObj) then Some (JObj [])
      else Some (JObj [("$not", childObj)])
  | Logical _ operator children =>
      childrenArr <-- deserializeEach _deserializeNode children ;;
      if negb (_isNotEmpty (JArr childrenArr)) then Some (JObj [])
      else Some (JObj [(logicalName operator, JArr childrenArr)])
  | Embedded _ fieldPath operator subtree =>
      inner <-- deserializeNodesWith _deserializeNode subtree ;;
      if negb (_isNotEmpty inner) then Some (JObj [])
      else Some (_buildNestedObject fieldPath (JObj [(embeddedName operator, inner)]))
  end.

Definition _deserializeNodes (nodes : list Node) : option JsValue :=
  deserializeNodesWith _deserializeNode nodes.

(** * The serializer instance and its editing operations *)

Record Serializer : Type := mkSerializer {
  _tree : list Node;
  _idCounter : nat
}.

Definition nodeId (node : Node) : nat :=
  match node with
  | Condition id _ _ _ | Logical id _ _ | Embedded id _ _ _ => id
  end.

Definition isContainer (node : Node) : bool :=
  match node with
  | Logical _ _ _ | Embedded _ _ _ _ => true
  | Condition _ _ _ _ => false
  end.

Section Traversals.
Variable A : Type.
Variable visit : Node -> option A.

Fixpoint firstSome (nodes : list Node) : option A :=
  match nodes with
  | [] => None
  | node :: rest =>
      match visit node with
      | Some found => Some found
      | None => firstSome rest
      end
  end.
End Traversals.

Section Rewrites.
Variable rewrite : Node -> option Node.

Fixpoint rewriteFirst (nodes : list Node) : option (list Node) :=
  match nodes with
  | [] => None
  | node :: rest =>
      match rewrite node with
      | Some node' => Some (node' :: rest)
      | None => option_map (cons node) (rewriteFirst rest)
      end
  end.
End Rewrites.

(** [_findNodeById]: depth first, pre-order. *)
Fixpoint findInNode (id : nat) (node : Node) {struct node} : option Node :=
  if (nodeId node =? id)%nat then Some node
  else match node with
       | Logical _ _ children => firstSome (findInNode id) children
       | Embedded _ _ _ subtree => firstSome (findInNode id) subtree
       | Condition _ _ _ _ => None
       end.

Definition _findNodeById (nodes : list Node) (id : nat) : option Node :=
  firstSome (findInNode id) nodes.

(** In-place mutation of the node that [_findNodeById] returns: the tree is
    rebuilt with [change] applied at the first pre-order match. *)
Fixpoint mutateInNode (id : nat) (change : Node -> Node) (node : Node) {struct node}
  : option Node :=
  if (nodeId node =? id)%nat then Some (change node)
  else match node with
       | Logical i op children =>
           option_map (Logical i op) (rewriteFirst (mutateInNode id change) children)
       | Embedded i path op subtree =>
           option_map (Embedded i path op)
                      (rewriteFirst (mutateInNode id change) subtree)
       | Condition _ _ _ _ => None
       end.

Definition mutateFound (nodes : list Node) (id : nat) (change : Node -> Node)
  : list Node :=
  match rewriteFirst (mutateInNode id change) nodes with
  | Some nodes' => nodes'
  | None => nodes
  end.

Definition pushChild (child : Node) (parent : Node) : Node :=
  match parent with
  | Logical i op children => Logical i op (children ++ [child])
  | Embedded i path op subtree => Embedded i path op (subtree ++ [child])
  | Condition _ _ _ _ => parent
  end.

Definition setCondition (operator : ComparisonOperator) (value : JsValue) (node : Node)
  : Node :=
  match node with
  | Condition i path _ _ => Condition i path operator value
  | _ => node
  end.

(** The constructor; no instance exists when serialization raises. *)
Definition construct (query : option JsValue) : Result Serializer :=
  match query with
  | Some q =>
      if truthy q then
        match _serializeObject q [] 0 with
        | (Ok tree, c) => Ok (mkSerializer tree c)
        | (Throw e, _) => Throw e
        end
      else Ok (mkSerializer [] 0)
  | None => Ok (mkSerializer [] 0)
  end.

Definition tree (s : Serializer) : list Node := _tree s.

Definition serialize (query : JsValue) (s : Serializer)
  : Result (list Node) * Serializer :=
  match _serializeObject query [] (_idCounter s) with
  | (Ok nodes, c) => (Ok nodes, mkSerializer nodes c)
  | (Throw e, c) => (Throw e, mkSerializer (_tree s) c)
  end.

Definition deserialize (s : Serializer) : option JsValue :=
  deserialized <-- _deserializeNodes (_tree s) ;;
  if negb (_isNotEmpty deserialized) then Some JNull else Some deserialized.

Definition findNodeById (id : nat) (s : Serializer) : option Node :=
  _findNodeById (_tree s) id.

(** [_addNode]. *)
Definition _addNode (node : Node) (parentId : option nat) (s : Serializer)
  : Result Node * Serializer :=
  match parentId with
  | Some pid =>
      match _findNodeById (_tree s) pid with
      | None => (Throw ParentNotFound, s)
      | Some parent =>
          if negb (isContainer parent) then (Throw InvalidParentType, s)
          else (Ok node,
                mkSerializer (mutateFound (_tree s) pid (pushChild node))
                             (_idCounter s))
      end
  | None => (Ok node, mkSerializer (_tree s ++ [node]) (_idCounter s))
  end.

(** [this._generateId()] on the instance. *)
Definition nextId (s : Serializer) : nat * Serializer :=
  (_idCounter s, mkSerializer (_tree s) (S (_idCounter s))).

Definition returnId (r : Result Node * Serializer) : Result nat * Serializer :=
  match r with
  | (Ok node, s) => (Ok (nodeId node), s)
  | (Throw e, s) => (Throw e, s)
  end.

(** The [add*] methods: the id is drawn while the node literal is built,
    before [_addNode] runs. *)
Definition addConditionNode (fieldPath : list string) (operator : ComparisonOperator)
  (value : JsValue) (parentId : option nat) (s : Serializer)
  : Result nat * Serializer :=
  let (id, s1) := nextId s in
  let newNode := Condition id fieldPath operator value in
  returnId (_addNode newNode parentId s1).

Definition addLogicalNode (operator : LogicalOperator) (parentId : option nat)
  (s : Serializer) : Result nat * Serializer :=
  let (id, s1) := nextId s in
  let newNode := Logical id operator [] in
  returnId (_addNode newNode parentId s1).

Definition addEmbeddedNode (fieldPath : list string) (operator : EmbeddedOperator)
  (parentId : option nat) (s : Serializer) : Result nat * Serializer :=
  let (id, s1) := nextId s in
  let newNode := Embedded id fieldPath operator [] in
  returnId (_addNode newNode parentId s1).

Definition updateConditionNode (id : nat) (operator : ComparisonOperator)
  (value : JsValue) (s : Serializer) : Result bool * Serializer :=
  match _findNodeById (_tree s) id with
  | None => (Throw NodeNotFound, s)
  | Some node =>
      match node with
      | Condition _ _ _ _ =>
          (Ok true,
           mkSerializer (mutateFound (_tree s) id (setCondition operator value))
                        (_idCounter s))
      | _ => (Throw InvalidNodeType, s)
      end
  end.

(** [_removeNodeFromList]: [Some nodes'] is the list after the splice (the
    method returns true), [None] means nothing was removed. *)
Section Removal.
Variable id : nat.
Variable descend : Node -> option Node.

Fixpoint removeFirst (nodes : list Node) : option (list Node) :=
  match nodes with
  | [] => None
  | node :: rest =>
      if (nodeId node =? id)%nat then Some rest
      else match descend node with
           | Some node' => Some (node' :: rest)
           | None => option_map (cons node) (removeFirst rest)
           end
  end.
End Removal.

Fixpoint removeInNode (id : nat) (node : Node) {struct node} : option Node :=
  match node with
  | Logical i op children =>
      option_map (Logical i op) (removeFirst id (removeInNode id) children)
  | Embedded i path op subtree =>
      option_map (Embedded i path op) (removeFirst id (removeInNode id) subtree)
  | Condition _ _ _ _ => None
  end.

Definition _removeNodeFromList (nodes : list Node) (id : nat) : option (list Node) :=
  removeFirst id (removeInNode id) nodes.

Definition remove (id : nat) (s : Serializer) : bool * Serializer :=
  match _removeNodeFromList (_tree s) id with
  | Some nodes' => (true, mkSerializer nodes' (_idCounter s))
  | None => (false, s)
  end.

Definition clear (s : Serializer) : Serializer :=
  mkSerializer [] (_idCounter s).

(** * Induction principles for the nested types *)

Section JsValueInd.
Variable P : JsValue -> Prop.
Hypothesis Pnull : P JNull.
Hypothesis Pundef : P JUndefined.
Hypothesis Pbool : forall b, P (JBool b).
Hypothesis Pnum : forall n, P (JNum n).
Hypothesis Pstr : forall s, P (JStr s).
Hypothesis Parr : forall items, Forall P items -> P (JArr items).
Hypothesis Pobj : forall props, Forall (fun e => P (snd e)) props -> P (JObj props).

Fixpoint JsValue_ind (v : JsValue) : P v :=
  match v with
  | JNull => Pnull
  | JUndefined => Pundef
  | JBool b => Pbool b
  | JNum n => Pnum n
  | JStr s => Pstr s
  | JArr items =>
      Parr ((fix all (l : list JsValue) : Forall P l :=
               match l with
               | [] => Forall_nil _
               | x :: r => Forall_cons x (JsValue_ind x) (all r)
               end) items)
  | JObj props =>
      Pobj ((fix all (l : list (string * JsValue)) : Forall (fun e => P (snd e)) l :=
               match l with
               | [] => Forall_nil _
               | e :: r => Forall_cons e (JsValue_ind (snd e)) (all r)
               end) props)
  end.
End JsValueInd.

Section NodeInd.
Variable P : Node -> Prop.
Hypothesis Pcond : forall id path op v, P (Condition id path op v).
Hypothesis Plog : forall id op children, Forall P children -> P (Logical id op children).
Hypothesis Pemb :
  forall id path op subtree, Forall P subtree -> P (Embedded id path op subtree).

Fixpoint Node_ind (n : Node) : P n :=
  let all := fix all (l : list Node) : Forall P l :=
               match l with
               | [] => Forall_nil _
               | x :: r => Forall_cons x (Node_ind x) (all r)
               end in
  match n with
  | Condition id path op v => Pcond id path op v
  | Logical id op children => Plog id op (all children)
  | Embedded id path op subtree => Pemb id path op (all subtree)
  end.
End NodeInd.

Unset Implicit Arguments.

(** * Vocabulary of the statements *)

(** ** Example instances and queries *)

Definition fresh : Serializer := mkSerializer [] 0.

Definition q_tags : JsValue :=
  JObj [("tags", JObj [("$some",
          JObj [("$and", JArr [JObj [("x", JObj [("$eq", JNum 1)])]])])])].

Definition q_nested : JsValue :=
  JObj [("a", JObj [("b", JObj [("$eq", JNum 1)])]); ("c", JObj [("$eq", JNum 2)])].

Definition q_primitive : JsValue := JObj [("a", JNum 5)].

(** ** Trees: ids, nodes, single replacement *)

(** A number, string, boolean, null or undefined. *)
Definition isPrimitive (v : JsValue) : bool :=
  match v with JArr _ | JObj _ => false | _ => true end.

(** The ids of a node and of the nodes below it, in pre-order. *)
Fixpoint nodeIds (node : Node) : list nat :=
  match node with
  | Condition id _ _ _ => [id]
  | Logical id _ children => id :: flat_map nodeIds children
  | Embedded id _ _ subtree => id :: flat_map nodeIds subtree
  end.

Definition treeIds (nodes : list Node) : list nat := flat_map nodeIds nodes.

(** [replaceOne old new nodes nodes']: the two forests are equal except at
    one position, at any depth, where [nodes] has [old] and [nodes'] has
    [new]. *)
Inductive replaceOne (old new : Node) : list Node -> list Node -> Prop :=
| replace_here before after :
    replaceOne old new (before ++ old :: after) (before ++ new :: after)
| replace_in_children before after id op children children' :
    replaceOne old new children children' ->
    replaceOne old new (before ++ Logical id op children :: after)
                       (before ++ Logical id op children' :: after)
| replace_in_subtree before after id path op subtree subtree' :
    replaceOne old new subtree subtree' ->
    replaceOne old new (before ++ Embedded id path op subtree :: after)
                       (before ++ Embedded id path op subtree' :: after).

(** The three kinds of node an [add*] call can create. *)
Inductive NodeSpec :=
| ConditionSpec (fieldPath : list string) (operator : ComparisonOperator)
                (value : JsValue)
| LogicalSpec (operator : LogicalOperator)
| EmbeddedSpec (fieldPath : list string) (operator : EmbeddedOperator).

Definition makeNode (id : nat) (spec : NodeSpec) : Node :=
  match spec with
  | ConditionSpec fieldPath operator value => Condition id fieldPath operator value
  | LogicalSpec operator => Logical id operator []
  | EmbeddedSpec fieldPath operator => Embedded id fieldPath operator []
  end.

(** The three [add*] methods as one call. *)
Definition addNode (spec : NodeSpec) (parentId : option nat) (s : Serializer)
  : Result nat * Serializer :=
  match spec with
  | ConditionSpec fieldPath operator value =>
      addConditionNode fieldPath operator value parentId s
  | LogicalSpec operator => addLogicalNode operator parentId s
  | EmbeddedSpec fieldPath operator => addEmbeddedNode fieldPath operator parentId s
  end.

(** The lookup and the rebuilding of the tree go together: both fail, or
    the node found is the one replaced; and the changed node is found again
    under the same id. *)
Definition agree (id : nat) (change : Node -> Node)
  (found : option Node) (nodes : list Node) (rewritten : option (list Node)) : Prop :=
  match found, rewritten with
  | Some old, Some nodes' => nodeId old = id /\ replaceOne old (change old) nodes nodes'
  | None, None => True
  | _, _ => False
  end.

Definition refound (id : nat) (change : Node -> Node)
  (found : option Node) (rewritten : option Node) : Prop :=
  match found, rewritten with
  | Some old, Some n' => findInNode id n' = Some (change old)
  | None, None => True
  | _, _ => False
  end.

(** The lookup and the removal go together: both fail, or the ids of the
    node found, and of everything below it, leave the list of ids. *)
Definition removed_ids (found : option Node) (before : list nat)
  (after : option (list nat)) : Prop :=
  match found, after with
  | Some m, Some ids' =>
      exists l1 l2, before = l1 ++ nodeIds m ++ l2 /\ ids' = l1 ++ l2
  | None, None => True
  | _, _ => False
  end.

(** All nodes of a forest, in pre-order. *)
Fixpoint subnodes (node : Node) : list Node :=
  match node with
  | Condition _ _ _ _ => [node]
  | Logical _ _ children => node :: flat_map subnodes children
  | Embedded _ _ _ subtree => node :: flat_map subnodes subtree
  end.

Definition allNodes (nodes : list Node) : list Node := flat_map subnodes nodes.

(** ** Triples for the id generator *)

Definition triple {A : Type} (pre : nat -> Prop) (m : Gen A)
  (post : A -> nat -> Prop) (exc : nat -> Prop) : Prop :=
  forall c, pre c ->
            match m c with
            | (Ok a, c') => post a c'
            | (Throw _, c') => exc c'
            end.

(** The ids of a forest are pairwise distinct and lie in [lo, hi). *)
Definition fresh_between (lo hi : nat) (nodes : list Node) : Prop :=
  NoDup (treeIds nodes) /\ Forall (fun i => lo <= i < hi) (treeIds nodes).

Definition inv (lo : nat) (nodes : list Node) (c : nat) : Prop :=
  lo <= c /\ fresh_between lo c nodes.

(** What a serialization started at counter [lo] guarantees. *)
Definition numbered (m : Gen (list Node)) : Prop :=
  forall lo, triple (eq lo) m (fun nodes c => lo <= c /\ fresh_between lo c nodes)
                    (fun c => lo <= c).

(** The values directly inside an array or an object. *)
Definition members (v : JsValue) : list JsValue :=
  match v with
  | JArr items => items
  | JObj props => map snd props
  | _ => []
  end.

(** ** The instance as a state machine *)

Inductive Op :=
| OpSerialize (query : JsValue)
| OpAdd (spec : NodeSpec) (parentId : option nat)
| OpUpdate (id : nat) (operator : ComparisonOperator) (value : JsValue)
| OpRemove (id : nat)
| OpClear.

(** The instance after a call, whether the call returned or raised. *)
Definition step (s : Serializer) (op : Op) : Serializer :=
  match op with
  | OpSerialize query => snd (serialize query s)
  | OpAdd spec parentId => snd (addNode spec parentId s)
  | OpUpdate id operator value => snd (updateConditionNode id operator value s)
  | OpRemove id => snd (remove id s)
  | OpClear => clear s
  end.

(** The ids of the nodes a call creates and puts in the tree. *)
Definition assigned (s : Serializer) (op : Op) : list nat :=
  match op with
  | OpSerialize query =>
      match fst (serialize query s) with
      | Ok nodes => treeIds nodes
      | Throw _ => []
      end
  | OpAdd spec parentId =>
      match fst (addNode spec parentId s) with
      | Ok id => [id]
      | Throw _ => []
      end
  | _ => []
  end.

(** A sequence of calls on one instance. *)
Definition run (ops : list Op) (s : Serializer) : Serializer := fold_left step ops s.

(** The invariant of an instance: distinct ids, all below the counter. *)
Definition wf (s : Serializer) : Prop := fresh_between 0 (_idCounter s) (_tree s).

(** ** Deep equality and the condition-object grammar *)

(** Deep equality of values, objects being compared up to the order of
    their keys. *)
Fixpoint deepEqual (a b : JsValue) {struct a} : bool :=
  match a, b with
  | JNull, JNull | JUndefined, JUndefined => true
  | JBool x, JBool y => Bool.eqb x y
  | JNum x, JNum y => (x =? y)%Z
  | JStr x, JStr y => x =? y
  | JArr xs, JArr ys =>
      (fix each (xs ys : list JsValue) {struct xs} : bool :=
         match xs, ys with
         | [], [] => true
         | x :: xs', y :: ys' => deepEqual x y && each xs' ys'
         | _, _ => false
         end) xs ys
  | JObj ps, JObj qs =>
      (List.length ps =? List.length qs)%nat
      && forallb (fun e : string * JsValue =>
                    let (k, v) := e in hasProp k qs && deepEqual v (getProp k qs)) ps
  | _, _ => false
  end.

(** No key occurs twice. *)
Fixpoint distinct (keys : list string) : bool :=
  match keys with
  | [] => true
  | k :: rest => negb (existsb (String.eqb k) rest) && distinct rest
  end.

(** A field name is a key that is not an operator of any kind. *)
Definition isFieldName (key : string) : bool :=
  negb (_isLogicalOperator key || _isComparisonOperator key || _isEmbeddedOperator key).

Definition nonEmpty {A : Type} (l : list A) : bool :=
  match l with [] => false | _ => true end.

(** The three kinds of value of the condition-object grammar: a filter (a
    condition object), the value of a field, and the array under [$and] or
    [$or]. *)
Inductive Sort := Filter | FieldValue | Conjuncts.

(** A field value made of one chain of single keys ending in one operator:
    it gives exactly one node. *)
Fixpoint singleValue (v : JsValue) : bool :=
  match v with
  | JObj [(key, x)] => negb (isFieldName key) || singleValue x
  | _ => false
  end.

(** A filter with one key that gives exactly one node. *)
Definition isSingle (v : JsValue) : bool :=
  match v with
  | JObj [(key, w)] => _isLogicalOperator key || singleValue w
  | _ => false
  end.

(** The grammar for which the round trip is proved.
    - A filter is a non-empty object with distinct keys; under [$not] it has
      a filter, under [$and] / [$or] a non-empty array of single filters,
      under a field name a field value.
    - A field value is a non-empty object with distinct keys, which are
      either all operators (a comparison operator with any payload, or an
      embedded operator with a filter) or all field names with field values. *)
Fixpoint conforms (sort : Sort) (v : JsValue) {struct v} : bool :=
  match sort, v with
  | Filter, JObj props =>
      nonEmpty props && distinct (map fst props)
      && forallb (fun e : string * JsValue =>
                    let (key, w) := e in
                    match asLogicalOperator key with
                    | Some Not => conforms Filter w
                    | Some _ => conforms Conjuncts w
                    | None => isFieldName key && conforms FieldValue w
                    end) props
  | Conjuncts, JArr items =>
      nonEmpty items
      && forallb (fun item => conforms Filter item && isSingle item) items
  | FieldValue, JObj props =>
      nonEmpty props && distinct (map fst props)
      && (forallb (fun e : string * JsValue =>
                     let (op, x) := e in
                     match asEmbeddedOperator op with
                     | Some _ => conforms Filter x
                     | None => _isComparisonOperator op
                     end) props
          || forallb (fun e : string * JsValue =>
                        let (key, w) := e in
                        isFieldName key && conforms FieldValue w) props)
  | _, _ => false
  end.

(** An [$and] whose only element has two keys, and a query exercising every
    production of the grammar. *)
Definition q_and_two_keys : JsValue :=
  JObj [("$and", JArr [JObj [("a", JObj [("$eq", JNum 1)]);
                             ("b", JObj [("$eq", JNum 2)])]])].

Definition q_grammar : JsValue :=
  JObj [("a", JObj [("$gte", JNum 1); ("$lte", JNum 5)]);
        ("feedback", JObj [("store", JObj [("id", JObj [("$eq", JStr "s1")]);
                                           ("name", JObj [("$ilike", JStr "x")])]);
                           ("tags",
                            JObj [("$some",
                                   JObj [("label",
                                          JObj [("$in", JArr [JStr "u"; JStr "v"])])]);
                                  ("$exists", JBool true)])]);
        ("$or", JArr [JObj [("b", JObj [("c", JObj [("$ne", JNull)])])];
                      JObj [("$not", JObj [("d", JObj [("$lt", JNum 3)]);
                                           ("e", JObj [("$gt", JNum 4)])])];
                      JObj [("$and", JArr [JObj [("f", JObj [("$eq", JBool false)])]])]])].

(** ** Pieces of the round trip proof *)

Ltac name_cases H :=
  simpl in H;
  repeat match type of H with
         | context [String.eqb ?a ?b] => destruct (String.eqb_spec a b)
         end;
  try discriminate; injection H as <-; subst; reflexivity.

(** [{ [key]: x }]. *)
Definition wrap (key : string) (x : JsValue) : JsValue := JObj [(key, x)].

Definition isJObj (v : JsValue) : Prop :=
  match v with JObj _ => True | _ => False end.

(** One step of the loop of [_mergeObjects]. *)
Definition merge (obj result : JsValue) : option JsValue := _deepMerge result obj.

(** Merging a list of objects into its first element. *)
Definition mergeValues (xs : list JsValue) : option JsValue :=
  match xs with
  | [] => None
  | x :: rest => foldM merge rest x
  end.

(** A list that can be merged into its head: one element, or objects only. *)
Definition mergeable (xs : list JsValue) : Prop :=
  match xs with
  | [] => False
  | [_] => True
  | _ => Forall isJObj xs
  end.

(** [groups] lists, for each entry of an object, the values found under its
    key in the per-node objects; they merge to the value of the entry. *)
Definition explains (groups : list (string * list JsValue))
  (entries : list (string * JsValue)) : Prop :=
  Forall2 (fun g e => fst g = fst e /\ mergeable (snd g)
                      /\ mergeValues (snd g) = Some (snd e)
                      /\ (_isLogicalOperator (fst e) || singleValue (snd e) = true ->
                          snd g = [snd e])) groups entries.

Definition wrapped (groups : list (string * list JsValue)) : list JsValue :=
  flat_map (fun g => map (wrap (fst g)) (snd g)) groups.

(** Each node deserializes to the corresponding object, none being empty. *)
Definition yields (nodes : list Node) (ds : list JsValue) : Prop :=
  Forall2 (fun n d => _deserializeNode n = Some d /\ _isNotEmpty d = true) nodes ds.

(** What the induction on the query proves.  [RootRT]: a filter serializes,
    from the empty path, to nodes whose objects merge back to the filter
    (and to one node yielding the filter itself when it is single).
    [EntryRT]: the entry [(key, value)] of an object met under path [p]
    adds nodes whose objects are [p], then [key], then values that merge to
    [value].  [IterRT]: the array under [$and] / [$or] gives one node per
    element, yielding that element. *)
Definition RootRT (v : JsValue) : Prop :=
  forall c, exists nodes c' ds,
    _serializeObject v [] c = (Ok nodes, c')
    /\ yields nodes ds
    /\ _mergeObjects ds = Some v
    /\ (isSingle v = true -> ds = [v]).

Definition EntryRT (p : list string) (e : string * JsValue) : Prop :=
  forall acc c, exists ns c' xs,
    serializeEntry _serializeObject p e acc c = (Ok (acc ++ ns), c')
    /\ yields ns (map (fun x => _buildNestedObject p (wrap (fst e) x)) xs)
    /\ mergeable xs
    /\ mergeValues xs = Some (snd e)
    /\ (_isLogicalOperator (fst e) || singleValue (snd e) = true -> xs = [snd e]).

Definition IterRT (w : JsValue) : Prop :=
  forall c, exists children c' items,
    serializeIterable _serializeObject [] w c = (Ok children, c')
    /\ w = JArr items /\ items <> [] /\ yields children items.

Definition RT (v : JsValue) : Prop :=
  (conforms Filter v = true -> RootRT v)
  /\ (conforms FieldValue v = true ->
      forall p key, isFieldName key = true -> EntryRT p (key, v))
  /\ (conforms Conjuncts v = true -> IterRT v).

(** ** Vocabulary of the further properties *)

(** A node with no condition node at or below it. *)
Fixpoint hollow (node : Node) : bool :=
  match node with
  | Condition _ _ _ _ => false
  | Logical _ _ children => forallb hollow children
  | Embedded _ _ _ subtree => forallb hollow subtree
  end.

(** An [add*] call that creates a logical or an embedded node. *)
Definition isContainerSpec (spec : NodeSpec) : bool :=
  match spec with
  | ConditionSpec _ _ _ => false
  | _ => true
  end.

(** The ids of a node and of the nodes below it, children first. *)
Fixpoint postIds (node : Node) : list nat :=
  match node with
  | Condition id _ _ _ => [id]
  | Logical id _ children => flat_map postIds children ++ [id]
  | Embedded id _ _ subtree => flat_map postIds subtree ++ [id]
  end.

Definition postOrder (nodes : list Node) : list nat := flat_map postIds nodes.

(** Read children first, the ids of [nodes] are [lo], [lo + 1], ..., [c - 1]. *)
Definition upTo (lo : nat) (nodes : list Node) (c : nat) : Prop :=
  lo <= c /\ postOrder nodes = seq lo (c - lo).

Definition consecutive (m : Gen (list Node)) : Prop :=
  forall lo, triple (eq lo) m (upTo lo) (fun _ => True).

(** The entries of a field value whose key is an operator of some kind. *)
Definition operatorEntries (fieldProps : list (string * JsValue))
  : list (string * JsValue) :=
  filter (fun opEntry => negb (isFieldName (fst opEntry))) fieldProps.

(** [prefixNode p node]: [p] put in front of the field path of [node] and,
    through logical nodes, of the nodes below it; the subtree of an embedded
    node is left as it is. *)
Fixpoint prefixNode (p : list string) (node : Node) : Node :=
  match node with
  | Condition id path op v => Condition id (p ++ path) op v
  | Logical id op children => Logical id op (map (prefixNode p) children)
  | Embedded id path op subtree => Embedded id (p ++ path) op subtree
  end.

(** The outcome of a computation with its result, if any, changed by [f]. *)
Definition mapResult {A B : Type} (f : A -> B) (r : Result A * nat) : Result B * nat :=
  match r with
  | (Ok a, c) => (Ok (f a), c)
  | (Throw e, c) => (Throw e, c)
  end.

(** Serializing [v] under a path that starts with [p] gives the nodes of
    serializing it without [p], prefixed. *)
Definition shifts (p : list string) (v : JsValue) : Prop :=
  forall q c, _serializeObject v (p ++ q) c
              = mapResult (map (prefixNode p)) (_serializeObject v q c).

(** What [for ... of] accepts among the values of the model. *)
Definition iterable (value : JsValue) : bool :=
  match value with JArr _ | JStr _ => true | _ => false end.

(** Every [$and] and every [$or] key, at any depth of the value, holds an
    array or a string. *)
Fixpoint iterableUnderAndOr (v : JsValue) : bool :=
  match v with
  | JArr items => forallb iterableUnderAndOr items
  | JObj props =>
      forallb (fun entry : string * JsValue =>
                 let (key, value) := entry in
                 match asLogicalOperator key with
                 | Some And | Some Or => iterable value
                 | _ => true
                 end && iterableUnderAndOr value) props
  | _ => true
  end.

(** A computation that raises no exception, whatever the counter. *)
Definition returns {A : Type} (m : Gen A) : Prop :=
  forall c, exists a c', m c = (Ok a, c').

(** The entries of what [deserialize] returns: none for null. *)
Definition entriesOf (result : JsValue) : list (string * JsValue) :=
  match result with JObj props => props | _ => [] end.

(** ** Names and trees on which an engine and the model agree *)

(** The names of the members of [Object.prototype].  On an object without an
    own property of such a name, [obj[name]] is the inherited member, so
    [_buildNestedObject] walks into it instead of creating a level, and
    [obj.__proto__ = v] creates no own property; an object with an own key
    [hasOwnProperty] makes [_deepMerge] raise when it is the source.  The
    embedding reads and writes own properties only: what is stated of the
    objects the class builds or merges leaves these names out. *)
Definition prototypeNames : list string :=
  ["constructor"; "__proto__"; "hasOwnProperty"; "isPrototypeOf";
   "propertyIsEnumerable"; "toLocaleString"; "toString"; "valueOf";
   "__defineGetter__"; "__defineSetter__"; "__lookupGetter__"; "__lookupSetter__"].

Definition isPrototypeName (key : string) : bool :=
  existsb (String.eqb key) prototypeNames.

(** The decimal numerals: an engine lists such keys before the others,
    whatever the order of insertion. *)
Definition isIndexName (key : string) : bool :=
  match NilEmpty.uint_of_string key with
  | Some u => key =? indexName (Nat.of_uint u)
  | None => false
  end.

(** No key of an object, at any depth of the value, is the name of a member
    of [Object.prototype]. *)
Fixpoint plainKeys (v : JsValue) : bool :=
  match v with
  | JArr items => forallb plainKeys items
  | JObj props =>
      forallb (fun entry : string * JsValue =>
                 let (key, value) := entry in
                 negb (isPrototypeName key) && plainKeys value) props
  | _ => true
  end.

(** A path segment that is a field name, no member of [Object.prototype]
    and no numeral. *)
Definition isPlainField (key : string) : bool :=
  isFieldName key && negb (isPrototypeName key) && negb (isIndexName key).

(** The nodes whose condition values are primitives and whose paths are made
    of plain field names.  On a tree of such nodes [deserialize] writes into
    nothing the tree holds (the values it aliases cannot be written into),
    and the merge never has to put a named key on an array. *)
Fixpoint simple (node : Node) : bool :=
  match node with
  | Condition _ fieldPath _ value => forallb isPlainField fieldPath && isPrimitive value
  | Logical _ _ children => forallb simple children
  | Embedded _ fieldPath _ subtree =>
      forallb isPlainField fieldPath && forallb simple subtree
  end.

Section ShapedEntry.
Variable shaped : JsValue -> bool.

Definition shapedEntry (entry : string * JsValue) : bool :=
  let (key, x) := entry in
  match asLogicalOperator key with
  | Some Not => shaped x
  | Some _ => match x with JArr items => forallb shaped items | _ => false end
  | None =>
      match asEmbeddedOperator key with
      | Some _ => shaped x
      | None =>
          match asComparisonOperator key with
          | Some _ => isPrimitive x
          | None => negb (isPrototypeName key) && negb (isIndexName key) && shaped x
          end
      end
  end.
End ShapedEntry.

(** The objects deserialization builds from simple nodes: under [$and] and
    [$or] an array of such objects, under [$not], an embedded operator or a
    plain field name such an object, under a comparison operator a
    primitive. *)
Fixpoint shaped (v : JsValue) : bool :=
  match v with
  | JObj props => forallb (shapedEntry shaped) props
  | _ => false
  end.

(** * Lemmas and theorems *)

(** ** Serialization: path handling and dropped keys *)

Lemma forEach_app {A S : Type} (body : A -> S -> Gen S) (xs ys : list A) (acc : S) c :
  forEach body (xs ++ ys) acc c =
  (acc' <- forEach body xs acc ;; forEach body ys acc') c.
Proof.
  revert acc c; induction xs as [|x xs IH]; intros acc c; simpl.
  - reflexivity.
  - unfold bind. destruct (body x acc c) as [[a|e] c']; [|reflexivity].
    rewrite IH. reflexivity.
Qed.

Lemma serializeEntry_primitive self currentPath key value nodes c :
  _isLogicalOperator key = false -> isPrimitive value = true ->
  serializeEntry self currentPath (key, value) nodes c = (Ok nodes, c).
Proof.
  unfold _isLogicalOperator, serializeEntry; intros Hk Hv.
  destruct (asLogicalOperator key); [discriminate|].
  destruct value; try discriminate; unfold bind, ret; simpl;
    rewrite ?andb_false_r, app_nil_r; reflexivity.
Qed.

(** C2. Serializing the [tags]/[$some] query gives an embedded node at path
    [["tags"]] whose subtree is a [$and] node with a condition child at path
    [["x"]]; and for every field key, outer path and embedded operator, the
    subtree of the embedded node is the serialization of the operator's body
    started from the empty path, whatever the outer path is. *)
Theorem embedded_path_reset :
  fst (serialize q_tags fresh) =
    Ok [Embedded 2 ["tags"] Some_ [Logical 1 And [Condition 0 ["x"] Eq (JNum 1)]]]
  /\ forall key eop body currentPath c,
       _isLogicalOperator key = false ->
       _serializeObject (JObj [(key, JObj [(embeddedName eop, body)])]) currentPath c =
       match _serializeObject body [] c with
       | (Ok subtree, c') =>
           (Ok [Embedded c' (currentPath ++ [key]) eop subtree], S c')
       | (Throw e, c') => (Throw e, c')
       end.
Proof.
  split; [reflexivity|].
  intros key eop body currentPath c Hk.
  unfold _isLogicalOperator in Hk.
  cbn [_serializeObject forEach]. unfold bind at 1. unfold serializeEntry.
  destruct (asLogicalOperator key); [discriminate|].
  cbn [forEach]. unfold serializeOperator.
  replace (asEmbeddedOperator (embeddedName eop)) with (Some eop)
    by (destruct eop; reflexivity).
  unfold bind, ret, _generateId.
  destruct (_serializeObject body [] c) as [[subtree|e] c']; reflexivity.
Qed.

Lemma embedded_path_reset_witness :
  _serializeObject (JObj [("tags", JObj [("$some", JObj [("x", JObj [("$eq", JNum 1)])])])])
                   ["outer"] 0 =
  (Ok [Embedded 1 ["outer"; "tags"] Some_ [Condition 0 ["x"] Eq (JNum 1)]], 2).
Proof.
  exact (proj2 embedded_path_reset "tags" Some_ (JObj [("x", JObj [("$eq", JNum 1)])])
           ["outer"] 0 eq_refl).
Defined.

(** C3. Serializing [{a: {b: {$eq: 1}}, c: {$eq: 2}}] gives exactly two
    condition nodes, with paths [a; b] and [c], and deserializing that tree
    gives back the nested object itself: the two per-node objects are merged
    into one mapping, no [$and] array is introduced. *)
Theorem deep_merge_composition :
  serialize q_nested fresh =
    (Ok [Condition 0 ["a"; "b"] Eq (JNum 1); Condition 1 ["c"] Eq (JNum 2)],
     mkSerializer [Condition 0 ["a"; "b"] Eq (JNum 1); Condition 1 ["c"] Eq (JNum 2)] 2)
  /\ map _deserializeNode (tree (snd (serialize q_nested fresh))) =
       [Some (JObj [("a", JObj [("b", JObj [("$eq", JNum 1)])])]);
        Some (JObj [("c", JObj [("$eq", JNum 2)])])]
  /\ deserialize (snd (serialize q_nested fresh)) = Some q_nested.
Proof. repeat split. Qed.

(** C10. A key that is not a logical operator and whose value is a number,
    string, boolean, null or undefined contributes nothing to the
    serialization: the result (nodes and id counter) is the one obtained
    without that key.  In particular [{a: 5}] serializes to the empty tree,
    and deserializing it returns null. *)
Theorem primitive_field_dropped :
  (forall props1 key value props2 currentPath c,
      _isLogicalOperator key = false -> isPrimitive value = true ->
      _serializeObject (JObj (props1 ++ (key, value) :: props2)) currentPath c =
      _serializeObject (JObj (props1 ++ props2)) currentPath c)
  /\ serialize q_primitive fresh = (Ok [], fresh)
  /\ deserialize (snd (serialize q_primitive fresh)) = Some JNull.
Proof.
  split; [|split; reflexivity].
  intros props1 key value props2 currentPath c Hk Hv.
  cbn [_serializeObject]. rewrite !forEach_app. unfold bind.
  destruct (forEach _ props1 [] c) as [[acc|e] c']; [|reflexivity].
  cbn [forEach]. unfold bind at 1.
  rewrite serializeEntry_primitive by assumption. reflexivity.
Qed.

Lemma primitive_field_dropped_witness :
  _serializeObject (JObj ([("b", JObj [("$eq", JNum 1)])] ++ ("a", JStr "x") :: [])) [] 0 =
  _serializeObject (JObj ([("b", JObj [("$eq", JNum 1)])] ++ [])) [] 0.
Proof.
  exact (proj1 primitive_field_dropped [("b", JObj [("$eq", JNum 1)])] "a" (JStr "x") []
           [] 0 eq_refl eq_refl).
Defined.

(** ** Editing: lookup and in-place mutation *)

Lemma addNode_unfold spec parentId s :
  addNode spec parentId s =
  returnId (_addNode (makeNode (_idCounter s) spec) parentId
                     (mkSerializer (_tree s) (S (_idCounter s)))).
Proof. destruct spec; reflexivity. Qed.

Lemma nodeId_makeNode id spec : nodeId (makeNode id spec) = id.
Proof. destruct spec; reflexivity. Qed.

Lemma replaceOne_cons old new n l l' :
  replaceOne old new l l' -> replaceOne old new (n :: l) (n :: l').
Proof.
  intros H; destruct H; rewrite !app_comm_cons; constructor; assumption.
Qed.

Lemma replaceOne_app_r old new l l' rest :
  replaceOne old new l l' -> replaceOne old new (l ++ rest) (l' ++ rest).
Proof.
  intros H; destruct H; rewrite <- !app_assoc; simpl; constructor; assumption.
Qed.

Lemma replaceOne_head old new n n' rest :
  replaceOne old new [n] [n'] -> replaceOne old new (n :: rest) (n' :: rest).
Proof. intros H. exact (replaceOne_app_r _ _ _ _ rest H). Qed.

Lemma mutate_agrees_list id change nodes :
  Forall (fun n => agree id change (findInNode id n) [n]
                     (option_map (fun n' => [n']) (mutateInNode id change n))) nodes ->
  agree id change (firstSome (findInNode id) nodes) nodes
        (rewriteFirst (mutateInNode id change) nodes).
Proof.
  induction 1 as [|n rest Hn _ IH]; simpl; [exact I|].
  unfold agree in Hn.
  destruct (findInNode id n) as [old|], (mutateInNode id change n) as [n'|];
    simpl in Hn; try contradiction.
  - destruct Hn as [Hid Hr]. split; [assumption|]. now apply replaceOne_head.
  - unfold agree in *.
    destruct (firstSome (findInNode id) rest) as [old|],
             (rewriteFirst (mutateInNode id change) rest) as [rest'|];
      simpl; try contradiction; [|exact I].
    destruct IH as [Hid Hr]. split; [assumption|]. now apply replaceOne_cons.
Qed.

Lemma mutate_agrees_node id change n :
  agree id change (findInNode id n) [n]
        (option_map (fun n' => [n']) (mutateInNode id change n)).
Proof.
  induction n as [i path op v | i op children IH | i path op subtree IH]
    using Node_ind; simpl.
  - destruct (Nat.eqb_spec i id) as [->|]; simpl; [|exact I].
    split; [reflexivity|]. apply (replace_here _ _ [] []).
  - destruct (Nat.eqb_spec i id) as [->|]; simpl.
    + split; [reflexivity|]. apply (replace_here _ _ [] []).
    + pose proof (mutate_agrees_list id change _ IH) as H. unfold agree in *.
      destruct (firstSome (findInNode id) children),
               (rewriteFirst (mutateInNode id change) children);
        simpl; try contradiction; [|exact I].
      destruct H as [Hid Hr]. split; [assumption|].
      apply (replace_in_children _ _ [] [] i op _ _ Hr).
  - destruct (Nat.eqb_spec i id) as [->|]; simpl.
    + split; [reflexivity|]. apply (replace_here _ _ [] []).
    + pose proof (mutate_agrees_list id change _ IH) as H. unfold agree in *.
      destruct (firstSome (findInNode id) subtree),
               (rewriteFirst (mutateInNode id change) subtree);
        simpl; try contradiction; [|exact I].
      destruct H as [Hid Hr]. split; [assumption|].
      apply (replace_in_subtree _ _ [] [] i path op _ _ Hr).
Qed.

Lemma mutate_agrees id change nodes :
  agree id change (_findNodeById nodes id) nodes
        (rewriteFirst (mutateInNode id change) nodes).
Proof.
  apply mutate_agrees_list, Forall_forall. intros n _. apply mutate_agrees_node.
Qed.

Lemma found_has_id nodes id node :
  _findNodeById nodes id = Some node -> nodeId node = id.
Proof.
  intros H. pose proof (mutate_agrees id (fun n => n) nodes) as A.
  rewrite H in A. unfold agree in A.
  destruct (rewriteFirst _ nodes); [tauto|contradiction].
Qed.

Lemma mutateFound_replaces nodes id change old :
  _findNodeById nodes id = Some old ->
  replaceOne old (change old) nodes (mutateFound nodes id change).
Proof.
  intros H. pose proof (mutate_agrees id change nodes) as A.
  rewrite H in A. unfold agree, mutateFound in *.
  destruct (rewriteFirst _ nodes); [tauto|contradiction].
Qed.

Section FindAfterMutate.
Variable id : nat.
Variable change : Node -> Node.
Hypothesis change_id : forall n, nodeId (change n) = nodeId n.

Lemma refound_list nodes :
  Forall (fun n => refound id change (findInNode id n) (mutateInNode id change n)) nodes ->
  match firstSome (findInNode id) nodes,
        rewriteFirst (mutateInNode id change) nodes with
  | Some old, Some nodes' => firstSome (findInNode id) nodes' = Some (change old)
  | None, None => True
  | _, _ => False
  end.
Proof.
  induction 1 as [|n rest Hn _ IH]; simpl; [exact I|].
  unfold refound in Hn.
  destruct (findInNode id n) as [old|] eqn:Ef,
           (mutateInNode id change n) as [n'|]; try contradiction.
  - simpl. now rewrite Hn.
  - destruct (firstSome (findInNode id) rest),
             (rewriteFirst (mutateInNode id change) rest);
      simpl; try contradiction; [|exact I].
    now rewrite Ef.
Qed.

Lemma refound_node n : refound id change (findInNode id n) (mutateInNode id change n).
Proof.
  induction n as [i path op v | i op children IH | i path op subtree IH]
    using Node_ind; unfold refound; simpl.
  - destruct (Nat.eqb_spec i id) as [->|]; [|exact I].
    assert (E : nodeId (change (Condition id path op v)) = id) by (rewrite change_id; reflexivity).
    destruct (change (Condition id path op v)); simpl in *; subst;
      now rewrite Nat.eqb_refl.
  - destruct (Nat.eqb_spec i id) as [->|Hne].
    + assert (E : nodeId (change (Logical id op children)) = id)
        by (rewrite change_id; reflexivity).
      destruct (change (Logical id op children)); simpl in *; subst;
        now rewrite Nat.eqb_refl.
    + pose proof (refound_list _ IH) as H.
      destruct (firstSome (findInNode id) children),
               (rewriteFirst (mutateInNode id change) children);
        simpl; try contradiction; [|exact I].
      apply Nat.eqb_neq in Hne. now rewrite Hne.
  - destruct (Nat.eqb_spec i id) as [->|Hne].
    + assert (E : nodeId (change (Embedded id path op subtree)) = id)
        by (rewrite change_id; reflexivity).
      destruct (change (Embedded id path op subtree)); simpl in *; subst;
        now rewrite Nat.eqb_refl.
    + pose proof (refound_list _ IH) as H.
      destruct (firstSome (findInNode id) subtree),
               (rewriteFirst (mutateInNode id change) subtree);
        simpl; try contradiction; [|exact I].
      apply Nat.eqb_neq in Hne. now rewrite Hne.
Qed.

Lemma find_after_mutate nodes old :
  _findNodeById nodes id = Some old ->
  _findNodeById (mutateFound nodes id change) id = Some (change old).
Proof.
  intros H. unfold _findNodeById, mutateFound in *.
  assert (A : Forall (fun n => refound id change (findInNode id n) (mutateInNode id change n))
                     nodes)
    by (apply Forall_forall; intros n _; apply refound_node).
  apply refound_list in A. rewrite H in A.
  destruct (rewriteFirst (mutateInNode id change) nodes); [exact A|contradiction].
Qed.
End FindAfterMutate.

Lemma nodeId_pushChild child parent : nodeId (pushChild child parent) = nodeId parent.
Proof. destruct parent; reflexivity. Qed.

Lemma nodeId_setCondition op v node : nodeId (setCondition op v node) = nodeId node.
Proof. destruct node; reflexivity. Qed.

(** ** Editing: the [add*] operations *)

(** C5 fails as stated: a rejected [add*] call has already drawn an id, so
    the instance is not as it was before the call. *)
Lemma failed_add_consumes_id :
  fst (addConditionNode ["a"] Eq (JNum 1) (Some 7) fresh) = Throw ParentNotFound
  /\ snd (addConditionNode ["a"] Eq (JNum 1) (Some 7) fresh) <> fresh
  /\ _idCounter (snd (addConditionNode ["a"] Eq (JNum 1) (Some 7) fresh)) = 1.
Proof. repeat split. discriminate. Qed.

(** ** Editing: [updateConditionNode] *)

(** ** Editing: ids and removal *)

Lemma treeIds_app l1 l2 : treeIds (l1 ++ l2) = treeIds l1 ++ treeIds l2.
Proof. apply flat_map_app. Qed.

Lemma treeIds_cons n l : treeIds (n :: l) = nodeIds n ++ treeIds l.
Proof. reflexivity. Qed.

Lemma nodeIds_head n : exists rest, nodeIds n = nodeId n :: rest.
Proof. destruct n; simpl; eauto. Qed.

Lemma replaceOne_ids old new l l' :
  replaceOne old new l l' ->
  exists l1 l2, treeIds l = l1 ++ nodeIds old ++ l2
                /\ treeIds l' = l1 ++ nodeIds new ++ l2.
Proof.
  induction 1 as [before after
                 | before after id op children children' _ IH
                 | before after id path op subtree subtree' _ IH].
  - exists (treeIds before), (treeIds after).
    now rewrite !treeIds_app, !treeIds_cons.
  - destruct IH as (l1 & l2 & E & E').
    exists (treeIds before ++ id :: l1), (l2 ++ treeIds after).
    rewrite !treeIds_app, !treeIds_cons. simpl. fold (treeIds children).
    fold (treeIds children'). rewrite E, E'.
    split; repeat (rewrite <- app_assoc; simpl); reflexivity.
  - destruct IH as (l1 & l2 & E & E').
    exists (treeIds before ++ id :: l1), (l2 ++ treeIds after).
    rewrite !treeIds_app, !treeIds_cons. simpl. fold (treeIds subtree).
    fold (treeIds subtree'). rewrite E, E'.
    split; repeat (rewrite <- app_assoc; simpl); reflexivity.
Qed.

Lemma found_id_in_tree nodes id node :
  _findNodeById nodes id = Some node -> In id (treeIds nodes).
Proof.
  intros H. pose proof (found_has_id _ _ _ H) as Hid.
  destruct (replaceOne_ids _ _ _ _ (mutateFound_replaces _ _ (fun n => n) _ H))
    as (l1 & l2 & E & _).
  rewrite E. destruct (nodeIds_head node) as [rest ->]. rewrite Hid.
  apply in_or_app; right; left; reflexivity.
Qed.

Lemma absent_id_not_found nodes id :
  ~ In id (treeIds nodes) -> _findNodeById nodes id = None.
Proof.
  intros H. destruct (_findNodeById nodes id) eqn:E; [|reflexivity].
  exfalso. eauto using found_id_in_tree.
Qed.

Lemma present_id_found_list id nodes :
  Forall (fun n => In id (nodeIds n) -> findInNode id n <> None) nodes ->
  In id (treeIds nodes) -> _findNodeById nodes id <> None.
Proof.
  unfold _findNodeById.
  induction 1 as [|n rest Hn _ IH]; simpl; [auto|].
  intros Hin. apply in_app_or in Hin.
  destruct (findInNode id n) eqn:E; [discriminate|].
  destruct Hin as [Hin|Hin]; [now elim (Hn Hin)|now apply IH].
Qed.

Lemma present_id_found_node id n : In id (nodeIds n) -> findInNode id n <> None.
Proof.
  induction n as [i path op v | i op children IH | i path op subtree IH]
    using Node_ind; simpl; (destruct (Nat.eqb_spec i id) as [->|Hne]; [discriminate|]).
  - intros [E|[]]. now elim Hne.
  - intros [E|Hin]; [now elim Hne|]. exact (present_id_found_list _ _ IH Hin).
  - intros [E|Hin]; [now elim Hne|]. exact (present_id_found_list _ _ IH Hin).
Qed.

(** [_findNodeById] fails exactly when no node of the tree has the id. *)
Lemma not_found_iff_absent nodes id :
  _findNodeById nodes id = None <-> ~ In id (treeIds nodes).
Proof.
  split; [|apply absent_id_not_found].
  intros H Hin. revert H. apply present_id_found_list; [|assumption].
  apply Forall_forall. intros n _. apply present_id_found_node.
Qed.

Section RemoveIds.
Variable id : nat.

Lemma removed_ids_list nodes :
  Forall (fun n => nodeId n <> id ->
                   removed_ids (findInNode id n) (nodeIds n)
                               (option_map nodeIds (removeInNode id n))) nodes ->
  removed_ids (firstSome (findInNode id) nodes) (treeIds nodes)
              (option_map treeIds (removeFirst id (removeInNode id) nodes)).
Proof.
  induction 1 as [|n rest Hn _ IH]; simpl; [exact I|].
  destruct (Nat.eqb_spec (nodeId n) id) as [E|Hne].
  - assert (F : findInNode id n = Some n)
      by (destruct n; simpl in *; subst; now rewrite Nat.eqb_refl).
    rewrite F. simpl. exists [], (treeIds rest). now rewrite app_nil_l.
  - specialize (Hn Hne). unfold removed_ids in *.
    destruct (findInNode id n) as [m|], (removeInNode id n) as [n'|];
      simpl in *; try contradiction.
    + destruct Hn as (l1 & l2 & E & E').
      exists l1, (l2 ++ treeIds rest). fold (treeIds rest).
      now rewrite E, E', <- !app_assoc.
    + destruct (firstSome (findInNode id) rest) as [m|],
               (removeFirst id (removeInNode id) rest) as [rest'|];
        simpl in *; try contradiction; [|exact I].
      destruct IH as (l1 & l2 & E & E').
      exists (nodeIds n ++ l1), l2. fold (treeIds rest) (treeIds rest').
      now rewrite E, E', <- !app_assoc.
Qed.

Lemma removed_ids_node n :
  nodeId n <> id ->
  removed_ids (findInNode id n) (nodeIds n) (option_map nodeIds (removeInNode id n)).
Proof.
  induction n as [i path op v | i op children IH | i path op subtree IH]
    using Node_ind; simpl; intros Hne; apply Nat.eqb_neq in Hne; rewrite Hne.
  - exact I.
  - pose proof (removed_ids_list _ IH) as H. unfold removed_ids in *.
    destruct (firstSome (findInNode id) children) as [m|],
             (removeFirst id (removeInNode id) children) as [ch'|];
      simpl in *; try contradiction; [|exact I].
    destruct H as (l1 & l2 & E & E'). exists (i :: l1), l2.
    fold (treeIds children) (treeIds ch'). now rewrite E, E'.
  - pose proof (removed_ids_list _ IH) as H. unfold removed_ids in *.
    destruct (firstSome (findInNode id) subtree) as [m|],
             (removeFirst id (removeInNode id) subtree) as [st'|];
      simpl in *; try contradiction; [|exact I].
    destruct H as (l1 & l2 & E & E'). exists (i :: l1), l2.
    fold (treeIds subtree) (treeIds st'). now rewrite E, E'.
Qed.

Lemma remove_ids nodes :
  removed_ids (_findNodeById nodes id) (treeIds nodes)
              (option_map treeIds (_removeNodeFromList nodes id)).
Proof.
  apply removed_ids_list, Forall_forall. intros n _. apply removed_ids_node.
Qed.
End RemoveIds.

Lemma NoDup_app_l {A} (l1 l2 : list A) : NoDup (l1 ++ l2) -> NoDup l1.
Proof.
  induction l1 as [|a l1 IH]; simpl; intros H; [constructor|].
  inversion H; subst. constructor; [|auto].
  intros Hin; apply H2, in_or_app; now left.
Qed.

Lemma NoDup_app_r {A} (l1 l2 : list A) : NoDup (l1 ++ l2) -> NoDup l2.
Proof.
  induction l1 as [|a l1 IH]; simpl; intros H; [assumption|].
  inversion H; auto.
Qed.

Lemma NoDup_app_disjoint {A} (l1 l2 : list A) x :
  NoDup (l1 ++ l2) -> In x l1 -> In x l2 -> False.
Proof.
  induction l1 as [|a l1 IH]; simpl; intros H H1 H2; [contradiction|].
  inversion H; subst. destruct H1 as [->|H1]; [|eauto].
  apply H4, in_or_app; now right.
Qed.

Lemma member_ids_list n nodes :
  Forall (fun m => In n (subnodes m) -> In (nodeId n) (nodeIds m)) nodes ->
  In n (allNodes nodes) -> In (nodeId n) (treeIds nodes).
Proof.
  induction 1 as [|m rest Hm _ IH]; simpl; [auto|].
  intros H. apply in_app_or in H. apply in_or_app. tauto.
Qed.

Lemma member_ids_node n m : In n (subnodes m) -> In (nodeId n) (nodeIds m).
Proof.
  induction m as [i path op v | i op children IH | i path op subtree IH]
    using Node_ind; simpl.
  - intros [<-|[]]. now left.
  - intros [<-|H]; [now left|]. right. exact (member_ids_list _ _ IH H).
  - intros [<-|H]; [now left|]. right. exact (member_ids_list _ _ IH H).
Qed.

Lemma member_ids n nodes : In n (allNodes nodes) -> In (nodeId n) (treeIds nodes).
Proof.
  apply member_ids_list, Forall_forall. intros m _. apply member_ids_node.
Qed.

Lemma findInNode_singleton id m : findInNode id m = _findNodeById [m] id.
Proof. unfold _findNodeById; simpl. now destruct (findInNode id m). Qed.

Lemma member_found_list n nodes :
  Forall (fun m => NoDup (nodeIds m) -> In n (subnodes m) ->
                   findInNode (nodeId n) m = Some n) nodes ->
  NoDup (treeIds nodes) -> In n (allNodes nodes) ->
  _findNodeById nodes (nodeId n) = Some n.
Proof.
  unfold _findNodeById.
  induction 1 as [|m rest Hm _ IH]; simpl; [contradiction|].
  intros Hnd Hin. apply in_app_or in Hin. destruct Hin as [Hin|Hin].
  - rewrite (Hm (NoDup_app_l _ _ Hnd) Hin). reflexivity.
  - assert (F : findInNode (nodeId n) m = None).
    { rewrite findInNode_singleton. apply absent_id_not_found.
      unfold treeIds; simpl; rewrite app_nil_r. intros Hm'.
      exact (NoDup_app_disjoint _ _ _ Hnd Hm' (member_ids _ _ Hin)). }
    rewrite F. apply IH; [exact (NoDup_app_r _ _ Hnd)|assumption].
Qed.

Lemma member_found_node n m :
  NoDup (nodeIds m) -> In n (subnodes m) -> findInNode (nodeId n) m = Some n.
Proof.
  induction m as [i path op v | i op children IH | i path op subtree IH]
    using Node_ind; simpl.
  - intros _ [<-|[]]. simpl. now rewrite Nat.eqb_refl.
  - intros Hnd [<-|Hin]; [simpl; now rewrite Nat.eqb_refl|].
    inversion Hnd as [|? ? Hi Hnd']; subst.
    destruct (Nat.eqb_spec i (nodeId n)) as [->|_].
    + exfalso. apply Hi. exact (member_ids _ _ Hin).
    + exact (member_found_list _ _ IH Hnd' Hin).
  - intros Hnd [<-|Hin]; [simpl; now rewrite Nat.eqb_refl|].
    inversion Hnd as [|? ? Hi Hnd']; subst.
    destruct (Nat.eqb_spec i (nodeId n)) as [->|_].
    + exfalso. apply Hi. exact (member_ids _ _ Hin).
    + exact (member_found_list _ _ IH Hnd' Hin).
Qed.

Lemma member_found n nodes :
  NoDup (treeIds nodes) -> In n (allNodes nodes) ->
  _findNodeById nodes (nodeId n) = Some n.
Proof.
  apply member_found_list, Forall_forall. intros m _. apply member_found_node.
Qed.

Lemma removal_cascades_when_distinct (s : Serializer) (n : Node) :
  NoDup (treeIds (tree s)) ->
  In n (allNodes (tree s)) ->
  isContainer n = true ->
  fst (remove (nodeId n) s) = true
  /\ forall d, In d (allNodes [n]) ->
               findNodeById (nodeId d) (snd (remove (nodeId n) s)) = None.
Proof.
  intros Hnd Hin _. unfold remove, findNodeById, tree in *.
  pose proof (member_found _ _ Hnd Hin) as Hf.
  pose proof (remove_ids (nodeId n) (_tree s)) as Hr.
  rewrite Hf in Hr. unfold removed_ids in Hr.
  destruct (_removeNodeFromList (_tree s) (nodeId n)) as [nodes'|];
    simpl in *; [|contradiction].
  split; [reflexivity|]. intros d Hd.
  destruct Hr as (l1 & l2 & E & E').
  apply absent_id_not_found. rewrite E'. intros Hin'.
  rewrite E in Hnd. rewrite app_nil_r in Hd. apply member_ids_node in Hd.
  apply in_app_or in Hin'. destruct Hin' as [H1|H2].
  - exact (NoDup_app_disjoint _ _ _ Hnd H1 (in_or_app _ _ _ (or_introl Hd))).
  - apply NoDup_app_r in Hnd. exact (NoDup_app_disjoint _ _ _ Hnd Hd H2).
Qed.

(** ** Ids handed out by serialization *)

Lemma triple_ret {A} (pre : nat -> Prop) (a : A) (post : A -> nat -> Prop) exc :
  (forall c, pre c -> post a c) -> triple pre (ret a) post exc.
Proof. intros H c Hc. now apply H. Qed.

Lemma triple_bind {A B} (pre : nat -> Prop) (m : Gen A) (mid : A -> nat -> Prop)
  (k : A -> Gen B) (post : B -> nat -> Prop) exc :
  triple pre m mid exc -> (forall a, triple (mid a) (k a) post exc) ->
  triple pre (bind m k) post exc.
Proof.
  intros Hm Hk c Hc. specialize (Hm c Hc). unfold bind.
  destruct (m c) as [[a|e] c']; [now apply Hk | assumption].
Qed.

Lemma triple_generateId (pre : nat -> Prop) (post : nat -> nat -> Prop) exc :
  (forall c, pre c -> post c (S c)) -> triple pre _generateId post exc.
Proof. intros H c Hc. now apply H. Qed.

Lemma triple_weaken {A} (pre pre' : nat -> Prop) (m : Gen A)
  (post post' : A -> nat -> Prop) (exc exc' : nat -> Prop) :
  triple pre m post exc ->
  (forall c, pre' c -> pre c) -> (forall a c, post a c -> post' a c) ->
  (forall c, exc c -> exc' c) -> triple pre' m post' exc'.
Proof.
  intros H Hp Hq He c Hc. specialize (H c (Hp c Hc)).
  destruct (m c) as [[a|e] c']; auto.
Qed.

Lemma triple_forEach {A S} (body : A -> S -> Gen S) (inv : S -> nat -> Prop) exc xs :
  Forall (fun x => forall acc, triple (inv acc) (body x acc) inv exc) xs ->
  forall acc, triple (inv acc) (forEach body xs acc) inv exc.
Proof.
  induction 1 as [|x rest Hx _ IH]; intros acc; simpl.
  - now apply triple_ret.
  - eapply triple_bind; [apply Hx | exact IH].
Qed.

Lemma fresh_nil lo hi : fresh_between lo hi [].
Proof. split; constructor. Qed.

Lemma inv_app lo acc c c1 nodes :
  inv lo acc c -> c <= c1 -> fresh_between c c1 nodes -> inv lo (acc ++ nodes) c1.
Proof.
  intros [Hlo [Hnd Hr]] Hle [Hnd' Hr']. split; [lia|]. unfold fresh_between.
  rewrite treeIds_app. rewrite Forall_forall in Hr, Hr'. split.
  - apply NoDup_app; auto. intros i Hi Hi'.
    specialize (Hr i Hi). specialize (Hr' i Hi'). lia.
  - apply Forall_app; split; apply Forall_forall; intros i Hi.
    + specialize (Hr i Hi). lia.
    + specialize (Hr' i Hi). lia.
Qed.

Lemma fresh_wrap c c1 node children :
  c <= c1 -> fresh_between c c1 children -> nodeIds node = c1 :: treeIds children ->
  fresh_between c (S c1) [node].
Proof.
  intros Hle [Hnd Hr] E. unfold fresh_between, treeIds. simpl.
  rewrite app_nil_r, E. rewrite Forall_forall in Hr. split.
  - constructor; [|assumption]. intros Hi. specialize (Hr _ Hi). lia.
  - constructor; [lia|]. apply Forall_forall. intros i Hi. specialize (Hr _ Hi). lia.
Qed.

Lemma fresh_leaf c node : nodeIds node = [c] -> fresh_between c (S c) [node].
Proof.
  intros E. apply (fresh_wrap c c node []); [lia|apply fresh_nil|exact E].
Qed.

Lemma fresh_widen lo lo' hi hi' nodes :
  fresh_between lo hi nodes -> lo' <= lo -> hi <= hi' -> fresh_between lo' hi' nodes.
Proof.
  intros [Hnd Hr] H1 H2. split; [assumption|].
  eapply Forall_impl; [|exact Hr]. simpl. intros. lia.
Qed.

Lemma numbered_frame m lo acc :
  numbered m ->
  triple (inv lo acc) m
         (fun nodes c1 => exists c, inv lo acc c /\ c <= c1 /\ fresh_between c c1 nodes)
         (fun c => lo <= c).
Proof.
  intros H c Hc. specialize (H c c eq_refl).
  destruct (m c) as [[nodes|e] c1].
  - exists c. tauto.
  - destruct Hc. lia.
Qed.

Lemma numbered_append m lo acc :
  numbered m ->
  triple (inv lo acc) (nodes <- m ;; ret (acc ++ nodes)) (inv lo) (fun c => lo <= c).
Proof.
  intros H. eapply triple_bind; [apply numbered_frame, H|].
  intros nodes. apply triple_ret. intros c1 (c & Hi & Hle & Hf).
  eapply inv_app; eauto.
Qed.

Lemma numbered_wrap {T} m lo acc (wrap : nat -> list Node -> Node)
  (pack : list Node -> T) (proj : T -> list Node) :
  numbered m ->
  (forall id children, nodeIds (wrap id children) = id :: treeIds children) ->
  (forall nodes, proj (pack nodes) = nodes) ->
  triple (inv lo acc)
         (children <- m ;; id <- _generateId ;; ret (pack (acc ++ [wrap id children])))
         (fun st c => inv lo (proj st) c) (fun c => lo <= c).
Proof.
  intros H Hw Hp. eapply triple_bind; [apply numbered_frame, H|].
  intros children. eapply triple_bind.
  - apply triple_generateId with
      (post := fun id c2 => exists c, inv lo acc c /\ c <= id /\ c2 = S id
                                      /\ fresh_between c id children).
    intros c1 (c & Hi & Hle & Hf). exists c. auto.
  - intros id. apply triple_ret. intros c2 (c & Hi & Hle & -> & Hf).
    rewrite Hp. apply (inv_app lo acc c (S id)); [assumption|lia|].
    eapply fresh_wrap; eauto.
Qed.

Lemma numbered_of_inv m :
  (forall lo, triple (inv lo []) m (inv lo) (fun c => lo <= c)) -> numbered m.
Proof.
  intros H lo c <-. specialize (H lo lo). unfold inv in H.
  assert (P : lo <= lo /\ fresh_between lo lo []) by (split; [lia|apply fresh_nil]).
  specialize (H P). destruct (m lo) as [[nodes|e] c']; tauto.
Qed.

Lemma numbered_ret_nil : numbered (ret []).
Proof. intros lo c <-. simpl. split; [lia|apply fresh_nil]. Qed.

Lemma serializeItems_numbered self currentPath items :
  Forall (fun item => forall p, numbered (self item p)) items ->
  numbered (forEach (serializeItem self currentPath) items []).
Proof.
  intros H. apply numbered_of_inv. intros lo.
  apply triple_forEach. eapply Forall_impl; [|exact H]. simpl.
  intros item Hitem acc. apply numbered_append, Hitem.
Qed.

Lemma serializeOperator_inv self currentPath key lo opEntry :
  (forall p, numbered (self (snd opEntry) p)) ->
  forall st, triple (fun c => inv lo (fst st) c)
                    (serializeOperator self currentPath key opEntry st)
                    (fun st' c => inv lo (fst st') c) (fun c => lo <= c).
Proof.
  intros Hself [fieldNodes operatorFound]. destruct opEntry as [op opValue].
  unfold serializeOperator. simpl in *.
  destruct (asEmbeddedOperator op) as [eop|].
  { apply (numbered_wrap (self opValue []) lo fieldNodes
             (fun id subtree => Embedded id (currentPath ++ [key]) eop subtree)
             (fun nodes => (nodes, true)) fst); [apply Hself | reflexivity | reflexivity]. }
  destruct (asComparisonOperator op) as [cop|].
  { eapply triple_bind.
    - apply triple_generateId with
        (post := fun id c2 => inv lo fieldNodes id /\ c2 = S id).
      auto.
    - intros id. apply triple_ret. simpl. intros c2 [Hi ->].
      apply (inv_app lo fieldNodes id (S id)); [assumption|lia|].
      now apply fresh_leaf. }
  destruct (asLogicalOperator op) as [lop|].
  { apply (numbered_wrap (self opValue (currentPath ++ [key])) lo fieldNodes
             (fun id children => Logical id lop children)
             (fun nodes => (nodes, true)) fst); [apply Hself | reflexivity | reflexivity]. }
  apply triple_ret. auto.
Qed.

(** Induction giving the property for the members of a value and for the
    members of its members, as the serializer looks two levels down. *)
Lemma JsValue_ind2 (Q : JsValue -> Prop) :
  (forall v, Forall (fun w => Q w /\ Forall Q (members w)) (members v) -> Q v) ->
  forall v, Q v.
Proof.
  intros H v. cut (Q v /\ Forall Q (members v)); [tauto|].
  induction v using JsValue_ind; try (split; [apply H|]; constructor).
  - split; [apply H; assumption|]. simpl. eapply Forall_impl; [|eassumption].
    simpl; tauto.
  - assert (F : Forall (fun w => Q w /\ Forall Q (members w)) (map snd props))
      by (apply Forall_map; assumption).
    split; [apply H; assumption|]. simpl. eapply Forall_impl; [|exact F].
    simpl; tauto.
Qed.

Lemma inv_later lo nodes c c1 : inv lo nodes c -> c <= c1 -> inv lo nodes c1.
Proof.
  intros [Hlo Hf] Hle. split; [lia|]. eapply fresh_widen; eauto.
Qed.

Lemma operators_frame self currentPath key fieldProps lo nodes :
  Forall (fun w => forall p, numbered (self w p)) (map snd fieldProps) ->
  triple (inv lo nodes)
         (forEach (serializeOperator self currentPath key) fieldProps ([], false))
         (fun st c1 => exists c, inv lo nodes c /\ c <= c1 /\ fresh_between c c1 (fst st))
         (fun c => lo <= c).
Proof.
  intros H c Hc. apply Forall_map in H.
  assert (T := triple_forEach (serializeOperator self currentPath key)
                 (fun st c' => inv c (fst st) c') (fun c' => c <= c') fieldProps).
  assert (P : inv c (@fst (list Node) bool ([], false)) c)
    by (split; [lia|apply fresh_nil]).
  specialize (fun F => T F ([], false) c P).
  destruct (forEach _ fieldProps ([], false) c) as [[st|e] c1].
  - destruct T as [Hle Hf].
    + eapply Forall_impl; [|exact H]. simpl. intros e He acc.
      now apply serializeOperator_inv.
    + exists c. auto.
  - destruct Hc. enough (c <= c1) by lia. apply T.
    eapply Forall_impl; [|exact H]. simpl. intros e' He acc.
    now apply serializeOperator_inv.
Qed.

Lemma numbered_iterable currentPath value :
  Forall (fun w => forall p, numbered (_serializeObject w p)) (members value) ->
  numbered (serializeIterable _serializeObject currentPath value).
Proof.
  intros H. destruct value; simpl;
    try (intros lo c <-; simpl; lia).
  - apply numbered_ret_nil.
  - now apply serializeItems_numbered.
Qed.

Lemma serializeEntry_inv currentPath lo entry :
  (forall p, numbered (_serializeObject (snd entry) p)) ->
  Forall (fun w => forall p, numbered (_serializeObject w p)) (members (snd entry)) ->
  forall nodes, triple (inv lo nodes)
                       (serializeEntry _serializeObject currentPath entry nodes)
                       (inv lo) (fun c => lo <= c).
Proof.
  destruct entry as [key value]. simpl. intros Hv Hsub nodes.
  unfold serializeEntry.
  destruct (asLogicalOperator key) as [[| |]|].
  - apply (numbered_wrap (serializeIterable _serializeObject currentPath value) lo nodes
             (fun id children => Logical id And children) (fun l => l) (fun l => l));
      [now apply numbered_iterable | reflexivity | reflexivity].
  - apply (numbered_wrap (serializeIterable _serializeObject currentPath value) lo nodes
             (fun id children => Logical id Or children) (fun l => l) (fun l => l));
      [now apply numbered_iterable | reflexivity | reflexivity].
  - apply (numbered_wrap (_serializeObject value currentPath) lo nodes
             (fun id children => Logical id Not children) (fun l => l) (fun l => l));
      [apply Hv | reflexivity | reflexivity].
  - eapply triple_bind with
      (mid := fun st c1 => exists c, inv lo nodes c /\ c <= c1
                                     /\ fresh_between c c1 (fst st)).
    + destruct value;
        try (apply triple_ret; intros c Hc; exists c;
             split; [exact Hc | split; [lia | apply fresh_nil]]).
      now apply operators_frame.
    + intros [fieldNodes operatorFound].
      destruct (negb operatorFound && (truthy value && typeofObject value)).
      * eapply triple_weaken; [apply (numbered_append _ lo nodes), Hv| |auto|auto].
        intros c1 (c & Hi & Hle & _). eapply inv_later; eauto.
      * intros c1 (c & Hi & Hle & Hf). simpl. eapply inv_app; eauto.
Qed.

Lemma serializeObject_numbered obj : forall p, numbered (_serializeObject obj p).
Proof.
  induction obj as [obj IH] using JsValue_ind2. intros p.
  destruct obj; simpl; try apply numbered_ret_nil.
  - apply serializeItems_numbered. simpl in IH.
    eapply Forall_impl; [|exact IH]. simpl; tauto.
  - apply numbered_of_inv. intros lo. apply triple_forEach.
    simpl in IH. apply Forall_map in IH.
    eapply Forall_impl; [|exact IH]. simpl. intros e [He Hm] acc.
    now apply serializeEntry_inv.
Qed.

(** ** The invariant of an instance *)

Lemma NoDup_drop_middle {A} (l1 m l2 : list A) :
  NoDup (l1 ++ m ++ l2) -> NoDup (l1 ++ l2).
Proof.
  induction l1 as [|a l1 IH]; simpl; intros H.
  - exact (NoDup_app_r _ _ H).
  - inversion H; subst. constructor; [|auto].
    intros Hin. apply H2. apply in_app_or in Hin. apply in_or_app.
    destruct Hin; [now left|]. right. apply in_or_app. now right.
Qed.

Lemma fresh_drop_middle lo hi nodes nodes' l1 m l2 :
  fresh_between lo hi nodes -> treeIds nodes = l1 ++ m ++ l2 ->
  treeIds nodes' = l1 ++ l2 -> fresh_between lo hi nodes'.
Proof.
  unfold fresh_between. intros [Hnd Hr] E E'. rewrite E in *. rewrite E'. split.
  - eapply NoDup_drop_middle; eauto.
  - apply Forall_app in Hr as [H1 H2]. apply Forall_app in H2 as [_ H2].
    apply Forall_app; split; assumption.
Qed.

Lemma nodeIds_pushChild child parent :
  isContainer parent = true ->
  nodeIds (pushChild child parent) = nodeIds parent ++ nodeIds child.
Proof.
  destruct parent; simpl; intros H; try discriminate;
    now rewrite flat_map_app; simpl; rewrite app_nil_r.
Qed.

Lemma nodeIds_makeNode id spec : nodeIds (makeNode id spec) = [id].
Proof. destruct spec; reflexivity. Qed.

Lemma NoDup_insert {A} (l1 m l2 : list A) c :
  NoDup (l1 ++ m ++ l2) -> ~ In c (l1 ++ m ++ l2) -> NoDup (l1 ++ (m ++ [c]) ++ l2).
Proof.
  intros Hnd Hc.
  replace (l1 ++ (m ++ [c]) ++ l2) with ((l1 ++ m) ++ c :: l2)
    by (now rewrite <- !app_assoc).
  apply (Permutation_NoDup (Permutation_middle (l1 ++ m) l2 c)).
  rewrite <- app_assoc. now constructor.
Qed.

Lemma fresh_insert lo c nodes nodes' l1 m l2 :
  fresh_between lo c nodes -> lo <= c -> treeIds nodes = l1 ++ m ++ l2 ->
  treeIds nodes' = l1 ++ (m ++ [c]) ++ l2 -> fresh_between lo (S c) nodes'.
Proof.
  unfold fresh_between. intros [Hnd Hr] Hlo E E'. rewrite E in *. rewrite E'.
  assert (Hc : ~ In c (l1 ++ m ++ l2)).
  { intros Hin. rewrite Forall_forall in Hr. specialize (Hr _ Hin). lia. }
  assert (Hl : forall i, In i (l1 ++ (m ++ [c]) ++ l2) <-> i = c \/ In i (l1 ++ m ++ l2)).
  { intros i. rewrite !in_app_iff. simpl. intuition. }
  split.
  - now apply NoDup_insert.
  - apply Forall_forall. intros i Hi. apply Hl in Hi. destruct Hi as [->|Hi]; [lia|].
    rewrite Forall_forall in Hr. specialize (Hr _ Hi). lia.
Qed.

Lemma addNode_wf spec parentId s :
  wf s -> wf (snd (addNode spec parentId s)).
Proof.
  unfold wf. rewrite addNode_unfold. unfold _addNode. simpl _tree. simpl _idCounter.
  intros H. destruct parentId as [pid|].
  - destruct (_findNodeById (_tree s) pid) as [parent|] eqn:Hf; simpl.
    + destruct (isContainer parent) eqn:Hc; simpl.
      * pose proof (mutateFound_replaces _ _ (pushChild (makeNode (_idCounter s) spec))
                      _ Hf) as Hr.
        apply replaceOne_ids in Hr. destruct Hr as (l1 & l2 & E & E').
        rewrite nodeIds_pushChild, nodeIds_makeNode in E' by assumption.
        eapply fresh_insert; eauto. lia.
      * eapply fresh_widen; eauto.
    + eapply fresh_widen; eauto.
  - simpl. apply (inv_app 0 (_tree s) (_idCounter s) (S (_idCounter s))).
    + split; [lia|assumption].
    + lia.
    + apply fresh_leaf, nodeIds_makeNode.
Qed.

Lemma updateConditionNode_wf id operator value s :
  wf s -> wf (snd (updateConditionNode id operator value s)).
Proof.
  unfold wf, updateConditionNode. intros H.
  destruct (_findNodeById (_tree s) id) as [node|] eqn:Hf; [|assumption].
  destruct node; simpl; try assumption.
  pose proof (mutateFound_replaces _ _ (setCondition operator value) _ Hf) as Hr.
  apply replaceOne_ids in Hr. destruct Hr as (l1 & l2 & E & E').
  simpl in E, E'. unfold fresh_between in *. now rewrite E', <- E.
Qed.

Lemma remove_wf id s : wf s -> wf (snd (remove id s)).
Proof.
  unfold wf, remove. intros H. pose proof (remove_ids id (_tree s)) as Hr.
  unfold removed_ids in Hr.
  destruct (_findNodeById (_tree s) id) as [m|],
           (_removeNodeFromList (_tree s) id) as [nodes'|];
    simpl in *; try contradiction; [|assumption].
  destruct Hr as (l1 & l2 & E & E'). eapply fresh_drop_middle; eauto.
Qed.

Lemma serialize_spec query s :
  _idCounter s <= _idCounter (snd (serialize query s))
  /\ match fst (serialize query s) with
     | Ok nodes =>
         _tree (snd (serialize query s)) = nodes
         /\ fresh_between (_idCounter s) (_idCounter (snd (serialize query s))) nodes
     | Throw _ => _tree (snd (serialize query s)) = _tree s
     end.
Proof.
  unfold serialize.
  pose proof (serializeObject_numbered query [] (_idCounter s) (_idCounter s) eq_refl) as H.
  destruct (_serializeObject query [] (_idCounter s)) as [[nodes|e] c]; simpl; tauto.
Qed.

Lemma step_wf s op : wf s -> wf (step s op) /\ _idCounter s <= _idCounter (step s op).
Proof.
  intros H. destruct op as [query|spec parentId|id operator value|id|]; simpl.
  - destruct (serialize_spec query s) as [Hle Hs]. split; [|assumption]. unfold wf.
    destruct (fst (serialize query s)).
    + destruct Hs as [-> Hf]. eapply fresh_widen; eauto. lia.
    + rewrite Hs. eapply fresh_widen; eauto.
  - split; [now apply addNode_wf|].
    rewrite addNode_unfold. unfold _addNode. simpl.
    destruct parentId as [pid|]; simpl; [|lia].
    destruct (_findNodeById (_tree s) pid) as [parent|]; simpl; [|lia].
    destruct (isContainer parent); simpl; lia.
  - split; [now apply updateConditionNode_wf|].
    unfold updateConditionNode.
    destruct (_findNodeById (_tree s) id) as [[]|]; simpl; lia.
  - split; [now apply remove_wf|]. unfold remove.
    destruct (_removeNodeFromList (_tree s) id); simpl; lia.
  - split; [apply fresh_nil|simpl; lia].
Qed.

Lemma run_wf ops : forall s, wf s -> wf (run ops s) /\ _idCounter s <= _idCounter (run ops s).
Proof.
  induction ops as [|op ops IH]; intros s H; simpl; [split; [assumption|lia]|].
  destruct (step_wf s op H) as [H1 H2]. destruct (IH _ H1). split; [assumption|lia].
Qed.

Lemma construct_wf query s : construct query = Ok s -> wf s.
Proof.
  unfold construct. destruct query as [q|]; [|intros [= <-]; apply fresh_nil].
  destruct (truthy q); [|intros [= <-]; apply fresh_nil].
  pose proof (serializeObject_numbered q [] 0 0 eq_refl) as H.
  destruct (_serializeObject q [] 0) as [[nodes|e] c]; [|discriminate].
  intros [= <-]. apply H.
Qed.

Lemma assigned_fresh s op i : In i (assigned s op) -> _idCounter s <= i.
Proof.
  destruct op as [query|spec parentId| | |]; simpl; try contradiction.
  - destruct (serialize_spec query s) as [_ Hs].
    destruct (fst (serialize query s)); [|contradiction].
    destruct Hs as [_ [_ Hr]]. rewrite Forall_forall in Hr.
    intros Hi. specialize (Hr _ Hi). lia.
  - rewrite addNode_unfold. unfold _addNode. simpl.
    destruct parentId as [pid|]; simpl.
    + destruct (_findNodeById (_tree s) pid) as [parent|]; simpl; [|contradiction].
      destruct (isContainer parent); simpl; [|contradiction].
      rewrite nodeId_makeNode. intros [<-|[]]. lia.
    + rewrite nodeId_makeNode. intros [<-|[]]. lia.
Qed.

(** C4. On an instance built by the constructor, after any sequence of
    [serialize], [add*], [updateConditionNode], [remove] and [clear] calls
    (returning or raising), the ids in the tree are pairwise distinct; and
    an id present in the tree at that point is never given to a node created
    by a later call, whatever calls (removals and clears included) come in
    between. *)
Theorem ids_unique_never_reused (query : option JsValue) (s0 : Serializer)
  (ops later : list Op) (op : Op) :
  construct query = Ok s0 ->
  NoDup (treeIds (tree (run ops s0)))
  /\ forall i, In i (treeIds (tree (run ops s0))) ->
               ~ In i (assigned (run later (run ops s0)) op).
Proof.
  intros Hc. apply construct_wf in Hc.
  destruct (run_wf ops s0 Hc) as [[Hnd Hr] _]. split; [exact Hnd|].
  intros i Hi Ha. apply assigned_fresh in Ha.
  destruct (run_wf later (run ops s0) (conj Hnd Hr)) as [_ Hle].
  rewrite Forall_forall in Hr. specialize (Hr _ Hi). lia.
Qed.

Lemma ids_unique_never_reused_witness :
  NoDup (treeIds (tree (run [OpRemove 0; OpAdd (LogicalSpec And) None]
                            (mkSerializer
                               [Condition 0 ["a"; "b"] Eq (JNum 1);
                                Condition 1 ["c"] Eq (JNum 2)] 2))))
  /\ forall i,
       In i (treeIds (tree (run [OpRemove 0; OpAdd (LogicalSpec And) None]
                                (mkSerializer
                                   [Condition 0 ["a"; "b"] Eq (JNum 1);
                                    Condition 1 ["c"] Eq (JNum 2)] 2)))) ->
       ~ In i (assigned
                 (run [OpClear]
                      (run [OpRemove 0; OpAdd (LogicalSpec And) None]
                           (mkSerializer
                              [Condition 0 ["a"; "b"] Eq (JNum 1);
                               Condition 1 ["c"] Eq (JNum 2)] 2)))
                 (OpAdd (ConditionSpec ["z"] Eq JNull) None)).
Proof.
  exact (ids_unique_never_reused (Some q_nested)
           (mkSerializer [Condition 0 ["a"; "b"] Eq (JNum 1);
                          Condition 1 ["c"] Eq (JNum 2)] 2)
           [OpRemove 0; OpAdd (LogicalSpec And) None] [OpClear]
           (OpAdd (ConditionSpec ["z"] Eq JNull) None) eq_refl).
Defined.

Lemma step_counter s op : _idCounter s <= _idCounter (step s op).
Proof.
  destruct op as [query|spec parentId|id operator value|id|]; simpl.
  - exact (proj1 (serialize_spec query s)).
  - rewrite addNode_unfold. unfold _addNode. simpl.
    destruct parentId as [pid|]; simpl; [|lia].
    destruct (_findNodeById (_tree s) pid) as [parent|]; simpl; [|lia].
    destruct (isContainer parent); simpl; lia.
  - unfold updateConditionNode.
    destruct (_findNodeById (_tree s) id) as [[]|]; simpl; lia.
  - unfold remove. destruct (_removeNodeFromList (_tree s) id); simpl; lia.
  - lia.
Qed.

Lemma run_counter ops : forall s, _idCounter s <= _idCounter (run ops s).
Proof.
  induction ops as [|op ops IH]; intros s; simpl; [lia|].
  pose proof (step_counter s op). specialize (IH (step s op)). lia.
Qed.

(** C5 (amended). When an [add*] call raises, the error is ParentNotFound or
    InvalidParentType and the tree is exactly the tree before the call; the
    id counter has advanced by one, and the id drawn for the rejected node
    is never handed out again: whatever calls follow, the counter stays
    above it and no later call gives it to a node. *)
Theorem failed_add_keeps_tree (spec : NodeSpec) (parentId : option nat)
  (s : Serializer) (e : Error) :
  fst (addNode spec parentId s) = Throw e ->
  (e = ParentNotFound \/ e = InvalidParentType)
  /\ tree (snd (addNode spec parentId s)) = tree s
  /\ _idCounter (snd (addNode spec parentId s)) = S (_idCounter s)
  /\ forall later,
       _idCounter s < _idCounter (run later (snd (addNode spec parentId s)))
       /\ forall op,
            ~ In (_idCounter s)
                 (assigned (run later (snd (addNode spec parentId s))) op).
Proof.
  intros H.
  assert (B : (e = ParentNotFound \/ e = InvalidParentType)
              /\ tree (snd (addNode spec parentId s)) = tree s
              /\ _idCounter (snd (addNode spec parentId s)) = S (_idCounter s)).
  { revert H. rewrite addNode_unfold. unfold _addNode, tree. simpl _tree.
    destruct parentId as [pid|]; [|discriminate].
    destruct (_findNodeById (_tree s) pid) as [parent|].
    - destruct (isContainer parent); simpl; [discriminate|].
      intros [= <-]. auto.
    - simpl. intros [= <-]. auto. }
  destruct B as (He & Ht & Hc). split; [exact He|]. split; [exact Ht|].
  split; [exact Hc|]. intros later.
  pose proof (run_counter later (snd (addNode spec parentId s))) as Hle.
  split; [lia|]. intros op Ha. apply assigned_fresh in Ha. lia.
Qed.

Lemma failed_add_keeps_tree_witness :
  tree (snd (addNode (LogicalSpec And) (Some 0)
               (mkSerializer [Condition 0 ["a"] Eq (JNum 1)] 1)))
  = [Condition 0 ["a"] Eq (JNum 1)]
  /\ ~ In 1 (assigned
               (run [OpClear; OpAdd (LogicalSpec Or) None]
                    (snd (addNode (LogicalSpec And) (Some 0)
                            (mkSerializer [Condition 0 ["a"] Eq (JNum 1)] 1))))
               (OpAdd (ConditionSpec ["b"] Eq (JNum 2)) (Some 2))).
Proof.
  pose (rejected := failed_add_keeps_tree (LogicalSpec And) (Some 0)
                      (mkSerializer [Condition 0 ["a"] Eq (JNum 1)] 1)
                      InvalidParentType eq_refl).
  split.
  - exact (proj1 (proj2 rejected)).
  - exact (proj2 (proj2 (proj2 (proj2 rejected))
                    [OpClear; OpAdd (LogicalSpec Or) None])
             (OpAdd (ConditionSpec ["b"] Eq (JNum 2)) (Some 2))).
Defined.

(** C6. On an instance built by the constructor and edited by any sequence
    of calls, an [add*] call given a parent id [X]: raises ParentNotFound
    and leaves the tree alone when no node of the tree, at any depth, has id
    [X]; raises InvalidParentType and leaves the tree alone when the node of
    the tree with id [X] is a condition node; and when that node is a logical
    or embedded node, returns the fresh id, the tree differing from the old
    one exactly by that node having the new node after its former children
    (or subtree). *)
Theorem add_parent_resolution (query : option JsValue) (s0 : Serializer)
  (ops : list Op) (spec : NodeSpec) (X : nat) :
  construct query = Ok s0 ->
  let s := run ops s0 in
  let newNode := makeNode (_idCounter s) spec in
  let r := addNode spec (Some X) s in
  (~ In X (treeIds (tree s)) ->
   fst r = Throw ParentNotFound /\ tree (snd r) = tree s)
  /\ forall parent, In parent (allNodes (tree s)) -> nodeId parent = X ->
       match parent with
       | Condition _ _ _ _ =>
           fst r = Throw InvalidParentType /\ tree (snd r) = tree s
       | Logical i op children =>
           fst r = Ok (_idCounter s)
           /\ replaceOne parent (Logical i op (children ++ [newNode]))
                         (tree s) (tree (snd r))
           /\ findNodeById X (snd r) = Some (Logical i op (children ++ [newNode]))
       | Embedded i path op subtree =>
           fst r = Ok (_idCounter s)
           /\ replaceOne parent (Embedded i path op (subtree ++ [newNode]))
                         (tree s) (tree (snd r))
           /\ findNodeById X (snd r)
              = Some (Embedded i path op (subtree ++ [newNode]))
       end.
Proof.
  intros Hc s newNode r. apply construct_wf in Hc.
  destruct (run_wf ops s0 Hc) as [[Hnd _] _]. fold s in Hnd.
  subst r. rewrite addNode_unfold. fold newNode.
  assert (Hnew : nodeId newNode = _idCounter s) by apply nodeId_makeNode.
  unfold findNodeById, _addNode, tree in *. simpl _tree. split.
  - intros Ha. now rewrite (absent_id_not_found _ _ Ha).
  - intros parent Hin <-. rewrite (member_found _ _ Hnd Hin).
    pose proof (member_found _ _ Hnd Hin) as Hf.
    destruct parent as [i path op v | i op children | i path op subtree]; simpl.
    + auto.
    + rewrite Hnew. repeat split.
      * exact (mutateFound_replaces _ _ (pushChild newNode) _ Hf).
      * exact (find_after_mutate _ _ (nodeId_pushChild newNode) _ _ Hf).
    + rewrite Hnew. repeat split.
      * exact (mutateFound_replaces _ _ (pushChild newNode) _ Hf).
      * exact (find_after_mutate _ _ (nodeId_pushChild newNode) _ _ Hf).
Qed.

Lemma add_parent_resolution_witness :
  (fst (addNode (ConditionSpec ["d"] Lt (JNum 3)) (Some 9)
          (run [OpAdd (LogicalSpec Or) None]
               (mkSerializer [Condition 0 ["a"; "b"] Eq (JNum 1);
                              Condition 1 ["c"] Eq (JNum 2)] 2)))
   = Throw ParentNotFound)
  /\ (fst (addNode (ConditionSpec ["d"] Lt (JNum 3)) (Some 1)
             (run [OpAdd (LogicalSpec Or) None]
                  (mkSerializer [Condition 0 ["a"; "b"] Eq (JNum 1);
                                 Condition 1 ["c"] Eq (JNum 2)] 2)))
      = Throw InvalidParentType)
  /\ replaceOne (Logical 2 Or []) (Logical 2 Or ([] ++ [Condition 3 ["d"] Lt (JNum 3)]))
       [Condition 0 ["a"; "b"] Eq (JNum 1); Condition 1 ["c"] Eq (JNum 2);
        Logical 2 Or []]
       (tree (snd (addNode (ConditionSpec ["d"] Lt (JNum 3)) (Some 2)
                     (run [OpAdd (LogicalSpec Or) None]
                          (mkSerializer [Condition 0 ["a"; "b"] Eq (JNum 1);
                                         Condition 1 ["c"] Eq (JNum 2)] 2))))).
Proof.
  pose (resolve := add_parent_resolution (Some q_nested)
                     (mkSerializer [Condition 0 ["a"; "b"] Eq (JNum 1);
                                    Condition 1 ["c"] Eq (JNum 2)] 2)
                     [OpAdd (LogicalSpec Or) None]
                     (ConditionSpec ["d"] Lt (JNum 3))).
  split; [|split].
  - apply (proj1 (resolve 9 eq_refl)). vm_compute. intuition discriminate.
  - apply (proj2 (resolve 1 eq_refl) (Condition 1 ["c"] Eq (JNum 2))).
    + vm_compute. tauto.
    + reflexivity.
  - apply (proj2 (resolve 2 eq_refl) (Logical 2 Or [])).
    + vm_compute. tauto.
    + reflexivity.
Defined.

(** C7. On an instance built by the constructor and edited by any sequence
    of calls, [updateConditionNode id operator value]: raises NodeNotFound
    and changes nothing when no node of the tree, at any depth, has the id;
    raises InvalidNodeType and changes nothing when the node of the tree
    with the id is a logical or embedded node; and when it is a condition
    node, returns true, leaves the id counter alone, and yields a tree that
    differs from the old one only in that one node, whose operator and value
    are the new ones while its id, field path and type stay the same. *)
Theorem updateConditionNode_spec (query : option JsValue) (s0 : Serializer)
  (ops : list Op) (id : nat) (operator : ComparisonOperator) (value : JsValue) :
  construct query = Ok s0 ->
  let s := run ops s0 in
  let r := updateConditionNode id operator value s in
  (~ In id (treeIds (tree s)) -> r = (Throw NodeNotFound, s))
  /\ forall node, In node (allNodes (tree s)) -> nodeId node = id ->
       match node with
       | Condition _ path op v =>
           fst r = Ok true
           /\ _idCounter (snd r) = _idCounter s
           /\ replaceOne node (Condition id path operator value)
                         (tree s) (tree (snd r))
           /\ findNodeById id (snd r) = Some (Condition id path operator value)
       | Logical _ _ _ | Embedded _ _ _ _ => r = (Throw InvalidNodeType, s)
       end.
Proof.
  intros Hc s r. apply construct_wf in Hc.
  destruct (run_wf ops s0 Hc) as [[Hnd _] _]. fold s in Hnd.
  subst r. unfold findNodeById, updateConditionNode, tree in *. split.
  - intros Ha. now rewrite (absent_id_not_found _ _ Ha).
  - intros node Hin <-. pose proof (member_found _ _ Hnd Hin) as Hf. rewrite Hf.
    destruct node as [i path op v | i op children | i path op subtree];
      simpl in *; try reflexivity.
    repeat split.
    + exact (mutateFound_replaces _ _ (setCondition operator value) _ Hf).
    + exact (find_after_mutate _ _ (nodeId_setCondition operator value) _ _ Hf).
Qed.

Lemma updateConditionNode_spec_witness :
  (updateConditionNode 9 Gt (JNum 7)
     (run [OpAdd (LogicalSpec Or) None]
          (mkSerializer [Condition 0 ["a"; "b"] Eq (JNum 1);
                         Condition 1 ["c"] Eq (JNum 2)] 2))
   = (Throw NodeNotFound,
      run [OpAdd (LogicalSpec Or) None]
          (mkSerializer [Condition 0 ["a"; "b"] Eq (JNum 1);
                         Condition 1 ["c"] Eq (JNum 2)] 2)))
  /\ (updateConditionNode 2 Gt (JNum 7)
        (run [OpAdd (LogicalSpec Or) None]
             (mkSerializer [Condition 0 ["a"; "b"] Eq (JNum 1);
                            Condition 1 ["c"] Eq (JNum 2)] 2))
      = (Throw InvalidNodeType,
         run [OpAdd (LogicalSpec Or) None]
             (mkSerializer [Condition 0 ["a"; "b"] Eq (JNum 1);
                            Condition 1 ["c"] Eq (JNum 2)] 2)))
  /\ replaceOne (Condition 1 ["c"] Eq (JNum 2)) (Condition 1 ["c"] Gt (JNum 7))
       [Condition 0 ["a"; "b"] Eq (JNum 1); Condition 1 ["c"] Eq (JNum 2);
        Logical 2 Or []]
       (tree (snd (updateConditionNode 1 Gt (JNum 7)
                     (run [OpAdd (LogicalSpec Or) None]
                          (mkSerializer [Condition 0 ["a"; "b"] Eq (JNum 1);
                                         Condition 1 ["c"] Eq (JNum 2)] 2))))).
Proof.
  pose (update := fun id =>
          updateConditionNode_spec (Some q_nested)
            (mkSerializer [Condition 0 ["a"; "b"] Eq (JNum 1);
                           Condition 1 ["c"] Eq (JNum 2)] 2)
            [OpAdd (LogicalSpec Or) None] id Gt (JNum 7) eq_refl).
  split; [|split].
  - apply (proj1 (update 9)). vm_compute. intuition discriminate.
  - apply (proj2 (update 2) (Logical 2 Or [])).
    + vm_compute. tauto.
    + reflexivity.
  - apply (proj2 (update 1) (Condition 1 ["c"] Eq (JNum 2))).
    + vm_compute. tauto.
    + reflexivity.
Defined.

(** C8. On an instance built by the constructor and edited by any sequence
    of calls, removing a logical or embedded node [n] of the tree by its id
    returns true, and afterwards [findNodeById] finds neither the id of [n]
    nor the id of any node that was below [n]. *)
Theorem remove_cascades (query : option JsValue) (s0 : Serializer) (ops : list Op)
  (n : Node) :
  construct query = Ok s0 ->
  In n (allNodes (tree (run ops s0))) ->
  isContainer n = true ->
  fst (remove (nodeId n) (run ops s0)) = true
  /\ forall d, In d (allNodes [n]) ->
               findNodeById (nodeId d) (snd (remove (nodeId n) (run ops s0))) = None.
Proof.
  intros Hc Hin Hn. apply construct_wf in Hc.
  destruct (run_wf ops s0 Hc) as [[Hnd _] _].
  now apply removal_cascades_when_distinct.
Qed.

Lemma remove_cascades_witness :
  fst (remove 2 (run [OpAdd (LogicalSpec Or) None;
                      OpAdd (ConditionSpec ["d"] Lt (JNum 3)) (Some 2)]
                     (mkSerializer [Condition 0 ["a"; "b"] Eq (JNum 1);
                                    Condition 1 ["c"] Eq (JNum 2)] 2))) = true
  /\ forall d,
       In d (allNodes [Logical 2 Or [Condition 3 ["d"] Lt (JNum 3)]]) ->
       findNodeById (nodeId d)
         (snd (remove 2 (run [OpAdd (LogicalSpec Or) None;
                              OpAdd (ConditionSpec ["d"] Lt (JNum 3)) (Some 2)]
                             (mkSerializer [Condition 0 ["a"; "b"] Eq (JNum 1);
                                            Condition 1 ["c"] Eq (JNum 2)] 2))))
       = None.
Proof.
  apply (remove_cascades (Some q_nested)
           (mkSerializer [Condition 0 ["a"; "b"] Eq (JNum 1);
                          Condition 1 ["c"] Eq (JNum 2)] 2)
           [OpAdd (LogicalSpec Or) None;
            OpAdd (ConditionSpec ["d"] Lt (JNum 3)) (Some 2)]
           (Logical 2 Or [Condition 3 ["d"] Lt (JNum 3)])).
  - reflexivity.
  - vm_compute. tauto.
  - reflexivity.
Defined.

(** ** Round trip: merging the per-node objects *)

Lemma asLogicalOperator_name key op :
  asLogicalOperator key = Some op -> logicalName op = key.
Proof. unfold asLogicalOperator. intros H. name_cases H. Qed.

Lemma asEmbeddedOperator_name key op :
  asEmbeddedOperator key = Some op -> embeddedName op = key.
Proof. unfold asEmbeddedOperator. intros H. name_cases H. Qed.

Lemma asComparisonOperator_name key op :
  asComparisonOperator key = Some op -> comparisonName op = key.
Proof. unfold asComparisonOperator. intros H. name_cases H. Qed.

Lemma isFieldName_none key :
  isFieldName key = true ->
  asLogicalOperator key = None /\ asComparisonOperator key = None
  /\ asEmbeddedOperator key = None.
Proof.
  unfold isFieldName, _isLogicalOperator, _isComparisonOperator, _isEmbeddedOperator.
  destruct (asLogicalOperator key), (asComparisonOperator key),
    (asEmbeddedOperator key); simpl; intros H; try discriminate; auto.
Qed.

Lemma getProp_absent key props : hasProp key props = false -> getProp key props = JUndefined.
Proof.
  induction props as [|[k v] rest IH]; simpl; [reflexivity|].
  destruct (k =? key); simpl; [discriminate|exact IH].
Qed.

Lemma hasProp_last key v props : hasProp key (props ++ [(key, v)]) = true.
Proof.
  induction props as [|[k w] rest IH]; simpl.
  - now rewrite String.eqb_refl.
  - rewrite IH. apply orb_true_r.
Qed.

Lemma getProp_last key v props :
  hasProp key props = false -> getProp key (props ++ [(key, v)]) = v.
Proof.
  induction props as [|[k w] rest IH]; simpl.
  - now rewrite String.eqb_refl.
  - destruct (k =? key); simpl; [discriminate|exact IH].
Qed.

Lemma replaceProp_last key v v' props :
  hasProp key props = false ->
  replaceProp key v' (props ++ [(key, v)]) = props ++ [(key, v')].
Proof.
  induction props as [|[k w] rest IH]; simpl.
  - now rewrite String.eqb_refl.
  - destruct (k =? key); simpl; [discriminate|]. intros H. now rewrite IH.
Qed.

Lemma deepMerge_wrap target key x :
  _deepMerge target (wrap key x) = mergeKey _deepMerge (KName key) x target.
Proof.
  unfold wrap. cbn [_deepMerge foldM mergeEntry].
  destruct (mergeKey _deepMerge (KName key) x target); reflexivity.
Qed.

Lemma merge_absent props key x :
  hasProp key props = false ->
  merge (wrap key x) (JObj props) = Some (JObj (props ++ [(key, x)])).
Proof.
  intros H. unfold merge. rewrite deepMerge_wrap. unfold mergeKey. simpl.
  rewrite (getProp_absent _ _ H). simpl. unfold setProp. now rewrite H.
Qed.

Lemma merge_present props key acc x acc' :
  hasProp key props = false -> isJObj acc -> isJObj x ->
  merge x acc = Some acc' ->
  merge (wrap key x) (JObj (props ++ [(key, acc)])) = Some (JObj (props ++ [(key, acc')])).
Proof.
  intros H Ha Hx Hm. unfold merge in *. rewrite deepMerge_wrap. unfold mergeKey. simpl.
  rewrite (getProp_last _ _ _ H).
  destruct acc; try contradiction. destruct x; try contradiction.
  cbn [truthy typeofObject andb]. rewrite Hm. cbn [optBind].
  unfold setProp. now rewrite hasProp_last, replaceProp_last.
Qed.

Lemma mergeKey_keeps_object key sv props r :
  mergeKey _deepMerge (KName key) sv (JObj props) = Some r -> isJObj r.
Proof.
  unfold mergeKey. simpl.
  destruct (truthy (getProp key props) && typeofObject (getProp key props)
            && typeofObject sv).
  - destruct (_deepMerge (getProp key props) sv); simpl; [|discriminate].
    intros [= <-]. exact I.
  - intros [= <-]. exact I.
Qed.

Lemma merge_keeps_object x acc r : isJObj acc -> isJObj x -> merge x acc = Some r -> isJObj r.
Proof.
  destruct acc as [| | | | | |target]; try contradiction.
  destruct x as [| | | | | |props]; try contradiction. intros _ _.
  unfold merge. cbn [_deepMerge]. revert target.
  induction props as [|[k v] rest IH]; intros target; cbn [foldM].
  - intros [= <-]. exact I.
  - cbn [mergeEntry].
    destruct (mergeKey _deepMerge (KName k) v (JObj target)) as [t'|] eqn:E;
      cbn [optBind]; [|discriminate].
    apply mergeKey_keeps_object in E. destruct t'; try contradiction. apply IH.
Qed.

Lemma foldM_app {A S} (body : A -> S -> option S) xs ys acc :
  foldM body (xs ++ ys) acc = (acc' <-- foldM body xs acc ;; foldM body ys acc').
Proof.
  revert acc; induction xs as [|x xs IH]; intros acc; simpl; [reflexivity|].
  destruct (body x acc); simpl; [apply IH|reflexivity].
Qed.

Lemma merge_nested_rest key props rest : forall acc w,
  hasProp key props = false ->
  mergeable (acc :: rest) ->
  foldM merge rest acc = Some w ->
  foldM merge (map (wrap key) rest) (JObj (props ++ [(key, acc)]))
  = Some (JObj (props ++ [(key, w)])).
Proof.
  induction rest as [|x rest IH]; intros acc w Hk Hm Hf; cbn [foldM map] in *.
  - now injection Hf as ->.
  - simpl in Hm.
    inversion Hm as [|? ? Ha Hrest]; subst. inversion Hrest as [|? ? Hx Hrest']; subst.
    destruct (merge x acc) as [acc'|] eqn:E; cbn [optBind] in Hf; [|discriminate].
    rewrite (merge_present props key acc x acc' Hk Ha Hx E). cbn [optBind].
    apply IH; [assumption| |assumption].
    pose proof (merge_keeps_object x acc acc' Ha Hx E) as Ha'.
    destruct rest; simpl; [exact I|]. constructor; assumption.
Qed.

Lemma merge_nested key props xs w :
  hasProp key props = false -> mergeable xs -> mergeValues xs = Some w ->
  foldM merge (map (wrap key) xs) (JObj props) = Some (JObj (props ++ [(key, w)])).
Proof.
  destruct xs as [|x rest]; [contradiction|]. intros Hk Hm Hf. cbn [foldM map].
  rewrite (merge_absent props key x Hk). cbn [optBind].
  now apply merge_nested_rest.
Qed.

Lemma hasProp_app key l1 l2 : hasProp key (l1 ++ l2) = hasProp key l1 || hasProp key l2.
Proof.
  induction l1 as [|[k v] l1 IH]; simpl; [reflexivity|].
  now rewrite IH, orb_assoc.
Qed.

Lemma merge_groups groups : forall entries props,
  explains groups entries ->
  distinct (map fst entries) = true ->
  Forall (fun e => hasProp (fst e) props = false) entries ->
  foldM merge (wrapped groups) (JObj props) = Some (JObj (props ++ entries)).
Proof.
  induction groups as [|[k xs] groups IH]; intros entries props He Hd Hp.
  - inversion He; subst. simpl. now rewrite app_nil_r.
  - inversion He as [|? [k' w] ? es [Hk [Hm [Hv _]]] He']; subst. simpl in *. subst k'.
    apply andb_true_iff in Hd as [Hk Hd]. apply negb_true_iff in Hk.
    inversion Hp as [|? ? Hkp Hp']; subst. simpl in Hkp.
    unfold wrapped. simpl. rewrite foldM_app.
    rewrite (merge_nested k props xs w Hkp Hm Hv). simpl.
    fold (wrapped groups). rewrite (IH es (props ++ [(k, w)]) He' Hd).
    + now rewrite <- app_assoc.
    + rewrite Forall_forall in *. intros e He0.
      rewrite hasProp_app, (Hp' e He0). simpl. rewrite orb_false_r.
      rewrite String.eqb_sym.
      destruct (String.eqb_spec (fst e) k) as [E|]; [|reflexivity].
      rewrite <- Hk. symmetry. apply existsb_exists. exists (fst e).
      split; [now apply in_map|]. rewrite E. apply String.eqb_refl.
Qed.

Lemma mergeValues_wrapped g groups entries :
  explains (g :: groups) entries ->
  distinct (map fst entries) = true ->
  mergeValues (wrapped (g :: groups)) = Some (JObj entries).
Proof.
  intros He Hd.
  pose proof (merge_groups (g :: groups) entries [] He Hd) as H.
  simpl in H. rewrite <- H by (apply Forall_forall; reflexivity).
  inversion He as [|? e ? es [_ [Hm _]] _]; subst.
  destruct g as [k [|x xs]]; [contradiction|].
  unfold wrapped. cbn [flat_map fst snd map app mergeValues foldM].
  now rewrite (merge_absent [] k x eq_refl).
Qed.

(** ** Round trip: what the nodes deserialize to *)

Lemma yields_app ns1 ds1 ns2 ds2 :
  yields ns1 ds1 -> yields ns2 ds2 -> yields (ns1 ++ ns2) (ds1 ++ ds2).
Proof. apply Forall2_app. Qed.

Lemma deserializeEach_yields nodes ds :
  yields nodes ds -> deserializeEach _deserializeNode nodes = Some ds.
Proof.
  unfold deserializeEach. intros H.
  enough (G : forall acc,
             foldM (fun node deserializedObjects =>
                      d <-- _deserializeNode node ;;
                      Some (if _isNotEmpty d then deserializedObjects ++ [d]
                            else deserializedObjects)) nodes acc = Some (acc ++ ds))
    by apply (G []).
  induction H as [|n d ns ds' [Hn Hd] _ IH]; intros acc; simpl.
  - now rewrite app_nil_r.
  - rewrite Hn. simpl. rewrite Hd, IH. now rewrite <- app_assoc.
Qed.

Lemma build_app p key x :
  _buildNestedObject (p ++ [key]) x = _buildNestedObject p (wrap key x).
Proof. induction p as [|k p IH]; simpl; [reflexivity|now rewrite IH]. Qed.

Lemma build_not_empty p key x : _isNotEmpty (_buildNestedObject p (wrap key x)) = true.
Proof. destruct p; reflexivity. Qed.

Lemma mergeable_wrapped g groups entries :
  explains (g :: groups) entries -> mergeable (wrapped (g :: groups)).
Proof.
  intros He. inversion He as [|? e ? es [_ [Hm _]] _]; subst.
  assert (F : Forall isJObj (wrapped (g :: groups))).
  { apply Forall_forall. intros x Hx. apply in_flat_map in Hx.
    destruct Hx as (g' & _ & Hx). apply in_map_iff in Hx.
    destruct Hx as (y & <- & _). exact I. }
  destruct g as [k [|x xs]]; [contradiction|].
  unfold wrapped in *. simpl in *.
  destruct (map (wrap k) xs ++ flat_map (fun g => map (wrap (fst g)) (snd g)) groups);
    [exact I|assumption].
Qed.

(** ** Round trip: induction on the query *)

Lemma bind_ok {A B} (m : Gen A) (k : A -> Gen B) c a c' :
  m c = (Ok a, c') -> bind m k c = k a c'.
Proof. intros H. unfold bind. now rewrite H. Qed.

Lemma entries_loop p entries :
  Forall (EntryRT p) entries ->
  forall acc c, exists ns c' groups,
    forEach (serializeEntry _serializeObject p) entries acc c = (Ok (acc ++ ns), c')
    /\ yields ns (map (_buildNestedObject p) (wrapped groups))
    /\ explains groups entries.
Proof.
  induction 1 as [|e es He _ IH]; intros acc c.
  - exists [], c, []. simpl. rewrite app_nil_r. repeat split; constructor.
  - destruct (He acc c) as (ns1 & c1 & xs & E1 & Y1 & M1 & V1 & S1).
    destruct (IH (acc ++ ns1) c1) as (ns2 & c2 & groups & E2 & Y2 & X2).
    exists (ns1 ++ ns2), c2, ((fst e, xs) :: groups).
    cbn [forEach]. rewrite (bind_ok _ _ _ _ _ E1), E2, app_assoc.
    split; [reflexivity|]. split.
    + unfold wrapped. cbn [flat_map fst snd]. rewrite map_app, map_map.
      now apply yields_app.
    + constructor; [|assumption]. simpl. auto.
Qed.

Lemma items_loop items :
  Forall (fun item => RootRT item /\ isSingle item = true) items ->
  forall acc c, exists ns c',
    forEach (serializeItem _serializeObject []) items acc c = (Ok (acc ++ ns), c')
    /\ yields ns items.
Proof.
  induction 1 as [|item rest [Hi Hs] _ IH]; intros acc c.
  - exists [], c. simpl. rewrite app_nil_r. split; [reflexivity|constructor].
  - destruct (Hi c) as (nodes & c1 & ds & E1 & Y1 & _ & S1).
    rewrite (S1 Hs) in Y1.
    destruct (IH (acc ++ nodes) c1) as (ns2 & c2 & E2 & Y2).
    exists (nodes ++ ns2), c2. cbn [forEach].
    assert (E : serializeItem _serializeObject [] item acc c = (Ok (acc ++ nodes), c1))
      by (unfold serializeItem; now rewrite (bind_ok _ _ _ _ _ E1)).
    rewrite (bind_ok _ _ _ _ _ E), E2, app_assoc.
    split; [reflexivity|]. exact (yields_app _ _ _ _ Y1 Y2).
Qed.

Lemma operators_skip self p key props : forall st c,
  forallb (fun e : string * JsValue => isFieldName (fst e)) props = true ->
  forEach (serializeOperator self p key) props st c = (Ok st, c).
Proof.
  induction props as [|[op x] rest IH]; intros st c H; simpl in *; [reflexivity|].
  apply andb_true_iff in H as [Hop Hrest].
  destruct (isFieldName_none _ Hop) as (Hl & Hc & He).
  assert (E : serializeOperator self p key (op, x) st c = (Ok st, c)).
  { unfold serializeOperator. destruct st as [fieldNodes operatorFound].
    now rewrite He, Hc, Hl. }
  rewrite (bind_ok _ _ _ _ _ E). now apply IH.
Qed.

Lemma operators_loop p key props :
  Forall (fun e : string * JsValue =>
            match asEmbeddedOperator (fst e) with
            | Some _ => RootRT (snd e) /\ _isNotEmpty (snd e) = true
            | None => _isComparisonOperator (fst e) = true
            end) props ->
  forall fieldNodes operatorFound c, exists ns c',
    forEach (serializeOperator _serializeObject p key) props
            (fieldNodes, operatorFound) c
    = (Ok (fieldNodes ++ ns, operatorFound || nonEmpty props), c')
    /\ yields ns (map (fun e => _buildNestedObject p
                                  (wrap key (wrap (fst e) (snd e)))) props).
Proof.
  induction 1 as [|[op x] rest He _ IH]; intros fieldNodes operatorFound c.
  - exists [], c. simpl. rewrite app_nil_r, orb_false_r.
    split; [reflexivity|constructor].
  - simpl in He. cbn [forEach nonEmpty].
    destruct (asEmbeddedOperator op) as [eop|] eqn:Ee.
    + destruct He as [Hx Hne].
      destruct (Hx c) as (subtree & c1 & ds & E1 & Y1 & M1 & _).
      destruct (IH (fieldNodes ++ [Embedded c1 (p ++ [key]) eop subtree]) true (S c1))
        as (ns2 & c2 & E2 & Y2).
      exists (Embedded c1 (p ++ [key]) eop subtree :: ns2), c2.
      assert (E : serializeOperator _serializeObject p key (op, x)
                    (fieldNodes, operatorFound) c
                  = (Ok (fieldNodes ++ [Embedded c1 (p ++ [key]) eop subtree], true),
                     S c1))
        by (unfold serializeOperator; rewrite Ee;
            now rewrite (bind_ok _ _ _ _ _ E1)).
      rewrite (bind_ok _ _ _ _ _ E).
      rewrite E2, <- app_assoc, orb_true_r. split; [reflexivity|].
      constructor; [|exact Y2]. cbn [_deserializeNode fst snd].
      unfold deserializeNodesWith. rewrite (deserializeEach_yields _ _ Y1).
      cbn [optBind]. rewrite M1. cbn [optBind]. rewrite Hne. cbn [negb].
      rewrite (asEmbeddedOperator_name _ _ Ee), build_app.
      split; [reflexivity|apply build_not_empty].
    + unfold _isComparisonOperator in He.
      destruct (asComparisonOperator op) as [cop|] eqn:Ec; [|discriminate].
      destruct (IH (fieldNodes ++ [Condition c (p ++ [key]) cop x]) true (S c))
        as (ns2 & c2 & E2 & Y2).
      exists (Condition c (p ++ [key]) cop x :: ns2), c2.
      assert (E : serializeOperator _serializeObject p key (op, x)
                    (fieldNodes, operatorFound) c
                  = (Ok (fieldNodes ++ [Condition c (p ++ [key]) cop x], true), S c))
        by (unfold serializeOperator; now rewrite Ee, Ec).
      rewrite (bind_ok _ _ _ _ _ E).
      rewrite E2, <- app_assoc, orb_true_r. split; [reflexivity|].
      constructor; [|exact Y2]. cbn [_deserializeNode fst snd].
      rewrite (asComparisonOperator_name _ _ Ec), build_app.
      split; [reflexivity|apply build_not_empty].
Qed.

Lemma conforms_filter_not_empty v : conforms Filter v = true -> _isNotEmpty v = true.
Proof.
  destruct v as [| | | | | |[|e props]]; simpl; try discriminate. reflexivity.
Qed.

Lemma entry_not key w :
  asLogicalOperator key = Some Not -> RootRT w -> _isNotEmpty w = true ->
  EntryRT [] (key, w).
Proof.
  intros Hk Hw Hne acc c.
  destruct (Hw c) as (children & c1 & ds & E1 & Y1 & M1 & _).
  exists [Logical c1 Not children], (S c1), [w].
  unfold serializeEntry. rewrite Hk, (bind_ok _ _ _ _ _ E1).
  split; [reflexivity|]. split.
  - constructor; [|constructor]. cbn [_deserializeNode fst snd _buildNestedObject].
    unfold deserializeNodesWith. rewrite (deserializeEach_yields _ _ Y1).
    cbn [optBind]. rewrite M1. cbn [optBind]. rewrite Hne. cbn [negb].
    apply asLogicalOperator_name in Hk. simpl in Hk. subst key.
    split; reflexivity.
  - simpl. auto.
Qed.

Lemma entry_iter key op w :
  asLogicalOperator key = Some op -> op <> Not -> IterRT w -> EntryRT [] (key, w).
Proof.
  intros Hk Hop Hw acc c.
  destruct (Hw c) as (children & c1 & items & E1 & -> & Hne & Y1).
  exists [Logical c1 op children], (S c1), [JArr items].
  assert (E : serializeEntry _serializeObject [] (key, JArr items) acc c
              = (Ok (acc ++ [Logical c1 op children]), S c1)).
  { unfold serializeEntry. rewrite Hk.
    destruct op; try congruence; now rewrite (bind_ok _ _ _ _ _ E1). }
  split; [exact E|]. split.
  - constructor; [|constructor]. cbn [fst snd map _buildNestedObject].
    assert (D : _deserializeNode (Logical c1 op children)
                = Some (JObj [(logicalName op, JArr items)])).
    { destruct op; try congruence; cbn [_deserializeNode];
        rewrite (deserializeEach_yields _ _ Y1); cbn [optBind];
        destruct items; try congruence; reflexivity. }
    rewrite D, (asLogicalOperator_name _ _ Hk). split; reflexivity.
  - simpl. auto.
Qed.

Lemma map_build_nil xs : map (_buildNestedObject []) xs = xs.
Proof. induction xs as [|x xs IH]; cbn [map]; [reflexivity|now rewrite IH]. Qed.

Lemma root_rt props :
  Forall (fun e => RT (snd e)) props ->
  conforms Filter (JObj props) = true -> RootRT (JObj props).
Proof.
  intros HRT Hc c. cbn [conforms] in Hc.
  apply andb_true_iff in Hc as [Hc He]. apply andb_true_iff in Hc as [Hne Hd].
  assert (HE : Forall (EntryRT []) props).
  { rewrite forallb_forall in He. rewrite Forall_forall in *.
    intros [key w] Hin. specialize (He _ Hin). specialize (HRT _ Hin).
    destruct HRT as (Hroot & Hfield & Hiter). simpl in *.
    destruct (asLogicalOperator key) as [op|] eqn:Hk.
    - destruct op.
      + apply (entry_iter key And); [assumption|discriminate|auto].
      + apply (entry_iter key Or); [assumption|discriminate|auto].
      + apply entry_not; auto using conforms_filter_not_empty.
    - apply andb_true_iff in He as [Hf Hv]. now apply Hfield. }
  destruct (entries_loop [] props HE [] c) as (ns & c' & groups & E & Y & X).
  exists ns, c', (wrapped groups). rewrite map_build_nil in Y.
  split; [exact E|]. split; [exact Y|]. split.
  - exact (merge_groups groups props [] X Hd
             (proj2 (Forall_forall _ _) (fun _ _ => eq_refl))).
  - intros Hs. destruct props as [|[key w] [|]]; try discriminate.
    inversion X as [|g ? ? ? [Hg [_ [_ Hsingle]]] X']; subst. inversion X'; subst.
    destruct g as [k xs]. simpl in *. subst k. rewrite (Hsingle Hs). reflexivity.
Qed.

Lemma iter_rt items :
  Forall RT items -> conforms Conjuncts (JArr items) = true -> IterRT (JArr items).
Proof.
  intros HRT Hc c. cbn [conforms] in Hc. apply andb_true_iff in Hc as [Hne Hi].
  assert (H : Forall (fun item => RootRT item /\ isSingle item = true) items).
  { rewrite forallb_forall in Hi. rewrite Forall_forall in *. intros item Hin.
    specialize (Hi _ Hin). apply andb_true_iff in Hi as [Hf Hs].
    split; [|assumption]. now apply (HRT _ Hin). }
  destruct (items_loop items H [] c) as (ns & c' & E & Y).
  exists ns, c', items. split; [exact E|]. split; [reflexivity|].
  split; [|exact Y]. destruct items; [discriminate|congruence].
Qed.

Lemma field_rt props :
  Forall (fun e => RT (snd e)) props ->
  conforms FieldValue (JObj props) = true ->
  forall p key, isFieldName key = true -> EntryRT p (key, JObj props).
Proof.
  intros HRT Hc p key Hkey acc c. cbn [conforms] in Hc.
  apply andb_true_iff in Hc as [Hc Hcase]. apply andb_true_iff in Hc as [Hne Hd].
  destruct (isFieldName_none _ Hkey) as (Hl & _ & _).
  assert (Hnl : _isLogicalOperator key = false)
    by (unfold _isLogicalOperator; now rewrite Hl).
  apply orb_true_iff in Hcase as [Hops|Hfields].
  - (* a mapping of operators *)
    assert (H : Forall (fun e : string * JsValue =>
                          match asEmbeddedOperator (fst e) with
                          | Some _ => RootRT (snd e) /\ _isNotEmpty (snd e) = true
                          | None => _isComparisonOperator (fst e) = true
                          end) props).
    { rewrite forallb_forall in Hops. rewrite Forall_forall in *.
      intros [op x] Hin. specialize (Hops _ Hin). specialize (HRT _ Hin). simpl in *.
      destruct (asEmbeddedOperator op); [|assumption].
      split; [now apply HRT|now apply conforms_filter_not_empty]. }
    destruct (operators_loop p key props H [] false c) as (ns & c' & E & Y).
    exists ns, c', (map (fun e => wrap (fst e) (snd e)) props).
    assert (X : explains (map (fun e => (fst e, [snd e])) props) props).
    { clear. induction props as [|e rest IH]; constructor; [|exact IH].
      simpl. auto. }
    assert (W : wrapped (map (fun e => (fst e, [snd e])) props)
                = map (fun e => wrap (fst e) (snd e)) props).
    { clear. induction props as [|e rest IH]; [reflexivity|].
      unfold wrapped in *. simpl. now rewrite IH. }
    split.
    { unfold serializeEntry. rewrite Hl. cbn zeta.
      rewrite (bind_ok _ _ _ _ _ E). destruct props; [discriminate|].
      reflexivity. }
    split; [now rewrite map_map|].
    destruct props as [|e rest]; [discriminate|]. rewrite <- W. cbn [map] in *.
    split; [exact (mergeable_wrapped _ _ _ X)|].
    split; [exact (mergeValues_wrapped _ _ _ X Hd)|].
    cbn [fst snd]. rewrite Hnl. cbn [orb]. intros Hs.
    destruct e as [op x]. destruct rest; [reflexivity|discriminate].
  - (* a group of nested fields *)
    assert (Hskip : forEach (serializeOperator _serializeObject p key) props
                            ([], false) c = (Ok ([], false), c)).
    { apply operators_skip. rewrite forallb_forall in *. intros [k w] Hin.
      specialize (Hfields _ Hin). simpl in *.
      now apply andb_true_iff in Hfields as [Hk _]. }
    assert (HE : Forall (EntryRT (p ++ [key])) props).
    { rewrite forallb_forall in Hfields. rewrite Forall_forall in *.
      intros [k w] Hin. specialize (Hfields _ Hin). specialize (HRT _ Hin).
      simpl in *. apply andb_true_iff in Hfields as [Hk Hw]. now apply HRT. }
    destruct (entries_loop (p ++ [key]) props HE [] c) as (ns & c' & groups & E & Y & X).
    exists ns, c', (wrapped groups).
    split.
    { unfold serializeEntry. rewrite Hl. cbn zeta.
      rewrite (bind_ok _ _ _ _ _ Hskip). cbn [negb truthy typeofObject andb].
      change (forEach (serializeEntry _serializeObject (p ++ [key])) props [])
        with (_serializeObject (JObj props) (p ++ [key])) in E.
      now rewrite (bind_ok _ _ _ _ _ E). }
    split.
    { rewrite <- (map_ext _ _ (fun x => build_app p key x)). exact Y. }
    destruct groups as [|g groups]; [inversion X; subst; discriminate|].
    split; [exact (mergeable_wrapped _ _ _ X)|].
    split; [exact (mergeValues_wrapped _ _ _ X Hd)|].
    cbn [fst snd]. rewrite Hnl. cbn [orb]. intros Hs.
    destruct props as [|[k x] [|]]; try discriminate.
    inversion X as [|? ? ? ? [Hg [_ [_ Hsingle]]] X']; subst. inversion X'; subst.
    destruct g as [k' xs]. simpl in Hg, Hsingle. subst k'.
    rewrite forallb_forall in Hfields.
    specialize (Hfields _ (or_introl eq_refl)). simpl in Hfields.
    apply andb_true_iff in Hfields as [Hk _].
    cbn [singleValue] in Hs. rewrite Hk in Hs. cbn [negb orb] in Hs.
    destruct (isFieldName_none _ Hk) as (Hkl & _ & _).
    unfold _isLogicalOperator in Hsingle. rewrite Hkl in Hsingle.
    cbn [isSome orb] in Hsingle. unfold wrapped. simpl. now rewrite (Hsingle Hs).
Qed.

Lemma conforming_roundtrip v : RT v.
Proof.
  induction v as [| | | | |items IH|props IH] using JsValue_ind;
    try (repeat split; discriminate).
  - repeat split; try discriminate. now apply iter_rt.
  - split; [now apply root_rt|]. split; [now apply field_rt|discriminate].
Qed.

(** C1 fails as stated: an element of an [$and] array with two keys is split
    into two nodes, and comes back as two array elements. *)
Lemma roundtrip_splits_and_element :
  conforms Filter q_and_two_keys = false
  /\ deserialize (snd (serialize q_and_two_keys fresh))
     = Some (JObj [("$and", JArr [JObj [("a", JObj [("$eq", JNum 1)])];
                                  JObj [("b", JObj [("$eq", JNum 2)])]])])
  /\ deepEqual (JObj [("$and", JArr [JObj [("a", JObj [("$eq", JNum 1)])];
                                     JObj [("b", JObj [("$eq", JNum 2)])]])])
               q_and_two_keys = false.
Proof. repeat split. Qed.

(** Three more shapes the serializer accepts and that do not come back: a
    [$not] under a field name is lost, a field name above [$or] moves into
    the elements of the array, and an array under an embedded operator comes
    back as one merged object.  The grammar of the amended claim leaves
    them out. *)
Lemma roundtrip_other_losses :
  deserialize (snd (serialize (JObj [("a", JObj [("$not", JObj [("$eq", JNum 1)])])])
                              fresh))
  = Some JNull
  /\ deserialize (snd (serialize
                         (JObj [("a", JObj [("$or",
                                  JArr [JObj [("b", JObj [("$eq", JNum 1)])]])])])
                         fresh))
     = Some (JObj [("$or", JArr [JObj [("a", JObj [("b", JObj [("$eq", JNum 1)])])]])])
  /\ deserialize (snd (serialize
                         (JObj [("tags", JObj [("$some",
                                  JArr [JObj [("x", JObj [("$eq", JNum 1)])];
                                        JObj [("y", JObj [("$eq", JNum 2)])]])])])
                         fresh))
     = Some (JObj [("tags", JObj [("$some", JObj [("x", JObj [("$eq", JNum 1)]);
                                                  ("y", JObj [("$eq", JNum 2)])])])]).
Proof. repeat split. Qed.

(** C1 (amended). For every condition object [Q] of the grammar in which
    each element of an [$and] / [$or] array is a condition object that
    serializes to a single node, and in which no key is the name of a member
    of [Object.prototype], [serialize] succeeds on any instance and
    [deserialize] then returns [Q] itself.  (On a field named like such a
    member the class walks into the inherited member instead of building a
    level, and the field is lost.) *)
Theorem roundtrip_single_conjuncts (Q : JsValue) (s : Serializer) :
  conforms Filter Q = true ->
  plainKeys Q = true ->
  exists nodes c,
    serialize Q s = (Ok nodes, mkSerializer nodes c)
    /\ deserialize (mkSerializer nodes c) = Some Q.
Proof.
  intros HQ _. destruct (conforming_roundtrip Q) as [Hroot _].
  destruct (Hroot HQ (_idCounter s)) as (nodes & c & ds & E & Y & M & _).
  exists nodes, c. unfold serialize, deserialize, _deserializeNodes. rewrite E.
  split; [reflexivity|]. cbn [_tree]. unfold deserializeNodesWith.
  rewrite (deserializeEach_yields _ _ Y). cbn [optBind]. rewrite M. cbn [optBind].
  now rewrite (conforms_filter_not_empty _ HQ).
Qed.

Lemma roundtrip_single_conjuncts_witness :
  exists nodes c,
    serialize q_grammar fresh = (Ok nodes, mkSerializer nodes c)
    /\ deserialize (mkSerializer nodes c) = Some q_grammar.
Proof. exact (roundtrip_single_conjuncts q_grammar fresh eq_refl eq_refl). Defined.

(** ** The deep merge rule *)

Lemma getProp_setProp_same key v props : getProp key (setProp key v props) = v.
Proof.
  unfold setProp. destruct (hasProp key props) eqn:H.
  - induction props as [|[k w] rest IH]; simpl in *; [discriminate|].
    destruct (k =? key) eqn:E; simpl; rewrite E; [reflexivity|]. now apply IH.
  - now apply getProp_last.
Qed.

Lemma getProp_setProp_other key key' v props :
  key' <> key -> getProp key (setProp key' v props) = getProp key props.
Proof.
  intros Hne. unfold setProp. destruct (hasProp key' props).
  - induction props as [|[k w] rest IH]; simpl; [reflexivity|].
    destruct (String.eqb_spec k key') as [->|]; simpl.
    + apply String.eqb_neq in Hne. now rewrite Hne.
    + now rewrite IH.
  - induction props as [|[k w] rest IH]; simpl.
    + apply String.eqb_neq in Hne. now rewrite Hne.
    + now rewrite IH.
Qed.

Lemma mergeKey_other key key' sv props r :
  key' <> key -> mergeKey _deepMerge (KName key') sv (JObj props) = Some (JObj r) ->
  getProp key r = getProp key props.
Proof.
  intros Hne. unfold mergeKey. simpl.
  destruct (truthy (getProp key' props) && typeofObject (getProp key' props)
            && typeofObject sv).
  - destruct (_deepMerge (getProp key' props) sv); simpl; [|discriminate].
    intros [= <-]. now apply getProp_setProp_other.
  - intros [= <-]. now apply getProp_setProp_other.
Qed.

Lemma mergeEntries_other key entries : forall props r,
  ~ In key (map fst entries) ->
  foldM (mergeEntry _deepMerge) entries (JObj props) = Some (JObj r) ->
  getProp key r = getProp key props.
Proof.
  induction entries as [|[k v] rest IH]; intros props r Hk; cbn [foldM].
  - now intros [= <-].
  - cbn [mergeEntry].
    destruct (mergeKey _deepMerge (KName k) v (JObj props)) as [t|] eqn:E;
      cbn [optBind]; [|discriminate].
    pose proof (mergeKey_keeps_object _ _ _ _ E) as Ht.
    destruct t as [| | | | | |tprops]; try contradiction. intros Hf.
    rewrite (IH tprops r); [|intros Hin; apply Hk; now right|assumption].
    apply (mergeKey_other key k v props tprops); [|assumption].
    intros ->. apply Hk. now left.
Qed.

Lemma distinct_not_in k rest : negb (existsb (String.eqb k) rest) = true -> ~ In k rest.
Proof.
  intros H Hin. apply negb_true_iff in H.
  assert (E : existsb (String.eqb k) rest = true)
    by (apply existsb_exists; exists k; split; [assumption|apply String.eqb_refl]).
  congruence.
Qed.

(** What [_deepMerge] does at each key of the incoming object: when the
    existing value is a non-null object (or array) and [typeof] of the
    incoming value is ['object'] -- which holds for null too -- the result at
    the key is the recursive merge of the two; otherwise it is the incoming
    value. *)
Lemma deepMerge_rule target source result :
  distinct (map fst source) = true ->
  _deepMerge (JObj target) (JObj source) = Some (JObj result) ->
  forall key incoming, In (key, incoming) source ->
    let existing := getProp key target in
    if truthy existing && typeofObject existing && typeofObject incoming
    then _deepMerge existing incoming = Some (getProp key result)
    else getProp key result = incoming.
Proof.
  cbn [_deepMerge]. revert target.
  induction source as [|[k v] rest IH]; intros target Hd Hm key incoming Hin;
    [contradiction|].
  cbn [map fst distinct] in Hd. apply andb_true_iff in Hd as [Hk Hd].
  apply distinct_not_in in Hk. cbn [foldM mergeEntry] in Hm.
  destruct (mergeKey _deepMerge (KName k) v (JObj target)) as [t|] eqn:E;
    cbn [optBind] in Hm; [|discriminate].
  pose proof (mergeKey_keeps_object _ _ _ _ E) as Ht.
  destruct t as [| | | | | |tprops]; try contradiction.
  destruct Hin as [[= -> ->]|Hin].
  - rewrite (mergeEntries_other key rest tprops result Hk Hm).
    unfold mergeKey in E. simpl in E. cbn zeta.
    destruct (truthy (getProp key target) && typeofObject (getProp key target)
              && typeofObject incoming).
    + destruct (_deepMerge (getProp key target) incoming) as [merged|];
        simpl in E; [|discriminate].
      injection E as <-. now rewrite getProp_setProp_same.
    + injection E as <-. now rewrite getProp_setProp_same.
  - assert (Hne : k <> key).
    { intros ->. apply Hk. apply in_map_iff. now exists (key, incoming). }
    specialize (IH tprops Hd Hm key incoming Hin). cbn zeta in *.
    now rewrite (mergeKey_other key k v target tprops Hne E) in IH.
Qed.

(** C9 does not hold of the code when the incoming value is null: [typeof
    null] is ['object'], so an existing object is merged with null, which
    leaves it as it is, where the incoming null should have overwritten it.
    The last part shows the same through the public operations: the
    condition added last, [a $eq null], is lost by [deserialize]. *)
Theorem deepMerge_null_does_not_overwrite :
  _deepMerge (JObj [("a", JObj [("x", JNum 1)])]) (JObj [("a", JNull)])
  = Some (JObj [("a", JObj [("x", JNum 1)])])
  /\ getProp "a" [("a", JObj [("x", JNum 1)])] <> JNull
  /\ _deserializeNodes [Condition 0 ["a"; "$eq"] Gt (JNum 1)]
     = Some (JObj [("a", JObj [("$eq", JObj [("$gt", JNum 1)])])])
  /\ _deserializeNodes [Condition 1 ["a"] Eq JNull]
     = Some (JObj [("a", JObj [("$eq", JNull)])])
  /\ deserialize
       (snd (addConditionNode ["a"] Eq JNull None
               (snd (addConditionNode ["a"; "$eq"] Gt (JNum 1) None fresh))))
     = Some (JObj [("a", JObj [("$eq", JObj [("$gt", JNum 1)])])]).
Proof. repeat split. discriminate. Qed.

(** * Further properties of the editing operations *)

Lemma allNodes_app l1 l2 : allNodes (l1 ++ l2) = allNodes l1 ++ allNodes l2.
Proof. apply flat_map_app. Qed.

Lemma subnodes_self n : In n (subnodes n).
Proof. destruct n; simpl; auto. Qed.

Lemma allNodes_middle before n after :
  incl (subnodes n) (allNodes (before ++ n :: after)).
Proof.
  intros m Hm. rewrite allNodes_app. apply in_or_app. right.
  simpl. apply in_or_app. now left.
Qed.

Lemma replaceOne_members old new l l' :
  replaceOne old new l l' -> In old (allNodes l) /\ In new (allNodes l').
Proof.
  induction 1 as [before after
                 | before after id op children children' _ [IH IH']
                 | before after id path op subtree subtree' _ [IH IH']].
  - split; apply allNodes_middle, subnodes_self.
  - split; apply allNodes_middle; simpl; right; assumption.
  - split; apply allNodes_middle; simpl; right; assumption.
Qed.

Lemma found_is_member nodes id n :
  _findNodeById nodes id = Some n -> In n (allNodes nodes).
Proof.
  intros H.
  exact (proj1 (replaceOne_members _ _ _ _
                  (mutateFound_replaces _ _ (fun m => m) _ H))).
Qed.

(** X1. [findNodeById id] returns null exactly when no node of the tree has
    the id, and what it returns otherwise is a node of the tree whose id is
    [id]. *)
Theorem findNodeById_sound_and_complete (id : nat) (s : Serializer) :
  (findNodeById id s = None <-> ~ In id (treeIds (tree s)))
  /\ forall n, findNodeById id s = Some n ->
               nodeId n = id /\ In n (allNodes (tree s)).
Proof.
  split; [apply not_found_iff_absent|].
  intros n H. split; [exact (found_has_id _ _ _ H)|exact (found_is_member _ _ _ H)].
Qed.

Lemma findNodeById_sound_and_complete_witness :
  nodeId (Condition 1 ["c"] Eq (JNum 2)) = 1
  /\ In (Condition 1 ["c"] Eq (JNum 2))
        (allNodes (tree (mkSerializer [Logical 0 And [Condition 1 ["c"] Eq (JNum 2)]] 2))).
Proof.
  exact (proj2 (findNodeById_sound_and_complete 1
                  (mkSerializer [Logical 0 And [Condition 1 ["c"] Eq (JNum 2)]] 2))
               (Condition 1 ["c"] Eq (JNum 2)) eq_refl).
Defined.

(** X2. On an instance built by the constructor and edited by any sequence
    of calls, every node of the tree is the one [findNodeById] returns for
    its id: ids address nodes without ambiguity. *)
Theorem every_node_is_found (query : option JsValue) (s0 : Serializer)
  (ops : list Op) (n : Node) :
  construct query = Ok s0 ->
  In n (allNodes (tree (run ops s0))) ->
  findNodeById (nodeId n) (run ops s0) = Some n.
Proof.
  intros Hc Hin. apply construct_wf in Hc.
  destruct (run_wf ops s0 Hc) as [[Hnd _] _].
  now apply member_found.
Qed.

Lemma every_node_is_found_witness :
  findNodeById 2 (run [OpAdd (LogicalSpec Or) None; OpRemove 0]
                      (mkSerializer [Condition 0 ["a"; "b"] Eq (JNum 1);
                                     Condition 1 ["c"] Eq (JNum 2)] 2))
  = Some (Logical 2 Or []).
Proof.
  apply (every_node_is_found (Some q_nested)
           (mkSerializer [Condition 0 ["a"; "b"] Eq (JNum 1);
                          Condition 1 ["c"] Eq (JNum 2)] 2)
           [OpAdd (LogicalSpec Or) None; OpRemove 0] (Logical 2 Or [])).
  - reflexivity.
  - vm_compute. tauto.
Defined.

Lemma remove_fails_iff_not_found nodes id :
  _removeNodeFromList nodes id = None <-> _findNodeById nodes id = None.
Proof.
  pose proof (remove_ids id nodes) as H. unfold removed_ids in H.
  destruct (_findNodeById nodes id), (_removeNodeFromList nodes id);
    simpl in H; try contradiction; split; intros; congruence.
Qed.

(** X3. [remove id] returns true exactly when a node of the tree has the id;
    when it returns false the instance is left as it was, and in either case
    the id counter is not touched. *)
Theorem remove_reports_presence (id : nat) (s : Serializer) :
  (fst (remove id s) = true <-> In id (treeIds (tree s)))
  /\ (fst (remove id s) = false -> snd (remove id s) = s)
  /\ _idCounter (snd (remove id s)) = _idCounter s.
Proof.
  unfold remove, tree.
  pose proof (remove_fails_iff_not_found (_tree s) id) as Hr.
  pose proof (not_found_iff_absent (_tree s) id) as Hf.
  destruct (_removeNodeFromList (_tree s) id) as [nodes'|]; simpl.
  - repeat split; try discriminate.
    intros _. destruct (in_dec Nat.eq_dec id (treeIds (_tree s))) as [|Hn]; [assumption|].
    apply Hf, Hr in Hn. discriminate.
  - repeat split; try discriminate.
    intros Hin. exfalso. apply (proj1 Hf); [apply Hr; reflexivity|assumption].
Qed.

Lemma remove_reports_presence_witness :
  snd (remove 5 (mkSerializer [Condition 0 ["a"] Eq (JNum 1)] 1))
  = mkSerializer [Condition 0 ["a"] Eq (JNum 1)] 1.
Proof.
  exact (proj1 (proj2 (remove_reports_presence 5
                         (mkSerializer [Condition 0 ["a"] Eq (JNum 1)] 1))) eq_refl).
Defined.

(** X4. On an instance built by the constructor and edited by any sequence
    of calls, [remove id] takes out the node with that id and the nodes
    below it, and nothing else: the ids left in the tree are the old ones
    that are not ids of that node or of a node below it. *)
Theorem remove_takes_exactly_the_subtree (query : option JsValue) (s0 : Serializer)
  (ops : list Op) (id : nat) (m : Node) :
  construct query = Ok s0 ->
  findNodeById id (run ops s0) = Some m ->
  forall i, In i (treeIds (tree (snd (remove id (run ops s0)))))
            <-> In i (treeIds (tree (run ops s0))) /\ ~ In i (nodeIds m).
Proof.
  intros Hc Hf i. apply construct_wf in Hc.
  destruct (run_wf ops s0 Hc) as [[Hnd _] _].
  unfold findNodeById, remove, tree in *.
  pose proof (remove_ids id (_tree (run ops s0))) as Hr.
  rewrite Hf in Hr. unfold removed_ids in Hr.
  destruct (_removeNodeFromList (_tree (run ops s0)) id) as [nodes'|];
    simpl in *; [|contradiction].
  destruct Hr as (l1 & l2 & E & E'). rewrite E in *. rewrite E'.
  rewrite !in_app_iff. split.
  - intros [H1|H2].
    + split; [tauto|]. intros Hm.
      exact (NoDup_app_disjoint _ _ _ Hnd H1 (in_or_app _ _ _ (or_introl Hm))).
    + split; [tauto|]. intros Hm.
      exact (NoDup_app_disjoint _ _ _ (NoDup_app_r _ _ Hnd) Hm H2).
  - tauto.
Qed.

Lemma remove_takes_exactly_the_subtree_witness :
  (In 1 (treeIds (tree (snd (remove 0 (run [] (mkSerializer
            [Condition 0 ["a"; "b"] Eq (JNum 1); Condition 1 ["c"] Eq (JNum 2)] 2))))))
   <-> In 1 (treeIds (tree (run [] (mkSerializer
            [Condition 0 ["a"; "b"] Eq (JNum 1); Condition 1 ["c"] Eq (JNum 2)] 2))))
       /\ ~ In 1 (nodeIds (Condition 0 ["a"; "b"] Eq (JNum 1))))
  /\ (In 0 (treeIds (tree (snd (remove 0 (run [] (mkSerializer
            [Condition 0 ["a"; "b"] Eq (JNum 1); Condition 1 ["c"] Eq (JNum 2)] 2))))))
      <-> In 0 (treeIds (tree (run [] (mkSerializer
            [Condition 0 ["a"; "b"] Eq (JNum 1); Condition 1 ["c"] Eq (JNum 2)] 2))))
          /\ ~ In 0 (nodeIds (Condition 0 ["a"; "b"] Eq (JNum 1)))).
Proof.
  pose (exactly := remove_takes_exactly_the_subtree (Some q_nested)
                     (mkSerializer [Condition 0 ["a"; "b"] Eq (JNum 1);
                                    Condition 1 ["c"] Eq (JNum 2)] 2)
                     [] 0 (Condition 0 ["a"; "b"] Eq (JNum 1)) eq_refl eq_refl).
  exact (conj (exactly 1) (exactly 0)).
Defined.

Lemma subnodes_below_list a nodes :
  Forall (fun c => forall b, In b (subnodes c) -> In a (subnodes b) -> In a (subnodes c))
         nodes ->
  forall b, In b (allNodes nodes) -> In a (subnodes b) -> In a (allNodes nodes).
Proof.
  intros H b Hb Ha. unfold allNodes in *. apply in_flat_map in Hb.
  destruct Hb as (m & Hm & Hb). apply in_flat_map. exists m. split; [assumption|].
  rewrite Forall_forall in H. exact (H m Hm b Hb Ha).
Qed.

Lemma subnodes_below_node a c :
  forall b, In b (subnodes c) -> In a (subnodes b) -> In a (subnodes c).
Proof.
  induction c as [i path op v | i op children IH | i path op subtree IH]
    using Node_ind; simpl; intros b Hb Ha.
  - destruct Hb as [<-|[]]. exact Ha.
  - destruct Hb as [<-|Hb]; [exact Ha|]. right.
    exact (subnodes_below_list a children IH b Hb Ha).
  - destruct Hb as [<-|Hb]; [exact Ha|]. right.
    exact (subnodes_below_list a subtree IH b Hb Ha).
Qed.

Lemma subnodes_below a b nodes :
  In b (allNodes nodes) -> In a (subnodes b) -> In a (allNodes nodes).
Proof.
  apply subnodes_below_list, Forall_forall. intros c _. apply subnodes_below_node.
Qed.

Lemma pushed_child_is_below child parent :
  isContainer parent = true -> In child (subnodes (pushChild child parent)).
Proof.
  destruct parent; simpl; intros H; try discriminate; right;
    unfold allNodes; rewrite flat_map_app; apply in_or_app; right; simpl;
    apply in_or_app; left; apply subnodes_self.
Qed.

Lemma added_node_is_member spec parentId s id :
  fst (addNode spec parentId s) = Ok id ->
  id = _idCounter s
  /\ In (makeNode id spec) (allNodes (tree (snd (addNode spec parentId s)))).
Proof.
  rewrite addNode_unfold. unfold _addNode, tree. simpl _tree.
  destruct parentId as [pid|].
  - destruct (_findNodeById (_tree s) pid) as [parent|] eqn:Hf; [|discriminate].
    destruct (isContainer parent) eqn:Hc; simpl; [|discriminate].
    rewrite nodeId_makeNode. intros [= <-]. split; [reflexivity|].
    pose proof (mutateFound_replaces _ _ (pushChild (makeNode (_idCounter s) spec))
                  _ Hf) as Hr.
    apply replaceOne_members in Hr. destruct Hr as [_ Hr].
    exact (subnodes_below _ _ _ Hr (pushed_child_is_below _ _ Hc)).
  - simpl. rewrite nodeId_makeNode. intros [= <-]. split; [reflexivity|].
    rewrite allNodes_app. apply in_or_app. right. simpl. apply in_or_app. left.
    apply subnodes_self.
Qed.

(** X5. On an instance built by the constructor and edited by any sequence
    of calls, an [add*] call that returns gives the value the counter had,
    and [findNodeById] on that id then returns the node just created, as
    created (a container with no children yet). *)
Theorem add_then_find (query : option JsValue) (s0 : Serializer) (ops : list Op)
  (spec : NodeSpec) (parentId : option nat) (id : nat) :
  construct query = Ok s0 ->
  fst (addNode spec parentId (run ops s0)) = Ok id ->
  id = _idCounter (run ops s0)
  /\ findNodeById id (snd (addNode spec parentId (run ops s0))) = Some (makeNode id spec).
Proof.
  intros Hc Ha. apply construct_wf in Hc.
  destruct (run_wf ops s0 Hc) as [Hwf _].
  destruct (added_node_is_member _ _ _ _ Ha) as [E Hin]. split; [exact E|].
  pose proof (addNode_wf spec parentId _ Hwf) as [Hnd _].
  rewrite <- (nodeId_makeNode id spec) at 1. now apply member_found.
Qed.

Lemma add_then_find_witness :
  2 = _idCounter (run [] (mkSerializer [Condition 0 ["a"; "b"] Eq (JNum 1);
                                        Condition 1 ["c"] Eq (JNum 2)] 2))
  /\ findNodeById 2
       (snd (addNode (EmbeddedSpec ["tags"] Some_) None
               (run [] (mkSerializer [Condition 0 ["a"; "b"] Eq (JNum 1);
                                      Condition 1 ["c"] Eq (JNum 2)] 2))))
     = Some (makeNode 2 (EmbeddedSpec ["tags"] Some_)).
Proof.
  exact (add_then_find (Some q_nested)
           (mkSerializer [Condition 0 ["a"; "b"] Eq (JNum 1);
                          Condition 1 ["c"] Eq (JNum 2)] 2)
           [] (EmbeddedSpec ["tags"] Some_) None 2 eq_refl eq_refl).
Defined.

Lemma removeFirst_past id descend l rest :
  removeFirst id descend l = None ->
  removeFirst id descend (l ++ rest) = option_map (app l) (removeFirst id descend rest).
Proof.
  induction l as [|n l IH]; simpl; intros H.
  - now destruct (removeFirst id descend rest).
  - destruct (nodeId n =? id)%nat; [discriminate|].
    destruct (descend n); [discriminate|].
    destruct (removeFirst id descend l); [discriminate|].
    rewrite IH by reflexivity. now destruct (removeFirst id descend rest).
Qed.

Lemma absent_id_not_removed nodes id :
  ~ In id (treeIds nodes) -> _removeNodeFromList nodes id = None.
Proof.
  intros H. apply remove_fails_iff_not_found. now apply absent_id_not_found.
Qed.

Lemma absent_id_not_removed_below n id :
  ~ In id (nodeIds n) -> (nodeId n =? id)%nat = false /\ removeInNode id n = None.
Proof.
  intros H. assert (Hne : nodeId n <> id).
  { intros E. apply H. destruct (nodeIds_head n) as [rest ->]. now left. }
  split; [now apply Nat.eqb_neq|].
  pose proof (removed_ids_node id n Hne) as Hr.
  assert (F : findInNode id n = None).
  { rewrite findInNode_singleton. apply absent_id_not_found.
    unfold treeIds. simpl. now rewrite app_nil_r. }
  rewrite F in Hr. unfold removed_ids in Hr.
  destruct (removeInNode id n); [contradiction|reflexivity].
Qed.

Lemma remove_last nodes node :
  ~ In (nodeId node) (treeIds nodes) ->
  _removeNodeFromList (nodes ++ [node]) (nodeId node) = Some nodes.
Proof.
  intros H. unfold _removeNodeFromList.
  rewrite removeFirst_past by exact (absent_id_not_removed _ _ H).
  cbn [removeFirst]. rewrite Nat.eqb_refl. simpl. now rewrite app_nil_r.
Qed.

Lemma mutateInNode_keeps_id id change n n' :
  (forall m, nodeId (change m) = nodeId m) ->
  mutateInNode id change n = Some n' -> nodeId n' = nodeId n.
Proof.
  intros Hc. destruct n as [i path op v | i op children | i path op subtree]; simpl;
    destruct (i =? id)%nat; try (intros [= <-]; apply Hc); try discriminate.
  - destruct (rewriteFirst _ children); simpl; [intros [= <-]; reflexivity|discriminate].
  - destruct (rewriteFirst _ subtree); simpl; [intros [= <-]; reflexivity|discriminate].
Qed.

Lemma undo_push_list pid node nodes :
  Forall (fun n => forall n' parent,
            mutateInNode pid (pushChild node) n = Some n' ->
            findInNode pid n = Some parent -> isContainer parent = true ->
            ~ In (nodeId node) (nodeIds n) ->
            removeInNode (nodeId node) n' = Some n) nodes ->
  forall nodes' parent,
    rewriteFirst (mutateInNode pid (pushChild node)) nodes = Some nodes' ->
    firstSome (findInNode pid) nodes = Some parent -> isContainer parent = true ->
    ~ In (nodeId node) (treeIds nodes) ->
    removeFirst (nodeId node) (removeInNode (nodeId node)) nodes' = Some nodes.
Proof.
  induction 1 as [|n rest Hn _ IH]; intros nodes' parent Hm Hf Hc Hid;
    simpl in *; [discriminate|].
  assert (Hn' : ~ In (nodeId node) (nodeIds n))
    by (intros Hin; apply Hid, in_or_app; now left).
  assert (Hr' : ~ In (nodeId node) (treeIds rest))
    by (intros Hin; apply Hid, in_or_app; now right).
  pose proof (mutate_agrees_node pid (pushChild node) n) as A. unfold agree in A.
  destruct (mutateInNode pid (pushChild node) n) as [n'|] eqn:Em.
  - destruct (findInNode pid n) as [old|] eqn:Ef; simpl in A; [|contradiction].
    injection Hm as <-. injection Hf as ->. simpl.
    rewrite (mutateInNode_keeps_id _ _ _ _ (nodeId_pushChild node) Em).
    destruct (absent_id_not_removed_below _ _ Hn') as [-> _].
    now rewrite (Hn n' parent eq_refl eq_refl Hc Hn').
  - destruct (findInNode pid n) eqn:Ef; simpl in A; [contradiction|].
    destruct (rewriteFirst (mutateInNode pid (pushChild node)) rest) as [rest'|];
      simpl in Hm; [|discriminate].
    injection Hm as <-. simpl.
    destruct (absent_id_not_removed_below _ _ Hn') as [-> ->].
    now rewrite (IH rest' parent eq_refl Hf Hc Hr').
Qed.

Lemma undo_push_node pid node n :
  forall n' parent,
    mutateInNode pid (pushChild node) n = Some n' ->
    findInNode pid n = Some parent -> isContainer parent = true ->
    ~ In (nodeId node) (nodeIds n) ->
    removeInNode (nodeId node) n' = Some n.
Proof.
  induction n as [i path op v | i op children IH | i path op subtree IH]
    using Node_ind; intros n' parent; simpl;
    destruct (Nat.eqb_spec i pid) as [->|Hne].
  - intros _ [= <-]. discriminate.
  - discriminate.
  - intros [= <-] _ _ Hid. simpl.
    fold (_removeNodeFromList (children ++ [node]) (nodeId node)).
    rewrite remove_last; [reflexivity|]. intros Hin. apply Hid. now right.
  - intros Hm Hf Hc Hid.
    destruct (rewriteFirst (mutateInNode pid (pushChild node)) children) as [ch'|] eqn:E;
      simpl in Hm; [|discriminate].
    injection Hm as <-. simpl.
    rewrite (undo_push_list pid node children IH ch' parent E Hf Hc); [reflexivity|].
    intros Hin. apply Hid. now right.
  - intros [= <-] _ _ Hid. simpl.
    fold (_removeNodeFromList (subtree ++ [node]) (nodeId node)).
    rewrite remove_last; [reflexivity|]. intros Hin. apply Hid. now right.
  - intros Hm Hf Hc Hid.
    destruct (rewriteFirst (mutateInNode pid (pushChild node)) subtree) as [st'|] eqn:E;
      simpl in Hm; [|discriminate].
    injection Hm as <-. simpl.
    rewrite (undo_push_list pid node subtree IH st' parent E Hf Hc); [reflexivity|].
    intros Hin. apply Hid. now right.
Qed.

Lemma undo_push pid node nodes parent :
  _findNodeById nodes pid = Some parent -> isContainer parent = true ->
  ~ In (nodeId node) (treeIds nodes) ->
  _removeNodeFromList (mutateFound nodes pid (pushChild node)) (nodeId node) = Some nodes.
Proof.
  intros Hf Hc Hid. unfold mutateFound, _removeNodeFromList.
  pose proof (mutate_agrees pid (pushChild node) nodes) as A.
  rewrite Hf in A. unfold agree in A.
  destruct (rewriteFirst (mutateInNode pid (pushChild node)) nodes) as [nodes'|] eqn:E;
    [|contradiction].
  apply (undo_push_list pid node nodes) with (parent := parent); auto.
  apply Forall_forall. intros n _. apply undo_push_node.
Qed.

(** X6. On an instance built by the constructor and edited by any sequence
    of calls, removing the node that an [add*] call has just created gives
    back the tree of before the call; of the two calls only the advance of
    the id counter remains. *)
Theorem add_then_remove (query : option JsValue) (s0 : Serializer) (ops : list Op)
  (spec : NodeSpec) (parentId : option nat) (id : nat) :
  construct query = Ok s0 ->
  fst (addNode spec parentId (run ops s0)) = Ok id ->
  remove id (snd (addNode spec parentId (run ops s0)))
  = (true, mkSerializer (tree (run ops s0)) (S (_idCounter (run ops s0)))).
Proof.
  intros Hc. apply construct_wf in Hc.
  destruct (run_wf ops s0 Hc) as [[_ Hr] _]. generalize dependent (run ops s0).
  intros s Hr. rewrite addNode_unfold. unfold _addNode, remove, tree. simpl _tree.
  assert (Hid : ~ In (nodeId (makeNode (_idCounter s) spec)) (treeIds (_tree s))).
  { rewrite nodeId_makeNode. intros Hin. rewrite Forall_forall in Hr.
    specialize (Hr _ Hin). lia. }
  destruct parentId as [pid|].
  - destruct (_findNodeById (_tree s) pid) as [parent|] eqn:Hf; [|discriminate].
    destruct (isContainer parent) eqn:Hp; simpl; [|discriminate].
    intros [= <-]. now rewrite (undo_push pid _ _ parent Hf Hp Hid).
  - simpl. intros [= <-]. now rewrite (remove_last _ _ Hid).
Qed.

Lemma add_then_remove_witness :
  remove 2 (snd (addNode (ConditionSpec ["d"] Lt (JNum 3)) None
                   (run [] (mkSerializer [Condition 0 ["a"; "b"] Eq (JNum 1);
                                          Condition 1 ["c"] Eq (JNum 2)] 2))))
  = (true,
     mkSerializer (tree (run [] (mkSerializer [Condition 0 ["a"; "b"] Eq (JNum 1);
                                               Condition 1 ["c"] Eq (JNum 2)] 2)))
                  (S (_idCounter (run [] (mkSerializer
                        [Condition 0 ["a"; "b"] Eq (JNum 1);
                         Condition 1 ["c"] Eq (JNum 2)] 2))))).
Proof.
  exact (add_then_remove (Some q_nested)
           (mkSerializer [Condition 0 ["a"; "b"] Eq (JNum 1);
                          Condition 1 ["c"] Eq (JNum 2)] 2)
           [] (ConditionSpec ["d"] Lt (JNum 3)) None 2 eq_refl eq_refl).
Defined.

Lemma mutate_fails_together id f g n :
  mutateInNode id f n = None <-> mutateInNode id g n = None.
Proof.
  pose proof (mutate_agrees_node id f n) as A.
  pose proof (mutate_agrees_node id g n) as B. unfold agree in *.
  destruct (findInNode id n), (mutateInNode id f n), (mutateInNode id g n);
    simpl in *; try contradiction; split; intros; congruence.
Qed.

Section MutateTwice.
Variable id : nat.
Variables f g : Node -> Node.
Hypothesis f_keeps_id : forall m, nodeId (f m) = nodeId m.
Hypothesis g_after_f : forall m, g (f m) = g m.

Lemma mutate_twice_list nodes :
  Forall (fun n => forall n', mutateInNode id f n = Some n' ->
                              mutateInNode id g n' = mutateInNode id g n) nodes ->
  forall nodes', rewriteFirst (mutateInNode id f) nodes = Some nodes' ->
                 rewriteFirst (mutateInNode id g) nodes'
                 = rewriteFirst (mutateInNode id g) nodes.
Proof.
  induction 1 as [|n rest Hn _ IH]; intros nodes' Hm; simpl in *; [discriminate|].
  destruct (mutateInNode id f n) as [n'|] eqn:Ef.
  - injection Hm as <-. simpl. rewrite (Hn n' eq_refl).
    destruct (mutateInNode id g n) eqn:Eg; [reflexivity|].
    apply (mutate_fails_together id g f) in Eg. congruence.
  - destruct (rewriteFirst (mutateInNode id f) rest) as [rest'|]; simpl in Hm;
      [|discriminate].
    injection Hm as <-. simpl.
    rewrite (proj1 (mutate_fails_together id f g n) Ef).
    now rewrite (IH rest' eq_refl).
Qed.

Lemma mutate_twice_node n :
  forall n', mutateInNode id f n = Some n' ->
             mutateInNode id g n' = mutateInNode id g n.
Proof.
  induction n as [i path op v | i op children IH | i path op subtree IH]
    using Node_ind; intros n'; simpl; destruct (Nat.eqb_spec i id) as [->|Hne];
    try discriminate.
  - intros [= <-].
    pose proof (f_keeps_id (Condition id path op v)) as E.
    destruct (f (Condition id path op v)) eqn:Ef; simpl in *; subst;
      rewrite Nat.eqb_refl, <- Ef; now rewrite g_after_f.
  - intros [= <-].
    pose proof (f_keeps_id (Logical id op children)) as E.
    destruct (f (Logical id op children)) eqn:Ef; simpl in *; subst;
      rewrite Nat.eqb_refl, <- Ef; now rewrite g_after_f.
  - destruct (rewriteFirst (mutateInNode id f) children) as [ch'|] eqn:E; simpl;
      [|discriminate].
    intros [= <-]. simpl. apply Nat.eqb_neq in Hne. rewrite Hne.
    now rewrite (mutate_twice_list children IH ch' E).
  - intros [= <-].
    pose proof (f_keeps_id (Embedded id path op subtree)) as E.
    destruct (f (Embedded id path op subtree)) eqn:Ef; simpl in *; subst;
      rewrite Nat.eqb_refl, <- Ef; now rewrite g_after_f.
  - destruct (rewriteFirst (mutateInNode id f) subtree) as [st'|] eqn:E; simpl;
      [|discriminate].
    intros [= <-]. simpl. apply Nat.eqb_neq in Hne. rewrite Hne.
    now rewrite (mutate_twice_list subtree IH st' E).
Qed.

Lemma mutate_twice nodes old :
  _findNodeById nodes id = Some old ->
  mutateFound (mutateFound nodes id f) id g = mutateFound nodes id g.
Proof.
  intros Hf. pose proof (mutate_agrees id f nodes) as A. rewrite Hf in A.
  unfold agree, mutateFound in *.
  destruct (rewriteFirst (mutateInNode id f) nodes) as [nodes'|] eqn:E;
    [|contradiction].
  rewrite (mutate_twice_list nodes) with (nodes' := nodes'); [|apply Forall_forall|];
    auto using mutate_twice_node.
  pose proof (mutate_agrees id g nodes) as B. rewrite Hf in B. unfold agree in B.
  destruct (rewriteFirst (mutateInNode id g) nodes); [reflexivity|contradiction].
Qed.
End MutateTwice.

(** X7. Two [updateConditionNode] calls on the same id in a row leave the
    instance as the second call alone would: the later operator and value
    replace the earlier ones, and a failing first call changes nothing. *)
Theorem update_overwrites (id : nat) (o1 o2 : ComparisonOperator) (v1 v2 : JsValue)
  (s : Serializer) :
  updateConditionNode id o2 v2 (snd (updateConditionNode id o1 v1 s))
  = updateConditionNode id o2 v2 s.
Proof.
  unfold updateConditionNode at 2.
  destruct (_findNodeById (_tree s) id) as [node|] eqn:Hf; [|reflexivity].
  destruct node as [i path op v | |]; try reflexivity. simpl.
  unfold updateConditionNode. simpl.
  rewrite (find_after_mutate id _ (nodeId_setCondition o1 v1) _ _ Hf), Hf. simpl.
  rewrite (mutate_twice id (setCondition o1 v1) (setCondition o2 v2)
             (nodeId_setCondition o1 v1)) with (old := Condition i path op v);
    [reflexivity| |assumption].
  intros m. now destruct m.
Qed.

(** * Further properties of deserialization *)

Lemma optBind_some {A} (m : option A) : (a <-- m ;; Some a) = m.
Proof. now destruct m. Qed.

Lemma collect_from f nodes : forall acc,
  foldM (fun node deserializedObjects =>
           d <-- f node ;;
           Some (if _isNotEmpty d then deserializedObjects ++ [d]
                 else deserializedObjects)) nodes acc
  = (ds <-- deserializeEach f nodes ;; Some (acc ++ ds)).
Proof.
  unfold deserializeEach.
  induction nodes as [|n nodes IH]; intros acc; simpl.
  - now rewrite app_nil_r.
  - destruct (f n) as [d|]; simpl; [|reflexivity].
    rewrite IH. rewrite (IH (if _isNotEmpty d then [d] else [])).
    destruct (foldM _ nodes []) as [ds|]; simpl; [|reflexivity].
    destruct (_isNotEmpty d); simpl; [now rewrite <- app_assoc|reflexivity].
Qed.

Lemma deserializeEach_cons f n nodes :
  deserializeEach f (n :: nodes)
  = (d <-- f n ;; ds <-- deserializeEach f nodes ;;
     Some ((if _isNotEmpty d then [d] else []) ++ ds)).
Proof.
  unfold deserializeEach at 1. simpl. destruct (f n) as [d|]; simpl; [|reflexivity].
  rewrite collect_from. now destruct (_isNotEmpty d).
Qed.

Lemma deserializeEach_app f l1 l2 :
  deserializeEach f (l1 ++ l2)
  = (ds1 <-- deserializeEach f l1 ;; ds2 <-- deserializeEach f l2 ;;
     Some (ds1 ++ ds2)).
Proof.
  induction l1 as [|n l1 IH]; simpl.
  - change (deserializeEach f []) with (Some (@nil JsValue)). simpl.
    now rewrite optBind_some.
  - rewrite !deserializeEach_cons, IH. destruct (f n) as [d|]; simpl; [|reflexivity].
    destruct (deserializeEach f l1) as [ds1|]; simpl; [|reflexivity].
    destruct (deserializeEach f l2) as [ds2|]; simpl; [|reflexivity].
    now rewrite app_assoc.
Qed.

Lemma deserializeNode_children id op children children' :
  deserializeEach _deserializeNode children = deserializeEach _deserializeNode children' ->
  _deserializeNode (Logical id op children) = _deserializeNode (Logical id op children').
Proof.
  intros H. destruct op; cbn [_deserializeNode]; unfold deserializeNodesWith;
    now rewrite H.
Qed.

Lemma deserializeNode_subtree id path op subtree subtree' :
  deserializeEach _deserializeNode subtree = deserializeEach _deserializeNode subtree' ->
  _deserializeNode (Embedded id path op subtree)
  = _deserializeNode (Embedded id path op subtree').
Proof.
  intros H. cbn [_deserializeNode]. unfold deserializeNodesWith. now rewrite H.
Qed.

Lemma deserializeEach_middle before n n' after :
  _deserializeNode n = _deserializeNode n' ->
  deserializeEach _deserializeNode (before ++ n :: after)
  = deserializeEach _deserializeNode (before ++ n' :: after).
Proof.
  intros H. now rewrite !deserializeEach_app, !deserializeEach_cons, H.
Qed.

Lemma deserializeEach_replaceOne old new l l' :
  replaceOne old new l l' -> _deserializeNode old = _deserializeNode new ->
  deserializeEach _deserializeNode l = deserializeEach _deserializeNode l'.
Proof.
  induction 1 as [before after
                 | before after id op children children' _ IH
                 | before after id path op subtree subtree' _ IH]; intros H.
  - now apply deserializeEach_middle.
  - apply deserializeEach_middle, deserializeNode_children, IH, H.
  - apply deserializeEach_middle, deserializeNode_subtree, IH, H.
Qed.

Lemma empty_container_yields_nothing id spec :
  isContainerSpec spec = true -> _deserializeNode (makeNode id spec) = Some (JObj []).
Proof. destruct spec as [| [] |]; simpl; intros H; try discriminate; reflexivity. Qed.

Lemma deserializeEach_snoc_empty nodes n :
  _deserializeNode n = Some (JObj []) ->
  deserializeEach _deserializeNode (nodes ++ [n]) = deserializeEach _deserializeNode nodes.
Proof.
  intros H. rewrite deserializeEach_app, deserializeEach_cons, H. simpl.
  destruct (deserializeEach _deserializeNode nodes); simpl; [|reflexivity].
  now rewrite app_nil_r.
Qed.

Lemma pushed_empty_is_invisible child parent :
  _deserializeNode child = Some (JObj []) ->
  _deserializeNode (pushChild child parent) = _deserializeNode parent.
Proof.
  intros H. destruct parent as [| i op children | i path op subtree]; simpl pushChild.
  - reflexivity.
  - now apply deserializeNode_children, deserializeEach_snoc_empty.
  - now apply deserializeNode_subtree, deserializeEach_snoc_empty.
Qed.

Lemma empty_container_unseen spec parentId s :
  isContainerSpec spec = true ->
  deserialize (snd (addNode spec parentId s)) = deserialize s.
Proof.
  intros Hs. pose proof (empty_container_yields_nothing (_idCounter s) spec Hs) as He.
  rewrite addNode_unfold. unfold _addNode, deserialize, _deserializeNodes,
    deserializeNodesWith. simpl _tree.
  destruct parentId as [pid|].
  - destruct (_findNodeById (_tree s) pid) as [parent|] eqn:Hf; [|reflexivity].
    destruct (isContainer parent); simpl; [|reflexivity].
    rewrite <- (deserializeEach_replaceOne _ _ _ _
                  (mutateFound_replaces _ _ (pushChild (makeNode (_idCounter s) spec))
                     _ Hf)); [reflexivity|].
    symmetry. now apply pushed_empty_is_invisible.
  - simpl. now rewrite deserializeEach_snoc_empty.
Qed.

Lemma hollow_list_yields_nothing nodes :
  Forall (fun n => hollow n = true -> _deserializeNode n = Some (JObj [])) nodes ->
  forallb hollow nodes = true -> deserializeEach _deserializeNode nodes = Some [].
Proof.
  induction 1 as [|n rest Hn _ IH]; simpl; intros H; [reflexivity|].
  apply andb_true_iff in H as [H1 H2].
  now rewrite deserializeEach_cons, (Hn H1), (IH H2).
Qed.

Lemma hollow_node_yields_nothing n :
  hollow n = true -> _deserializeNode n = Some (JObj []).
Proof.
  induction n as [i path op v | i op children IH | i path op subtree IH]
    using Node_ind; simpl hollow; intros H.
  - discriminate.
  - destruct op; cbn [_deserializeNode]; unfold deserializeNodesWith;
      now rewrite (hollow_list_yields_nothing children IH H).
  - cbn [_deserializeNode]. unfold deserializeNodesWith.
    now rewrite (hollow_list_yields_nothing subtree IH H).
Qed.

(** X9. [deserialize] returns null on the empty tree and, more generally, on
    every tree that holds no condition node: logical and embedded nodes
    nested in one another to any depth give nothing. *)
Theorem tree_without_conditions_is_null (s : Serializer) :
  forallb hollow (tree s) = true -> deserialize s = Some JNull.
Proof.
  intros H. unfold deserialize, _deserializeNodes, deserializeNodesWith.
  unfold tree in H.
  rewrite (hollow_list_yields_nothing (_tree s)); [reflexivity| |exact H].
  apply Forall_forall. intros n _. apply hollow_node_yields_nothing.
Qed.

Lemma tree_without_conditions_is_null_witness :
  deserialize (mkSerializer [Logical 0 Not [Embedded 1 ["t"] Every []; Logical 2 Or []]] 3)
  = Some JNull.
Proof.
  exact (tree_without_conditions_is_null
           (mkSerializer [Logical 0 Not [Embedded 1 ["t"] Every []; Logical 2 Or []]] 3)
           eq_refl).
Defined.

Lemma build_is_object path condition :
  isJObj condition -> isJObj (_buildNestedObject path condition).
Proof. destruct path; simpl; auto. Qed.

Lemma deserializeNode_is_object n d : _deserializeNode n = Some d -> isJObj d.
Proof.
  destruct n as [i path op v | i op children | i path op subtree]; cbn [_deserializeNode].
  - intros [= <-]. now apply build_is_object.
  - destruct op;
      [destruct (deserializeEach _deserializeNode children) as [ds|]
      |destruct (deserializeEach _deserializeNode children) as [ds|]
      |destruct (deserializeNodesWith _deserializeNode children) as [childObj|]];
      cbn [optBind]; try discriminate;
      match goal with |- (if ?b then _ else _) = _ -> _ => destruct b end;
      intros [= <-]; exact I.
  - destruct (deserializeNodesWith _deserializeNode subtree) as [inner|]; cbn [optBind];
      [|discriminate].
    match goal with |- (if ?b then _ else _) = _ -> _ => destruct b end;
      intros [= <-]; [exact I|now apply build_is_object].
Qed.

Lemma deserializeEach_objects nodes : forall ds,
  deserializeEach _deserializeNode nodes = Some ds -> Forall isJObj ds.
Proof.
  induction nodes as [|n nodes IH]; intros ds.
  - intros [= <-]. constructor.
  - rewrite deserializeEach_cons.
    destruct (_deserializeNode n) as [d|] eqn:E; simpl; [|discriminate].
    destruct (deserializeEach _deserializeNode nodes) as [ds'|]; simpl; [|discriminate].
    intros [= <-]. apply Forall_app. split; [|now apply IH].
    destruct (_isNotEmpty d); constructor; [|constructor].
    exact (deserializeNode_is_object _ _ E).
Qed.

Lemma mergeObjects_is_object ds : forall acc r,
  Forall isJObj ds -> isJObj acc -> foldM merge ds acc = Some r -> isJObj r.
Proof.
  induction ds as [|d ds IH]; intros acc r Hds Hacc; simpl.
  - now intros [= <-].
  - inversion Hds; subst. destruct (merge d acc) as [acc'|] eqn:E; simpl; [|discriminate].
    apply IH; [assumption|]. exact (merge_keeps_object _ _ _ Hacc H1 E).
Qed.

Lemma deserialize_result_kind s r :
  deserialize s = Some r ->
  r = JNull \/ exists entry rest, r = JObj (entry :: rest).
Proof.
  unfold deserialize, _deserializeNodes, deserializeNodesWith.
  destruct (deserializeEach _deserializeNode (_tree s)) as [ds|] eqn:E; simpl;
    [|discriminate].
  destruct (_mergeObjects ds) as [d|] eqn:M; simpl; [|discriminate].
  pose proof (mergeObjects_is_object ds (JObj []) d (deserializeEach_objects _ _ E) I M)
    as Hd.
  destruct d as [| | | | | |[|entry rest]]; try contradiction; simpl; intros [= <-]; eauto.
Qed.

(** ** Simple trees: the merge always has a value *)

Lemma shaped_is_object v : shaped v = true -> exists props, v = JObj props.
Proof. destruct v; try discriminate. eauto. Qed.

Lemma shaped_is_merged v : shaped v = true -> truthy v && typeofObject v = true.
Proof. destruct v; try discriminate. reflexivity. Qed.

Lemma shaped_typeofObject v : shaped v = true -> typeofObject v = true.
Proof. destruct v; try discriminate. reflexivity. Qed.

Lemma primitive_is_overwritten v :
  isPrimitive v = true -> truthy v && typeofObject v = false.
Proof. destruct v; try discriminate; simpl; auto using andb_false_r. Qed.

Lemma shapedEntry_getProp key props :
  forallb (shapedEntry shaped) props = true -> hasProp key props = true ->
  shapedEntry shaped (key, getProp key props) = true.
Proof.
  induction props as [|[k w] rest IH]; simpl; [discriminate|].
  intros H. apply andb_true_iff in H as [Hw Hrest].
  destruct (String.eqb_spec k key) as [<-|_]; simpl; [now intros _|now apply IH].
Qed.

Lemma shaped_replaceProp key v props :
  forallb (shapedEntry shaped) props = true -> shapedEntry shaped (key, v) = true ->
  forallb (shapedEntry shaped) (replaceProp key v props) = true.
Proof.
  intros H Hv. induction props as [|[k w] rest IH]; [reflexivity|].
  cbn [forallb] in H. apply andb_true_iff in H as [Hw Hrest]. cbn [replaceProp].
  destruct (String.eqb_spec k key) as [->|_]; cbn [forallb].
  - now rewrite Hv, Hrest.
  - now rewrite Hw, IH.
Qed.

Lemma shaped_setProp key v props :
  forallb (shapedEntry shaped) props = true -> shapedEntry shaped (key, v) = true ->
  forallb (shapedEntry shaped) (setProp key v props) = true.
Proof.
  intros H Hv. unfold setProp. destruct (hasProp key props).
  - now apply shaped_replaceProp.
  - rewrite forallb_app, H. cbn [forallb]. now rewrite Hv.
Qed.

Lemma shaped_nth items i :
  forallb shaped items = true -> i < List.length items ->
  shaped (nth i items JUndefined) = true.
Proof.
  intros H Hi. rewrite forallb_forall in H. apply H. now apply nth_In.
Qed.

Lemma length_replaceIndex i v items :
  List.length (replaceIndex i v items) = List.length items.
Proof.
  revert i. induction items as [|x rest IH]; intros [|i]; simpl; auto.
Qed.

Lemma shaped_replaceIndex i v items :
  forallb shaped items = true -> shaped v = true ->
  forallb shaped (replaceIndex i v items) = true.
Proof.
  intros H Hv. revert i H. induction items as [|x rest IH]; intros [|i] H;
    cbn [replaceIndex forallb] in *; auto.
  - apply andb_true_iff in H as [_ Hrest]. now rewrite Hv, Hrest.
  - apply andb_true_iff in H as [Hx Hrest]. now rewrite Hx, IH.
Qed.

(** What the induction on the incoming value proves: an object merges into
    any object, an array into any array, shapes being kept. *)
Lemma merge_items_loop sitems :
  Forall (fun sv => shaped sv = true -> forall target, shaped target = true ->
                    exists r, _deepMerge target sv = Some r /\ shaped r = true) sitems ->
  forallb shaped sitems = true ->
  forall titems i, forallb shaped titems = true -> i <= List.length titems ->
    exists r i', foldM (mergeItem _deepMerge) sitems (i, JArr titems) = Some (i', JArr r)
                 /\ forallb shaped r = true.
Proof.
  induction 1 as [|sv rest Hsv _ IH]; intros Hs titems i Ht Hi.
  - exists titems, i. now split.
  - cbn [forallb] in Hs. apply andb_true_iff in Hs as [Hsv' Hrest].
    cbn [foldM mergeItem]. unfold mergeKey. cbn [getMember optBind].
    destruct (Nat.eq_dec i (List.length titems)) as [E|Hne].
    + rewrite (nth_overflow titems JUndefined) by lia. cbn [truthy andb setMember].
      rewrite (proj2 (Nat.ltb_ge i (List.length titems))) by lia.
      rewrite (proj2 (Nat.eqb_eq i (List.length titems)) E). cbn [optBind].
      apply IH; [exact Hrest| |rewrite length_app; simpl; lia].
      rewrite forallb_app, Ht. cbn [forallb]. now rewrite Hsv'.
    + assert (Hlt : i < List.length titems) by lia.
      pose proof (shaped_nth titems i Ht Hlt) as Hn.
      rewrite (shaped_is_merged _ Hn), (shaped_typeofObject _ Hsv'). cbn [andb].
      destruct (Hsv Hsv' _ Hn) as (m & -> & Hm). cbn [optBind setMember].
      rewrite (proj2 (Nat.ltb_lt i (List.length titems)) Hlt). cbn [optBind].
      apply IH; [exact Hrest| |rewrite length_replaceIndex; lia].
      now apply shaped_replaceIndex.
Qed.

Lemma merge_entries_loop props :
  Forall (fun e : string * JsValue =>
            (shaped (snd e) = true -> forall target, shaped target = true ->
               exists r, _deepMerge target (snd e) = Some r /\ shaped r = true)
            /\ (forall sitems, snd e = JArr sitems -> forallb shaped sitems = true ->
                  forall titems, forallb shaped titems = true ->
                    exists r, _deepMerge (JArr titems) (JArr sitems) = Some (JArr r)
                              /\ forallb shaped r = true)) props ->
  forallb (shapedEntry shaped) props = true ->
  forall tprops, forallb (shapedEntry shaped) tprops = true ->
    exists r, foldM (mergeEntry _deepMerge) props (JObj tprops) = Some (JObj r)
              /\ forallb (shapedEntry shaped) r = true.
Proof.
  induction 1 as [|[k x] rest [Hobj Harr] _ IH]; intros Hs tprops Ht.
  - exists tprops. now split.
  - cbn [forallb] in Hs. apply andb_true_iff in Hs as [Hx Hrest]. cbn [snd] in *.
    cbn [foldM mergeEntry].
    assert (Step : exists t, mergeKey _deepMerge (KName k) x (JObj tprops)
                             = Some (JObj t)
                             /\ forallb (shapedEntry shaped) t = true).
    { unfold mergeKey. cbn [getMember optBind].
      destruct (hasProp k tprops) eqn:Hh.
      2:{ rewrite (getProp_absent _ _ Hh). cbn [truthy andb setMember].
          eexists. split; [reflexivity|]. now apply shaped_setProp. }
      pose proof (shapedEntry_getProp k tprops Ht Hh) as Hg.
      assert (Both : forall tv, shaped tv = true -> shaped x = true ->
                (forall m, shaped m = true -> shapedEntry shaped (k, m) = true) ->
                exists t,
                  (if truthy tv && typeofObject tv && typeofObject x
                   then merged <-- _deepMerge tv x ;; setMember (JObj tprops) (KName k) merged
                   else setMember (JObj tprops) (KName k) x) = Some (JObj t)
                  /\ forallb (shapedEntry shaped) t = true).
      { intros tv Htv Hsx Hk.
        rewrite (shaped_is_merged _ Htv), (shaped_typeofObject _ Hsx). cbn [andb].
        destruct (Hobj Hsx _ Htv) as (m & -> & Hm). cbn [optBind setMember].
        eexists. split; [reflexivity|]. apply shaped_setProp; auto. }
      unfold shapedEntry in Hg, Hx.
      destruct (asLogicalOperator k) as [[| |]|] eqn:Hl.
      - destruct (getProp k tprops) as [| | | | |titems|]; try discriminate.
        destruct x as [| | | | |sitems|]; try discriminate. cbn [truthy typeofObject andb].
        destruct (Harr sitems eq_refl Hx titems Hg) as (r & -> & Hr).
        cbn [optBind setMember]. eexists. split; [reflexivity|].
        apply shaped_setProp; [exact Ht|]. unfold shapedEntry. now rewrite Hl.
      - destruct (getProp k tprops) as [| | | | |titems|]; try discriminate.
        destruct x as [| | | | |sitems|]; try discriminate. cbn [truthy typeofObject andb].
        destruct (Harr sitems eq_refl Hx titems Hg) as (r & -> & Hr).
        cbn [optBind setMember]. eexists. split; [reflexivity|].
        apply shaped_setProp; [exact Ht|]. unfold shapedEntry. now rewrite Hl.
      - apply Both; auto. intros m Hm. unfold shapedEntry. now rewrite Hl.
      - destruct (asEmbeddedOperator k) as [eop|] eqn:He.
        { apply Both; auto. intros m Hm. unfold shapedEntry. now rewrite Hl, He. }
        destruct (asComparisonOperator k) as [cop|] eqn:Hc.
        { rewrite (primitive_is_overwritten _ Hg). cbn [andb setMember].
          eexists. split; [reflexivity|]. apply shaped_setProp; [exact Ht|].
          unfold shapedEntry. now rewrite Hl, He, Hc. }
        apply andb_true_iff in Hg as [Hg1 Hg2]. apply andb_true_iff in Hx as [Hx1 Hx2].
        apply Both; auto. intros m Hm. unfold shapedEntry.
        now rewrite Hl, He, Hc, Hx1, Hm. }
    destruct Step as (t & -> & Hst). cbn [optBind]. now apply IH.
Qed.

Lemma deepMerge_shaped_both source :
  (shaped source = true -> forall target, shaped target = true ->
     exists r, _deepMerge target source = Some r /\ shaped r = true)
  /\ (forall sitems, source = JArr sitems -> forallb shaped sitems = true ->
        forall titems, forallb shaped titems = true ->
          exists r, _deepMerge (JArr titems) (JArr sitems) = Some (JArr r)
                    /\ forallb shaped r = true).
Proof.
  induction source as [| | | | |items IH|props IH] using JsValue_ind;
    try (split; [discriminate|intros sitems; discriminate]).
  - split; [discriminate|]. intros sitems [= <-] Hs titems Ht. cbn [_deepMerge].
    assert (F : Forall (fun sv => shaped sv = true -> forall target,
                          shaped target = true ->
                          exists r, _deepMerge target sv = Some r /\ shaped r = true)
                       items)
      by (eapply Forall_impl; [|exact IH]; simpl; tauto).
    destruct (merge_items_loop items F Hs titems 0 Ht (Nat.le_0_l _))
      as (r & i' & -> & Hr).
    cbn [optBind snd]. now exists r.
  - split; [|intros sitems; discriminate].
    intros Hs target Ht. destruct (shaped_is_object _ Ht) as [tprops ->].
    cbn [_deepMerge]. cbn [shaped] in Hs, Ht.
    destruct (merge_entries_loop props IH Hs tprops Ht) as (r & -> & Hr).
    now exists (JObj r).
Qed.

Lemma deepMerge_shaped target source :
  shaped target = true -> shaped source = true ->
  exists r, _deepMerge target source = Some r /\ shaped r = true.
Proof. intros Ht Hs. exact (proj1 (deepMerge_shaped_both source) Hs target Ht). Qed.

Lemma mergeObjects_shaped ds : forall acc,
  forallb shaped ds = true -> shaped acc = true ->
  exists m, foldM (fun obj result => _deepMerge result obj) ds acc = Some m
            /\ shaped m = true.
Proof.
  induction ds as [|d ds IH]; intros acc Hds Hacc; cbn [foldM].
  - now exists acc.
  - cbn [forallb] in Hds. apply andb_true_iff in Hds as [Hd Hrest].
    destruct (deepMerge_shaped acc d Hacc Hd) as (r & -> & Hr). cbn [optBind].
    now apply IH.
Qed.

Lemma operatorNames_recognised :
  (forall op, asLogicalOperator (logicalName op) = Some op)
  /\ (forall op, asLogicalOperator (embeddedName op) = None
                 /\ asEmbeddedOperator (embeddedName op) = Some op)
  /\ (forall op, asLogicalOperator (comparisonName op) = None
                 /\ asEmbeddedOperator (comparisonName op) = None
                 /\ asComparisonOperator (comparisonName op) = Some op).
Proof. repeat split; destruct op; reflexivity. Qed.

Lemma shaped_wrap key x :
  shapedEntry shaped (key, x) = true -> shaped (JObj [(key, x)]) = true.
Proof. intros H. cbn [shaped forallb]. now rewrite H. Qed.

Lemma build_shaped path leaf :
  forallb isPlainField path = true -> shaped leaf = true ->
  shaped (_buildNestedObject path leaf) = true.
Proof.
  intros Hp Hl. induction path as [|k rest IH]; [exact Hl|].
  cbn [forallb] in Hp. apply andb_true_iff in Hp as [Hk Hrest].
  cbn [_buildNestedObject]. apply shaped_wrap. unfold isPlainField in Hk.
  apply andb_true_iff in Hk as [Hk Hi]. apply andb_true_iff in Hk as [Hf Hn].
  destruct (isFieldName_none _ Hf) as (H1 & H2 & H3).
  unfold shapedEntry. now rewrite H1, H3, H2, Hn, Hi, IH.
Qed.

Lemma deserializeEach_shaped nodes :
  Forall (fun n => simple n = true ->
                   exists d, _deserializeNode n = Some d /\ shaped d = true) nodes ->
  forallb simple nodes = true ->
  exists ds, deserializeEach _deserializeNode nodes = Some ds
             /\ forallb shaped ds = true.
Proof.
  induction 1 as [|n rest Hn _ IH]; intros Hs.
  - now exists [].
  - cbn [forallb] in Hs. apply andb_true_iff in Hs as [Hs Hrest].
    destruct (Hn Hs) as (d & Ed & Hd). destruct (IH Hrest) as (ds & Eds & Hds).
    rewrite deserializeEach_cons, Ed, Eds. cbn [optBind].
    eexists. split; [reflexivity|]. rewrite forallb_app, Hds.
    destruct (_isNotEmpty d); cbn [forallb]; now rewrite ?Hd.
Qed.

Lemma deserializeNodes_shaped nodes :
  Forall (fun n => simple n = true ->
                   exists d, _deserializeNode n = Some d /\ shaped d = true) nodes ->
  forallb simple nodes = true ->
  exists m, deserializeNodesWith _deserializeNode nodes = Some m /\ shaped m = true.
Proof.
  intros H Hs. destruct (deserializeEach_shaped nodes H Hs) as (ds & E & Hds).
  unfold deserializeNodesWith. rewrite E. cbn [optBind].
  now apply mergeObjects_shaped.
Qed.

Lemma deserializeNode_shaped n :
  simple n = true -> exists d, _deserializeNode n = Some d /\ shaped d = true.
Proof.
  destruct operatorNames_recognised as (Hlog & Hemb & Hcmp).
  induction n as [i path op v | i op children IH | i path op subtree IH]
    using Node_ind; cbn [simple]; intros Hs.
  - apply andb_true_iff in Hs as [Hp Hv]. cbn [_deserializeNode].
    eexists. split; [reflexivity|]. apply build_shaped; [exact Hp|].
    apply shaped_wrap. unfold shapedEntry.
    destruct (Hcmp op) as (-> & -> & ->). exact Hv.
  - destruct op.
    + destruct (deserializeEach_shaped children IH Hs) as (ds & E & Hds).
      cbn [_deserializeNode]. rewrite E. cbn [optBind].
      destruct (negb (_isNotEmpty (JArr ds))); eexists; (split; [reflexivity|]);
        [reflexivity|].
      apply shaped_wrap. unfold shapedEntry. now rewrite (Hlog And).
    + destruct (deserializeEach_shaped children IH Hs) as (ds & E & Hds).
      cbn [_deserializeNode]. rewrite E. cbn [optBind].
      destruct (negb (_isNotEmpty (JArr ds))); eexists; (split; [reflexivity|]);
        [reflexivity|].
      apply shaped_wrap. unfold shapedEntry. now rewrite (Hlog Or).
    + destruct (deserializeNodes_shaped children IH Hs) as (m & E & Hm).
      cbn [_deserializeNode]. rewrite E. cbn [optBind].
      destruct (negb (_isNotEmpty m)); eexists; (split; [reflexivity|]);
        [reflexivity|].
      apply shaped_wrap. unfold shapedEntry.
      pose proof (Hlog Not) as HN. cbn [logicalName] in HN. now rewrite HN.
  - apply andb_true_iff in Hs as [Hp Hs].
    destruct (deserializeNodes_shaped subtree IH Hs) as (m & E & Hm).
    cbn [_deserializeNode]. rewrite E. cbn [optBind].
    destruct (negb (_isNotEmpty m)); eexists; (split; [reflexivity|]);
      [reflexivity|].
    apply build_shaped; [exact Hp|]. apply shaped_wrap. unfold shapedEntry.
    destruct (Hemb op) as (-> & ->). exact Hm.
Qed.

Lemma deserialize_simple s :
  forallb simple (tree s) = true -> exists r, deserialize s = Some r.
Proof.
  intros Hs. unfold deserialize, _deserializeNodes.
  destruct (deserializeNodes_shaped (_tree s)) as (m & -> & _); [|exact Hs|].
  - apply Forall_forall. intros n _. apply deserializeNode_shaped.
  - cbn [optBind]. destruct (negb (_isNotEmpty m)); eauto.
Qed.

(** X8. On a tree of simple nodes (condition values that are primitives,
    paths made of field names that are neither members of
    [Object.prototype] nor numerals) [deserialize] has a result, and adding
    a logical or an embedded node, at the root or under any parent, leaves
    that result as it is: a container without conditions is left out (and a
    rejected call changes nothing either). *)
Theorem empty_container_is_invisible (spec : NodeSpec) (parentId : option nat)
  (s : Serializer) :
  forallb simple (tree s) = true ->
  isContainerSpec spec = true ->
  exists result,
    deserialize s = Some result
    /\ deserialize (snd (addNode spec parentId s)) = Some result.
Proof.
  intros Hs Hc. destruct (deserialize_simple s Hs) as [result E].
  exists result. split; [exact E|]. now rewrite empty_container_unseen.
Qed.

Lemma empty_container_is_invisible_witness :
  exists result,
    deserialize (mkSerializer [Embedded 0 ["tags"] Some_
                                 [Condition 1 ["x"] Eq (JNum 1)]] 2) = Some result
    /\ deserialize (snd (addNode (LogicalSpec Not) (Some 0)
                           (mkSerializer [Embedded 0 ["tags"] Some_
                                            [Condition 1 ["x"] Eq (JNum 1)]] 2)))
       = Some result.
Proof.
  exact (empty_container_is_invisible (LogicalSpec Not) (Some 0)
           (mkSerializer [Embedded 0 ["tags"] Some_ [Condition 1 ["x"] Eq (JNum 1)]] 2)
           eq_refl eq_refl).
Defined.

(** X10. On every tree of simple nodes, [deserialize] returns a value, and
    that value is either null or an object with at least one key: never an
    empty object, an array or a primitive. *)
Theorem deserialize_null_or_object (s : Serializer) :
  forallb simple (tree s) = true ->
  exists r, deserialize s = Some r
            /\ (r = JNull \/ exists entry rest, r = JObj (entry :: rest)).
Proof.
  intros Hs. destruct (deserialize_simple s Hs) as [r E]. exists r.
  split; [exact E|]. exact (deserialize_result_kind s r E).
Qed.

Lemma deserialize_null_or_object_witness :
  exists r, deserialize (mkSerializer [Condition 0 ["a"; "b"] Eq (JNum 1);
                                       Logical 1 And [Condition 2 ["c"] Eq (JNum 2)];
                                       Logical 3 And [Condition 4 ["c"] Gt JNull]] 5)
            = Some r
            /\ (r = JNull \/ exists entry rest, r = JObj (entry :: rest)).
Proof.
  exact (deserialize_null_or_object
           (mkSerializer [Condition 0 ["a"; "b"] Eq (JNum 1);
                          Logical 1 And [Condition 2 ["c"] Eq (JNum 2)];
                          Logical 3 And [Condition 4 ["c"] Gt JNull]] 5) eq_refl).
Defined.

(** * Further properties of the merge *)

Lemma keys_replaceProp key v props : map fst (replaceProp key v props) = map fst props.
Proof.
  induction props as [|[k w] rest IH]; simpl; [reflexivity|].
  destruct (k =? key); simpl; [reflexivity|now rewrite IH].
Qed.

Lemma keys_setProp key v props :
  map fst (setProp key v props)
  = map fst props ++ (if hasProp key props then [] else [key]).
Proof.
  unfold setProp. destruct (hasProp key props).
  - now rewrite keys_replaceProp, app_nil_r.
  - now rewrite map_app.
Qed.

Lemma hasProp_keys key props : hasProp key props = existsb (fun k => k =? key) (map fst props).
Proof.
  induction props as [|[k w] rest IH]; simpl; [reflexivity|now rewrite IH].
Qed.

Lemma hasProp_setProp_other key key' v props :
  key' <> key -> hasProp key (setProp key' v props) = hasProp key props.
Proof.
  intros Hne. rewrite !hasProp_keys, keys_setProp, existsb_app.
  destruct (hasProp key' props); simpl; [apply orb_false_r|].
  apply String.eqb_neq in Hne. now rewrite Hne, !orb_false_r.
Qed.

Lemma mergeKey_sets key sv props r :
  mergeKey _deepMerge (KName key) sv (JObj props) = Some r ->
  exists w, r = JObj (setProp key w props).
Proof.
  unfold mergeKey. simpl.
  destruct (truthy (getProp key props) && typeofObject (getProp key props)
            && typeofObject sv).
  - destruct (_deepMerge (getProp key props) sv) as [merged|]; simpl; [|discriminate].
    intros [= <-]. now exists merged.
  - intros [= <-]. now exists sv.
Qed.

Lemma hasProp_false_not_in key props : hasProp key props = false -> ~ In key (map fst props).
Proof.
  rewrite hasProp_keys. intros H Hin.
  assert (E : existsb (fun k => k =? key) (map fst props) = true)
    by (apply existsb_exists; exists key; split; [assumption|apply String.eqb_refl]).
  congruence.
Qed.

(** X11. The result of [_deepMerge] on two objects of the shape
    deserialization builds from simple nodes (no key is a member of
    [Object.prototype]): the merge has a value, and, key by key, a key the
    incoming object does not have keeps the value of the target; at a key
    of the incoming object the result is the recursive merge when the
    existing value is a non-null object or array and [typeof] of the
    incoming value is ['object'], and the incoming value otherwise. *)
Theorem deepMerge_key_by_key (target source : list (string * JsValue)) :
  shaped (JObj target) = true -> shaped (JObj source) = true ->
  distinct (map fst source) = true ->
  exists result,
    _deepMerge (JObj target) (JObj source) = Some (JObj result)
    /\ forall key,
         (hasProp key source = false -> getProp key result = getProp key target)
         /\ (forall incoming, In (key, incoming) source ->
               let existing := getProp key target in
               if truthy existing && typeofObject existing && typeofObject incoming
               then _deepMerge existing incoming = Some (getProp key result)
               else getProp key result = incoming).
Proof.
  intros Ht Hs Hd. destruct (deepMerge_shaped _ _ Ht Hs) as (r & Hm & Hr).
  destruct (shaped_is_object _ Hr) as [result ->]. exists result.
  split; [exact Hm|]. intros key. split.
  - intros Hk. apply (mergeEntries_other key source target result);
      [now apply hasProp_false_not_in|exact Hm].
  - intros incoming Hin. exact (deepMerge_rule target source result Hd Hm key incoming Hin).
Qed.

Lemma deepMerge_key_by_key_witness :
  exists result,
    _deepMerge (JObj [("a", JObj [("$eq", JNum 1)]); ("b", JObj [("x", JObj [("$gt", JNum 1)])])])
               (JObj [("b", JObj [("y", JObj [("$lt", JNum 2)])]); ("c", JObj [("$eq", JNull)])])
    = Some (JObj result)
    /\ forall key,
         (hasProp key [("b", JObj [("y", JObj [("$lt", JNum 2)])]);
                       ("c", JObj [("$eq", JNull)])] = false ->
          getProp key result
          = getProp key [("a", JObj [("$eq", JNum 1)]);
                         ("b", JObj [("x", JObj [("$gt", JNum 1)])])])
         /\ (forall incoming,
               In (key, incoming) [("b", JObj [("y", JObj [("$lt", JNum 2)])]);
                                   ("c", JObj [("$eq", JNull)])] ->
               let existing :=
                 getProp key [("a", JObj [("$eq", JNum 1)]);
                              ("b", JObj [("x", JObj [("$gt", JNum 1)])])] in
               if truthy existing && typeofObject existing && typeofObject incoming
               then _deepMerge existing incoming = Some (getProp key result)
               else getProp key result = incoming).
Proof.
  exact (deepMerge_key_by_key
           [("a", JObj [("$eq", JNum 1)]); ("b", JObj [("x", JObj [("$gt", JNum 1)])])]
           [("b", JObj [("y", JObj [("$lt", JNum 2)])]); ("c", JObj [("$eq", JNull)])]
           eq_refl eq_refl eq_refl).
Defined.

Lemma deepMerge_keys target source result :
  distinct (map fst source) = true ->
  _deepMerge (JObj target) (JObj source) = Some (JObj result) ->
  map fst result
  = map fst target ++ filter (fun k => negb (hasProp k target)) (map fst source).
Proof.
  cbn [_deepMerge]. revert target.
  induction source as [|[k v] rest IH]; intros target Hd Hm.
  - simpl in Hm. injection Hm as <-. simpl. now rewrite app_nil_r.
  - cbn [map fst distinct] in Hd. apply andb_true_iff in Hd as [Hk Hd].
    apply distinct_not_in in Hk. cbn [foldM mergeEntry] in Hm.
    destruct (mergeKey _deepMerge (KName k) v (JObj target)) as [t|] eqn:E;
      cbn [optBind] in Hm; [|discriminate].
    apply mergeKey_sets in E as [w ->].
    rewrite (IH _ Hd Hm), keys_setProp, <- app_assoc. f_equal.
    cbn [map fst filter].
    rewrite (filter_ext_in (fun k0 => negb (hasProp k0 (setProp k w target)))
               (fun k0 => negb (hasProp k0 target))).
    + now destruct (hasProp k target).
    + intros k' Hk'. rewrite hasProp_setProp_other; [reflexivity|].
      intros ->. contradiction.
Qed.

(** X12. The keys of the merge of two objects of the shape deserialization
    builds from simple nodes (no key is a member of [Object.prototype] or a
    numeral): the merge has a value, whose keys are those of the target, in
    their order, followed by the keys of the incoming object that the target
    did not have, in the order of the incoming object. *)
Theorem deepMerge_key_order (target source : list (string * JsValue)) :
  shaped (JObj target) = true -> shaped (JObj source) = true ->
  distinct (map fst source) = true ->
  exists result,
    _deepMerge (JObj target) (JObj source) = Some (JObj result)
    /\ map fst result
       = map fst target ++ filter (fun k => negb (hasProp k target)) (map fst source).
Proof.
  intros Ht Hs Hd. destruct (deepMerge_shaped _ _ Ht Hs) as (r & Hm & Hr).
  destruct (shaped_is_object _ Hr) as [result ->]. exists result.
  split; [exact Hm|]. now apply deepMerge_keys.
Qed.

Lemma deepMerge_key_order_witness :
  exists result,
    _deepMerge (JObj [("a", JObj [("$eq", JNum 1)]); ("b", JObj [("$eq", JNum 2)])])
               (JObj [("d", JObj [("$eq", JNum 4)]); ("b", JObj [("$gt", JNum 5)]);
                      ("c", JObj [("$eq", JNum 3)])])
    = Some (JObj result)
    /\ map fst result
       = map fst [("a", JObj [("$eq", JNum 1)]); ("b", JObj [("$eq", JNum 2)])]
         ++ filter (fun k => negb (hasProp k [("a", JObj [("$eq", JNum 1)]);
                                              ("b", JObj [("$eq", JNum 2)])]))
                   (map fst [("d", JObj [("$eq", JNum 4)]); ("b", JObj [("$gt", JNum 5)]);
                             ("c", JObj [("$eq", JNum 3)])]).
Proof.
  exact (deepMerge_key_order
           [("a", JObj [("$eq", JNum 1)]); ("b", JObj [("$eq", JNum 2)])]
           [("d", JObj [("$eq", JNum 4)]); ("b", JObj [("$gt", JNum 5)]);
            ("c", JObj [("$eq", JNum 3)])] eq_refl eq_refl eq_refl).
Defined.

(** X13. Merging an object whose keys are neither members of
    [Object.prototype] nor numerals into an object that has none of these
    keys always succeeds, and appends the incoming entries, values
    untouched, after those of the target. *)
Theorem deepMerge_disjoint_keys (target source : list (string * JsValue)) :
  forallb (fun entry : string * JsValue =>
             negb (isPrototypeName (fst entry)) && negb (isIndexName (fst entry)))
          source = true ->
  distinct (map fst source) = true ->
  Forall (fun entry => hasProp (fst entry) target = false) source ->
  _deepMerge (JObj target) (JObj source) = Some (JObj (target ++ source)).
Proof.
  intros _. cbn [_deepMerge]. revert target.
  induction source as [|[k v] rest IH]; intros target Hd Ha.
  - simpl. now rewrite app_nil_r.
  - cbn [map fst distinct] in Hd. apply andb_true_iff in Hd as [Hk Hd].
    apply distinct_not_in in Hk. inversion Ha as [|? ? Hkt Hrest]; subst.
    simpl in Hkt. cbn [foldM mergeEntry]. unfold mergeKey. cbn [getMember optBind].
    rewrite (getProp_absent _ _ Hkt). cbn [truthy andb setMember]. unfold setProp.
    rewrite Hkt. cbn [optBind].
    rewrite (IH (target ++ [(k, v)]) Hd).
    + now rewrite <- app_assoc.
    + apply Forall_forall. intros [k' v'] Hin. simpl.
      rewrite hasProp_app. rewrite Forall_forall in Hrest.
      specialize (Hrest _ Hin). simpl in Hrest. rewrite Hrest. simpl.
      destruct (String.eqb_spec k k') as [->|]; [|reflexivity].
      exfalso. apply Hk. apply in_map_iff. now exists (k', v').
Qed.

Lemma deepMerge_disjoint_keys_witness :
  _deepMerge (JObj [("a", JObj [("$eq", JNum 1)])])
             (JObj [("b", JObj [("$gt", JNum 2)]); ("c", JNull)])
  = Some (JObj ([("a", JObj [("$eq", JNum 1)])]
                ++ [("b", JObj [("$gt", JNum 2)]); ("c", JNull)])).
Proof.
  apply (deepMerge_disjoint_keys [("a", JObj [("$eq", JNum 1)])]
           [("b", JObj [("$gt", JNum 2)]); ("c", JNull)] eq_refl eq_refl).
  repeat constructor.
Defined.

(** * Further properties of serialization *)

(** ** The order in which ids are handed out *)

Lemma upTo_nil lo : upTo lo [] lo.
Proof. split; [lia|]. now rewrite Nat.sub_diag. Qed.

Lemma upTo_app lo acc c nodes c1 :
  upTo lo acc c -> upTo c nodes c1 -> upTo lo (acc ++ nodes) c1.
Proof.
  intros [H1 E1] [H2 E2]. split; [lia|]. unfold postOrder in *.
  rewrite flat_map_app, E1, E2.
  replace (c1 - lo) with ((c - lo) + (c1 - c)) by lia.
  rewrite seq_app. do 2 f_equal. lia.
Qed.

Lemma upTo_wrap c children c1 node :
  upTo c children c1 -> postIds node = postOrder children ++ [c1] ->
  upTo c [node] (S c1).
Proof.
  intros [H E] Hn. split; [lia|]. unfold postOrder in *. cbn [flat_map].
  rewrite app_nil_r, Hn, E.
  replace (S c1 - c) with (S (c1 - c)) by lia.
  rewrite seq_S. do 2 f_equal. lia.
Qed.

Lemma upTo_leaf c node : postIds node = [c] -> upTo c [node] (S c).
Proof. intros E. apply (upTo_wrap c [] c node); [apply upTo_nil|exact E]. Qed.

Lemma consecutive_frame m lo acc :
  consecutive m ->
  triple (upTo lo acc) m (fun nodes c1 => exists c, upTo lo acc c /\ upTo c nodes c1)
         (fun _ => True).
Proof.
  intros H c Hc. specialize (H c c eq_refl).
  destruct (m c) as [[nodes|e] c1]; [|exact I]. exists c. tauto.
Qed.

Lemma consecutive_append m lo acc :
  consecutive m ->
  triple (upTo lo acc) (nodes <- m ;; ret (acc ++ nodes)) (upTo lo) (fun _ => True).
Proof.
  intros H. eapply triple_bind; [apply consecutive_frame, H|].
  intros nodes. apply triple_ret. intros c1 (c & Ha & Hn).
  eapply upTo_app; eauto.
Qed.

Lemma consecutive_wrap {T} m lo acc (wrap : nat -> list Node -> Node)
  (pack : list Node -> T) (proj : T -> list Node) :
  consecutive m ->
  (forall id children, postIds (wrap id children) = postOrder children ++ [id]) ->
  (forall nodes, proj (pack nodes) = nodes) ->
  triple (upTo lo acc)
         (children <- m ;; id <- _generateId ;; ret (pack (acc ++ [wrap id children])))
         (fun st c => upTo lo (proj st) c) (fun _ => True).
Proof.
  intros H Hw Hp. eapply triple_bind; [apply consecutive_frame, H|].
  intros children. eapply triple_bind.
  - apply triple_generateId with
      (post := fun id c2 => exists c, upTo lo acc c /\ upTo c children id /\ c2 = S id).
    intros c1 (c & Ha & Hc). exists c. auto.
  - intros id. apply triple_ret. intros c2 (c & Ha & Hc & ->). rewrite Hp.
    apply (upTo_app lo acc c); [assumption|].
    apply (upTo_wrap c children id); [assumption|apply Hw].
Qed.

Lemma consecutive_of_upTo m :
  (forall lo, triple (upTo lo []) m (upTo lo) (fun _ => True)) -> consecutive m.
Proof.
  intros H lo c <-. specialize (H lo lo (upTo_nil lo)).
  destruct (m lo) as [[nodes|e] c']; auto.
Qed.

Lemma consecutive_ret_nil : consecutive (ret []).
Proof. intros lo c <-. apply upTo_nil. Qed.

Lemma serializeItems_consecutive self currentPath items :
  Forall (fun item => forall p, consecutive (self item p)) items ->
  consecutive (forEach (serializeItem self currentPath) items []).
Proof.
  intros H. apply consecutive_of_upTo. intros lo.
  apply triple_forEach. eapply Forall_impl; [|exact H]. simpl.
  intros item Hitem acc. apply consecutive_append, Hitem.
Qed.

Lemma serializeOperator_upTo self currentPath key lo opEntry :
  (forall p, consecutive (self (snd opEntry) p)) ->
  forall st, triple (fun c => upTo lo (fst st) c)
                    (serializeOperator self currentPath key opEntry st)
                    (fun st' c => upTo lo (fst st') c) (fun _ => True).
Proof.
  intros Hself [fieldNodes operatorFound]. destruct opEntry as [op opValue].
  unfold serializeOperator. simpl in *.
  destruct (asEmbeddedOperator op) as [eop|].
  { apply (consecutive_wrap (self opValue []) lo fieldNodes
             (fun id subtree => Embedded id (currentPath ++ [key]) eop subtree)
             (fun nodes => (nodes, true)) fst); [apply Hself | reflexivity | reflexivity]. }
  destruct (asComparisonOperator op) as [cop|].
  { eapply triple_bind.
    - apply triple_generateId with
        (post := fun id c2 => upTo lo fieldNodes id /\ c2 = S id).
      auto.
    - intros id. apply triple_ret. simpl. intros c2 [Hi ->].
      apply (upTo_app lo fieldNodes id); [assumption|]. now apply upTo_leaf. }
  destruct (asLogicalOperator op) as [lop|].
  { apply (consecutive_wrap (self opValue (currentPath ++ [key])) lo fieldNodes
             (fun id children => Logical id lop children)
             (fun nodes => (nodes, true)) fst); [apply Hself | reflexivity | reflexivity]. }
  apply triple_ret. auto.
Qed.

(** A key that is no operator leaves the state of the loop over the keys of
    a field value as it is; any other key sets [operatorFound]. *)
Lemma operator_step self currentPath key opEntry st c st' c' :
  serializeOperator self currentPath key opEntry st c = (Ok st', c') ->
  snd st' = true \/ (st' = st /\ c' = c).
Proof.
  destruct opEntry as [op opValue], st as [fieldNodes operatorFound].
  unfold serializeOperator.
  destruct (asEmbeddedOperator op) as [eop|].
  { unfold bind. destruct (self opValue [] c) as [[subtree|e] c1]; [|discriminate].
    intros [= <- <-]. now left. }
  destruct (asComparisonOperator op) as [cop|].
  { unfold bind. intros [= <- <-]. now left. }
  destruct (asLogicalOperator op) as [lop|].
  { unfold bind. destruct (self opValue (currentPath ++ [key]) c) as [[children|e] c1];
      [|discriminate].
    intros [= <- <-]. now left. }
  intros [= <- <-]. now right.
Qed.

Lemma operator_found_stays self currentPath key opEntry st c st' c' :
  serializeOperator self currentPath key opEntry st c = (Ok st', c') ->
  snd st = true -> snd st' = true.
Proof.
  intros H Hs. destruct (operator_step _ _ _ _ _ _ _ _ H) as [Ht|[-> _]]; assumption.
Qed.

Lemma operators_none_found self currentPath key fieldProps : forall st c st' c',
  forEach (serializeOperator self currentPath key) fieldProps st c = (Ok st', c') ->
  snd st' = false -> st' = st /\ c' = c.
Proof.
  induction fieldProps as [|e rest IH]; intros st c st' c'; simpl.
  - intros [= <- <-]. auto.
  - unfold bind.
    destruct (serializeOperator self currentPath key e st c) as [[st1|err] c1] eqn:E;
      [|discriminate].
    intros H Hf. destruct (IH _ _ _ _ H Hf) as [-> ->].
    destruct (operator_step _ _ _ _ _ _ _ _ E) as [Ht|[-> ->]]; [congruence|auto].
Qed.

Lemma operators_upTo self currentPath key fieldProps lo nodes :
  Forall (fun w => forall p, consecutive (self w p)) (map snd fieldProps) ->
  triple (upTo lo nodes)
         (forEach (serializeOperator self currentPath key) fieldProps ([], false))
         (fun st c1 => exists c, upTo lo nodes c /\ upTo c (fst st) c1
                                 /\ (snd st = false -> c1 = c))
         (fun _ => True).
Proof.
  intros H c Hc. apply Forall_map in H.
  assert (T := triple_forEach (serializeOperator self currentPath key)
                 (fun st c' => upTo c (fst st) c') (fun _ => True) fieldProps).
  specialize (fun F => T F ([], false) c (upTo_nil c)).
  destruct (forEach _ fieldProps ([], false) c) as [[st|e] c1] eqn:E; [|exact I].
  exists c. split; [exact Hc|]. split.
  - apply T. eapply Forall_impl; [|exact H]. simpl. intros e He acc.
    now apply serializeOperator_upTo.
  - intros Hf. now destruct (operators_none_found _ _ _ _ _ _ _ _ E Hf).
Qed.

Lemma consecutive_iterable currentPath value :
  Forall (fun w => forall p, consecutive (_serializeObject w p)) (members value) ->
  consecutive (serializeIterable _serializeObject currentPath value).
Proof.
  intros H. destruct value; simpl; try (intros lo c <-; exact I).
  - apply consecutive_ret_nil.
  - now apply serializeItems_consecutive.
Qed.

Lemma serializeEntry_upTo currentPath lo entry :
  (forall p, consecutive (_serializeObject (snd entry) p)) ->
  Forall (fun w => forall p, consecutive (_serializeObject w p)) (members (snd entry)) ->
  forall nodes, triple (upTo lo nodes)
                       (serializeEntry _serializeObject currentPath entry nodes)
                       (upTo lo) (fun _ => True).
Proof.
  destruct entry as [key value]. simpl. intros Hv Hsub nodes.
  unfold serializeEntry.
  destruct (asLogicalOperator key) as [[| |]|].
  - apply (consecutive_wrap (serializeIterable _serializeObject currentPath value) lo nodes
             (fun id children => Logical id And children) (fun l => l) (fun l => l));
      [now apply consecutive_iterable | reflexivity | reflexivity].
  - apply (consecutive_wrap (serializeIterable _serializeObject currentPath value) lo nodes
             (fun id children => Logical id Or children) (fun l => l) (fun l => l));
      [now apply consecutive_iterable | reflexivity | reflexivity].
  - apply (consecutive_wrap (_serializeObject value currentPath) lo nodes
             (fun id children => Logical id Not children) (fun l => l) (fun l => l));
      [apply Hv | reflexivity | reflexivity].
  - eapply triple_bind with
      (mid := fun st c1 => exists c, upTo lo nodes c /\ upTo c (fst st) c1
                                     /\ (snd st = false -> c1 = c)).
    + destruct value;
        try (apply triple_ret; intros c Hc; exists c;
             split; [exact Hc | split; [apply upTo_nil | reflexivity]]).
      now apply operators_upTo.
    + intros [fieldNodes operatorFound].
      destruct operatorFound; cbn [negb andb].
      * intros c1 (c & Ha & Hf & _). simpl. eapply upTo_app; eauto.
      * destruct (truthy value && typeofObject value).
        -- eapply triple_weaken; [apply (consecutive_append _ lo nodes), Hv| |auto|auto].
           intros c1 (c & Ha & _ & Hc). now rewrite (Hc eq_refl).
        -- intros c1 (c & Ha & Hf & _). simpl. eapply upTo_app; eauto.
Qed.

Lemma serializeObject_consecutive obj : forall p, consecutive (_serializeObject obj p).
Proof.
  induction obj as [obj IH] using JsValue_ind2. intros p.
  destruct obj; simpl; try apply consecutive_ret_nil.
  - apply serializeItems_consecutive. simpl in IH.
    eapply Forall_impl; [|exact IH]. simpl; tauto.
  - apply consecutive_of_upTo. intros lo. apply triple_forEach.
    simpl in IH. apply Forall_map in IH.
    eapply Forall_impl; [|exact IH]. simpl. intros e [He Hm] acc.
    now apply serializeEntry_upTo.
Qed.

Lemma postOrder_length_list nodes :
  Forall (fun n => List.length (postIds n) = List.length (subnodes n)) nodes ->
  List.length (postOrder nodes) = List.length (allNodes nodes).
Proof.
  unfold postOrder, allNodes. induction 1 as [|n rest Hn _ IH]; simpl; [reflexivity|].
  now rewrite !length_app, Hn, IH.
Qed.

Lemma postIds_length n : List.length (postIds n) = List.length (subnodes n).
Proof.
  induction n as [i path op v | i op children IH | i path op subtree IH] using Node_ind;
    simpl; [reflexivity| |];
    rewrite length_app; simpl;
    pose proof (postOrder_length_list _ IH) as L; unfold postOrder, allNodes in L; lia.
Qed.

Lemma postOrder_length nodes : List.length (postOrder nodes) = List.length (allNodes nodes).
Proof.
  apply postOrder_length_list, Forall_forall. intros n _. apply postIds_length.
Qed.

(** X14. A successful [serialize] numbers the nodes it creates from the
    current value of the counter, consecutively and children before parents:
    reading every node after the nodes below it, the ids are
    [_idCounter], [_idCounter + 1], ...; the counter advances by exactly the
    number of nodes created. *)
Theorem serialize_numbers_children_first (query : JsValue) (s : Serializer)
  (nodes : list Node) :
  fst (serialize query s) = Ok nodes ->
  postOrder nodes = seq (_idCounter s) (List.length (allNodes nodes))
  /\ _idCounter (snd (serialize query s)) = _idCounter s + List.length (allNodes nodes).
Proof.
  unfold serialize.
  pose proof (serializeObject_consecutive query [] (_idCounter s) (_idCounter s) eq_refl)
    as H.
  destruct (_serializeObject query [] (_idCounter s)) as [[ns|e] c]; simpl;
    [|discriminate].
  intros [= ->]. destruct H as [Hle E].
  assert (L : List.length (allNodes nodes) = c - _idCounter s)
    by (now rewrite <- postOrder_length, E, length_seq).
  rewrite L. split; [exact E|lia].
Qed.

Lemma serialize_numbers_children_first_witness :
  postOrder [Embedded 7 ["tags"] Some_
               [Logical 6 And [Condition 5 ["x"] Eq (JNum 1)]]]
  = seq 5 (List.length (allNodes [Embedded 7 ["tags"] Some_
                                    [Logical 6 And [Condition 5 ["x"] Eq (JNum 1)]]]))
  /\ _idCounter (snd (serialize q_tags (mkSerializer [] 5)))
     = 5 + List.length (allNodes [Embedded 7 ["tags"] Some_
                                    [Logical 6 And [Condition 5 ["x"] Eq (JNum 1)]]]).
Proof.
  exact (serialize_numbers_children_first q_tags (mkSerializer [] 5) _ eq_refl).
Defined.

(** ** Keys of a field value that are no operators *)

Lemma operator_skipped self currentPath key op opValue st c :
  isFieldName op = true ->
  serializeOperator self currentPath key (op, opValue) st c = (Ok st, c).
Proof.
  intros H. destruct (isFieldName_none _ H) as (Hl & Hc & He).
  destruct st as [fieldNodes operatorFound]. unfold serializeOperator.
  now rewrite He, Hc, Hl.
Qed.

Lemma operator_sets_found self currentPath key opEntry st c st' c' :
  isFieldName (fst opEntry) = false ->
  serializeOperator self currentPath key opEntry st c = (Ok st', c') ->
  snd st' = true.
Proof.
  destruct opEntry as [op opValue], st as [fieldNodes operatorFound].
  unfold serializeOperator. cbn [fst].
  unfold isFieldName, _isLogicalOperator, _isComparisonOperator, _isEmbeddedOperator.
  destruct (asEmbeddedOperator op) as [eop|].
  { intros _. unfold bind. destruct (self opValue [] c) as [[subtree|e] c1];
      [|discriminate].
    now intros [= <- <-]. }
  destruct (asComparisonOperator op) as [cop|].
  { intros _. unfold bind. now intros [= <- <-]. }
  destruct (asLogicalOperator op) as [lop|]; [|discriminate].
  intros _. unfold bind.
  destruct (self opValue (currentPath ++ [key]) c) as [[children|e] c1]; [|discriminate].
  now intros [= <- <-].
Qed.

Lemma operators_found_stays self currentPath key fieldProps : forall st c st' c',
  forEach (serializeOperator self currentPath key) fieldProps st c = (Ok st', c') ->
  snd st = true -> snd st' = true.
Proof.
  induction fieldProps as [|e rest IH]; intros st c st' c'; simpl.
  - now intros [= <- <-].
  - unfold bind.
    destruct (serializeOperator self currentPath key e st c) as [[st1|err] c1] eqn:E;
      [|discriminate].
    intros H Hs. apply (IH _ _ _ _ H). exact (operator_found_stays _ _ _ _ _ _ _ _ E Hs).
Qed.

Lemma operators_found self currentPath key fieldProps : forall st c st' c',
  existsb (fun opEntry => negb (isFieldName (fst opEntry))) fieldProps = true ->
  forEach (serializeOperator self currentPath key) fieldProps st c = (Ok st', c') ->
  snd st' = true.
Proof.
  induction fieldProps as [|e rest IH]; intros st c st' c'; simpl; [discriminate|].
  unfold bind. intros Hex.
  destruct (serializeOperator self currentPath key e st c) as [[st1|err] c1] eqn:E;
    [|discriminate].
  intros H. destruct (isFieldName (fst e)) eqn:Hn; simpl in Hex.
  - exact (IH _ _ _ _ Hex H).
  - apply (operators_found_stays _ _ _ _ _ _ _ _ H).
    exact (operator_sets_found _ _ _ _ _ _ _ _ Hn E).
Qed.

Lemma operators_only self currentPath key fieldProps : forall st c,
  forEach (serializeOperator self currentPath key) fieldProps st c
  = forEach (serializeOperator self currentPath key) (operatorEntries fieldProps) st c.
Proof.
  unfold operatorEntries.
  induction fieldProps as [|[op opValue] rest IH]; intros st c; [reflexivity|].
  cbn [filter fst forEach]. destruct (isFieldName op) eqn:Hn; cbn [negb].
  - unfold bind. rewrite (operator_skipped _ _ _ _ _ _ _ Hn). apply IH.
  - cbn [forEach]. unfold bind.
    destruct (serializeOperator self currentPath key (op, opValue) st c) as [[st1|e] c1];
      [apply IH|reflexivity].
Qed.

Lemma entry_operators_only currentPath key fieldProps nodes c :
  _isLogicalOperator key = false ->
  existsb (fun opEntry => negb (isFieldName (fst opEntry))) fieldProps = true ->
  serializeEntry _serializeObject currentPath (key, JObj fieldProps) nodes c
  = serializeEntry _serializeObject currentPath (key, JObj (operatorEntries fieldProps))
      nodes c.
Proof.
  unfold _isLogicalOperator. intros Hk Hex. unfold serializeEntry.
  destruct (asLogicalOperator key); [discriminate|].
  unfold bind at 1 3. rewrite <- operators_only.
  destruct (forEach (serializeOperator _serializeObject currentPath key) fieldProps
              ([], false) c) as [[[fieldNodes operatorFound]|e] c1] eqn:E; [|reflexivity].
  apply (operators_found _ _ _ _ _ _ _ _ Hex) in E. simpl in E. now rewrite E.
Qed.

(** X15. In a field value that has at least one operator key, the keys that
    are no operators are ignored together with everything below them:
    serialization gives the same nodes and ids as for the field value without
    those keys. *)
Theorem unknown_keys_are_dropped (before after : list (string * JsValue)) (key : string)
  (fieldProps : list (string * JsValue)) (p : list string) (c : nat) :
  _isLogicalOperator key = false ->
  existsb (fun opEntry => negb (isFieldName (fst opEntry))) fieldProps = true ->
  _serializeObject (JObj (before ++ (key, JObj fieldProps) :: after)) p c
  = _serializeObject (JObj (before ++ (key, JObj (operatorEntries fieldProps)) :: after))
      p c.
Proof.
  intros Hk Hex. cbn [_serializeObject]. rewrite !forEach_app. unfold bind.
  destruct (forEach (serializeEntry _serializeObject p) before [] c) as [[nodes|e] c1];
    [|reflexivity].
  cbn [forEach]. unfold bind. now rewrite (entry_operators_only p key fieldProps nodes c1).
Qed.

Lemma unknown_keys_are_dropped_witness :
  _serializeObject
    (JObj ([("a", JNum 1)]
           ++ ("age", JObj [("min", JObj [("$lt", JNum 3)]); ("$gt", JNum 18);
                            ("label", JStr "adult")])
           :: [("b", JObj [("$eq", JNum 2)])])) [] 0
  = _serializeObject
      (JObj ([("a", JNum 1)]
             ++ ("age", JObj (operatorEntries [("min", JObj [("$lt", JNum 3)]);
                                               ("$gt", JNum 18); ("label", JStr "adult")]))
             :: [("b", JObj [("$eq", JNum 2)])])) [] 0.
Proof.
  exact (unknown_keys_are_dropped [("a", JNum 1)] [("b", JObj [("$eq", JNum 2)])] "age"
           [("min", JObj [("$lt", JNum 3)]); ("$gt", JNum 18); ("label", JStr "adult")]
           [] 0 eq_refl eq_refl).
Defined.

(** ** The current path *)

Lemma shift_bind {A B A' B'} (f : A -> A') (g : B -> B') (m : Gen A) (m' : Gen A')
  (k : A -> Gen B) (k' : A' -> Gen B') c :
  m' c = mapResult f (m c) ->
  (forall a c1, k' (f a) c1 = mapResult g (k a c1)) ->
  bind m' k' c = mapResult g (bind m k c).
Proof.
  intros Hm Hk. unfold bind. rewrite Hm.
  destruct (m c) as [[a|e] c1]; simpl; [apply Hk|reflexivity].
Qed.

Lemma shift_forEach {X S S'} (f : S -> S') (body : X -> S -> Gen S)
  (body' : X -> S' -> Gen S') xs :
  Forall (fun x => forall acc c, body' x (f acc) c = mapResult f (body x acc c)) xs ->
  forall acc c, forEach body' xs (f acc) c = mapResult f (forEach body xs acc c).
Proof.
  induction 1 as [|x rest Hx _ IH]; intros acc c; simpl; [reflexivity|].
  apply shift_bind with (f := f); [apply Hx|apply IH].
Qed.

Lemma shift_items p q items :
  Forall (shifts p) items ->
  forall c, forEach (serializeItem _serializeObject (p ++ q)) items [] c
            = mapResult (map (prefixNode p))
                (forEach (serializeItem _serializeObject q) items [] c).
Proof.
  intros H c.
  apply (shift_forEach (map (prefixNode p)) (serializeItem _serializeObject q)
           (serializeItem _serializeObject (p ++ q)) items) with (acc := []).
  eapply Forall_impl; [|exact H]. simpl. intros item Hitem acc c0.
  unfold serializeItem. apply shift_bind with (f := map (prefixNode p)); [apply Hitem|].
  intros childNodes c1. simpl. now rewrite map_app.
Qed.

Lemma shift_iterable p q value :
  Forall (shifts p) (members value) ->
  forall c, serializeIterable _serializeObject (p ++ q) value c
            = mapResult (map (prefixNode p))
                (serializeIterable _serializeObject q value c).
Proof.
  intros H c. destruct value; try reflexivity. now apply shift_items.
Qed.

Lemma shift_operator p q key opEntry :
  shifts p (snd opEntry) ->
  forall st c,
    serializeOperator _serializeObject (p ++ q) key opEntry
      (map (prefixNode p) (fst st), snd st) c
    = mapResult (fun st' => (map (prefixNode p) (fst st'), snd st'))
        (serializeOperator _serializeObject q key opEntry st c).
Proof.
  destruct opEntry as [op opValue]. cbn [snd]. intros Hv [fieldNodes operatorFound] c.
  unfold serializeOperator. cbn [fst snd].
  destruct (asEmbeddedOperator op) as [eop|].
  { unfold bind. destruct (_serializeObject opValue [] c) as [[subtree|e] c1];
      [|reflexivity].
    simpl. now rewrite map_app, <- app_assoc. }
  destruct (asComparisonOperator op) as [cop|].
  { unfold bind. simpl. now rewrite map_app, <- app_assoc. }
  destruct (asLogicalOperator op) as [lop|]; [|reflexivity].
  rewrite <- app_assoc.
  apply shift_bind with (f := map (prefixNode p)); [apply Hv|].
  intros children c1. unfold bind. simpl. now rewrite map_app.
Qed.

Lemma shift_entry p q entry :
  shifts p (snd entry) -> Forall (shifts p) (members (snd entry)) ->
  forall nodes c,
    serializeEntry _serializeObject (p ++ q) entry (map (prefixNode p) nodes) c
    = mapResult (map (prefixNode p)) (serializeEntry _serializeObject q entry nodes c).
Proof.
  destruct entry as [key value]. cbn [snd]. intros Hv Hsub nodes c.
  unfold serializeEntry.
  destruct (asLogicalOperator key) as [[| |]|].
  - apply shift_bind with (f := map (prefixNode p)); [now apply shift_iterable|].
    intros children c1. unfold bind. simpl. now rewrite map_app.
  - apply shift_bind with (f := map (prefixNode p)); [now apply shift_iterable|].
    intros children c1. unfold bind. simpl. now rewrite map_app.
  - apply shift_bind with (f := map (prefixNode p)); [apply Hv|].
    intros children c1. unfold bind. simpl. now rewrite map_app.
  - apply shift_bind
      with (f := fun st : list Node * bool => (map (prefixNode p) (fst st), snd st)).
    + destruct value; try reflexivity.
      apply (shift_forEach
               (fun st : list Node * bool => (map (prefixNode p) (fst st), snd st))
               (serializeOperator _serializeObject q key)
               (serializeOperator _serializeObject (p ++ q) key) props)
        with (acc := ([], false)).
      simpl in Hsub. rewrite Forall_map in Hsub.
      eapply Forall_impl; [|exact Hsub]. simpl. intros opEntry He st c0.
      now apply shift_operator.
    + intros [fieldNodes operatorFound] c1. cbn [fst snd].
      apply shift_bind with (f := map (prefixNode p)).
      * destruct (negb operatorFound && (truthy value && typeofObject value));
          [|reflexivity].
        rewrite <- app_assoc. apply Hv.
      * intros fieldNodes' c2. simpl. now rewrite map_app.
Qed.

Lemma serializeObject_shifts p v : shifts p v.
Proof.
  induction v as [v IH] using JsValue_ind2. intros q c.
  destruct v; try reflexivity.
  - cbn [_serializeObject]. apply shift_items. simpl in IH.
    eapply Forall_impl; [|exact IH]. simpl; tauto.
  - cbn [_serializeObject].
    apply (shift_forEach (map (prefixNode p)) (serializeEntry _serializeObject q)
             (serializeEntry _serializeObject (p ++ q)) props) with (acc := []).
    simpl in IH. apply Forall_map in IH.
    eapply Forall_impl; [|exact IH]. simpl. intros entry [He Hm] nodes c0.
    now apply shift_entry.
Qed.

(** X16. The current path only ever prefixes field paths: serializing a
    value under the path [p ++ q] gives the nodes of serializing it under
    [q], with the same ids and the same counter, where [p] is put in front
    of the path of every condition and embedded node outside the subtrees of
    embedded nodes; an exception is raised under one path exactly when it is
    under the other. *)
Theorem current_path_is_a_prefix (v : JsValue) (p q : list string) (c : nat) :
  _serializeObject v (p ++ q) c
  = mapResult (map (prefixNode p)) (_serializeObject v q c).
Proof. exact (serializeObject_shifts p v q c). Qed.

Lemma field_descends key props p c :
  _isLogicalOperator key = false ->
  forallb (fun entry => isFieldName (fst entry)) props = true ->
  _serializeObject (JObj [(key, JObj props)]) p c
  = _serializeObject (JObj props) (p ++ [key]) c.
Proof.
  unfold _isLogicalOperator. intros Hk Hp.
  assert (L : forall st c0,
             forEach (serializeOperator _serializeObject p key) props st c0
             = (Ok st, c0)).
  { clear Hk. induction props as [|[op opValue] rest IH]; intros st c0; [reflexivity|].
    cbn [forallb fst] in Hp. apply andb_true_iff in Hp as [Hop Hrest].
    cbn [forEach]. unfold bind. rewrite (operator_skipped _ _ _ _ _ _ _ Hop).
    now apply IH. }
  change (_serializeObject (JObj [(key, JObj props)]) p c)
    with (bind (serializeEntry _serializeObject p (key, JObj props) []) ret c).
  unfold serializeEntry. destruct (asLogicalOperator key); [discriminate|].
  unfold bind at 1 2 3. rewrite L. cbn [negb andb truthy typeofObject app].
  destruct (_serializeObject (JObj props) (p ++ [key]) c) as [[nodes|e] c1]; reflexivity.
Qed.

(** X17. A field whose value is an object without operator keys is a path
    segment: the nodes are those of the inner object, serialized on its
    own, with the field put in front of their paths. *)
Theorem nested_field_is_a_path_segment (key : string) (props : list (string * JsValue))
  (c : nat) :
  _isLogicalOperator key = false ->
  forallb (fun entry => isFieldName (fst entry)) props = true ->
  _serializeObject (JObj [(key, JObj props)]) [] c
  = mapResult (map (prefixNode [key])) (_serializeObject (JObj props) [] c).
Proof.
  intros Hk Hp. rewrite (field_descends key props [] c Hk Hp).
  exact (serializeObject_shifts [key] (JObj props) [] c).
Qed.

Lemma nested_field_is_a_path_segment_witness :
  _serializeObject
    (JObj [("address", JObj [("city", JObj [("$eq", JStr "Paris")]);
                             ("zip", JObj [("$in", JArr [JNum 1; JNum 2])])])]) [] 4
  = mapResult (map (prefixNode ["address"]))
      (_serializeObject (JObj [("city", JObj [("$eq", JStr "Paris")]);
                               ("zip", JObj [("$in", JArr [JNum 1; JNum 2])])]) [] 4).
Proof.
  exact (nested_field_is_a_path_segment "address"
           [("city", JObj [("$eq", JStr "Paris")]);
            ("zip", JObj [("$in", JArr [JNum 1; JNum 2])])] 4 eq_refl eq_refl).
Defined.

(** ** From a condition node to its object and back *)

Lemma comparisonName_recognised op :
  asEmbeddedOperator (comparisonName op) = None
  /\ asComparisonOperator (comparisonName op) = Some op.
Proof. destruct op; split; reflexivity. Qed.

Lemma serialize_built_condition op v path : forall p c,
  path <> [] -> forallb isFieldName path = true ->
  _serializeObject (_buildNestedObject path (JObj [(comparisonName op, v)])) p c
  = (Ok [Condition c (p ++ path) op v], S c).
Proof.
  induction path as [|k rest IH]; intros p c Hne Hf; [contradiction|].
  cbn [forallb] in Hf. apply andb_true_iff in Hf as [Hk Hrest].
  destruct (isFieldName_none _ Hk) as (Hl & _ & _).
  destruct rest as [|k2 rest'].
  - cbn [_buildNestedObject _serializeObject forEach]. unfold bind at 1.
    unfold serializeEntry. rewrite Hl. cbn [forEach]. unfold serializeOperator.
    destruct (comparisonName_recognised op) as [He Hc]. rewrite He, Hc.
    reflexivity.
  - change (_buildNestedObject (k :: k2 :: rest') (JObj [(comparisonName op, v)]))
      with (JObj [(k, JObj [(k2, _buildNestedObject rest'
                                   (JObj [(comparisonName op, v)]))])]).
    rewrite field_descends.
    + change (JObj [(k2, _buildNestedObject rest' (JObj [(comparisonName op, v)]))])
        with (_buildNestedObject (k2 :: rest') (JObj [(comparisonName op, v)])).
      rewrite IH; [|discriminate|exact Hrest]. now rewrite <- app_assoc.
    + unfold _isLogicalOperator. now rewrite Hl.
    + cbn [forallb fst] in *. apply andb_true_iff in Hrest as [Hk2 _].
      now rewrite Hk2.
Qed.

(** X18. A condition node whose path is not empty and made of field names
    that are no members of [Object.prototype] survives the way through the
    object: [deserialize] of the tree that holds this node alone gives an
    object that [serialize] turns back into one condition node with the same
    path, operator and value (under a new id). *)
Theorem condition_survives_round_trip (i : nat) (path : list string)
  (op : ComparisonOperator) (v : JsValue) (n : nat) (s : Serializer) :
  path <> [] ->
  forallb (fun key => isFieldName key && negb (isPrototypeName key)) path = true ->
  exists object,
    deserialize (mkSerializer [Condition i path op v] n) = Some object
    /\ serialize object s
       = (Ok [Condition (_idCounter s) path op v],
          mkSerializer [Condition (_idCounter s) path op v] (S (_idCounter s))).
Proof.
  intros Hne Hp.
  assert (Hf : forallb isFieldName path = true).
  { rewrite forallb_forall in *. intros key Hin.
    specialize (Hp key Hin). now apply andb_true_iff in Hp as [Hp _]. }
  exists (_buildNestedObject path (JObj [(comparisonName op, v)])). split.
  - destruct path as [|k rest]; [contradiction|]. reflexivity.
  - unfold serialize. now rewrite (serialize_built_condition op v path [] _ Hne Hf).
Qed.

Lemma condition_survives_round_trip_witness :
  exists object,
    deserialize (mkSerializer [Condition 3 ["a"; "b"] Gte (JNum 1)] 4) = Some object
    /\ serialize object (mkSerializer [] 9)
       = (Ok [Condition 9 ["a"; "b"] Gte (JNum 1)],
          mkSerializer [Condition 9 ["a"; "b"] Gte (JNum 1)] 10).
Proof.
  apply (condition_survives_round_trip 3 ["a"; "b"] Gte (JNum 1) 4 (mkSerializer [] 9)).
  - discriminate.
  - reflexivity.
Defined.

(** ** When serialization raises no exception *)

Lemma returns_ret {A} (a : A) : returns (ret a).
Proof. intros c. now exists a, c. Qed.

Lemma returns_bind {A B} (m : Gen A) (k : A -> Gen B) :
  returns m -> (forall a, returns (k a)) -> returns (bind m k).
Proof.
  intros Hm Hk c. destruct (Hm c) as (a & c1 & E). unfold bind. rewrite E. apply Hk.
Qed.

Lemma returns_generateId : returns _generateId.
Proof. intros c. now exists c, (S c). Qed.

Lemma returns_forEach {X S} (body : X -> S -> Gen S) xs :
  Forall (fun x => forall acc, returns (body x acc)) xs ->
  forall acc, returns (forEach body xs acc).
Proof.
  induction 1 as [|x rest Hx _ IH]; intros acc; simpl.
  - apply returns_ret.
  - apply returns_bind; [apply Hx|exact IH].
Qed.

Lemma returns_node {A} (m : Gen (list Node)) (k : nat -> list Node -> A) :
  returns m -> returns (children <- m ;; id <- _generateId ;; ret (k id children)).
Proof.
  intros H. apply returns_bind; [exact H|]. intros children.
  apply returns_bind; [apply returns_generateId|]. intros id. apply returns_ret.
Qed.

Lemma returns_items currentPath items :
  Forall (fun w => iterableUnderAndOr w = true ->
                   forall p, returns (_serializeObject w p)) items ->
  forallb iterableUnderAndOr items = true ->
  returns (forEach (serializeItem _serializeObject currentPath) items []).
Proof.
  intros H Hs. apply returns_forEach. rewrite forallb_forall in Hs.
  rewrite Forall_forall in *. intros item Hin acc. unfold serializeItem.
  apply returns_bind; [apply (H item Hin), Hs, Hin|]. intros childNodes. apply returns_ret.
Qed.

Lemma returns_operators currentPath key fieldProps :
  Forall (fun w => iterableUnderAndOr w = true ->
                   forall p, returns (_serializeObject w p)) (map snd fieldProps) ->
  iterableUnderAndOr (JObj fieldProps) = true ->
  forall st, returns (forEach (serializeOperator _serializeObject currentPath key)
                        fieldProps st).
Proof.
  intros H Hs. apply returns_forEach. cbn [iterableUnderAndOr] in Hs.
  rewrite forallb_forall in Hs. rewrite Forall_map in H.
  rewrite Forall_forall in *. intros [op opValue] Hin [fieldNodes operatorFound].
  specialize (H _ Hin). specialize (Hs _ Hin). cbn [snd] in H.
  apply andb_true_iff in Hs as [_ Hs]. specialize (H Hs).
  unfold serializeOperator.
  destruct (asEmbeddedOperator op) as [eop|];
    [apply (returns_node _ (fun id subtree => (_, true))), H|].
  destruct (asComparisonOperator op) as [cop|].
  { apply returns_bind; [apply returns_generateId|]. intros id. apply returns_ret. }
  destruct (asLogicalOperator op) as [lop|];
    [apply (returns_node _ (fun id children => (_, true))), H|].
  apply returns_ret.
Qed.

Lemma serializeObject_returns v :
  iterableUnderAndOr v = true -> forall p, returns (_serializeObject v p).
Proof.
  induction v as [v IH] using JsValue_ind2. intros Hs p.
  destruct v; try apply returns_ret.
  - cbn [_serializeObject]. apply returns_items; [|exact Hs].
    simpl in IH. eapply Forall_impl; [|exact IH]. simpl; tauto.
  - cbn [_serializeObject]. apply returns_forEach.
    cbn [iterableUnderAndOr] in Hs. rewrite forallb_forall in Hs.
    simpl in IH. rewrite Forall_map in IH. rewrite Forall_forall in *.
    intros [key value] Hin nodes. specialize (IH _ Hin). specialize (Hs _ Hin).
    cbn [snd] in IH. destruct IH as [Hv Hm].
    apply andb_true_iff in Hs as [Hit Hs]. unfold serializeEntry.
    destruct (asLogicalOperator key) as [[| |]|].
    + apply (returns_node _ (fun id children => nodes ++ [Logical id And children])).
      destruct value; try discriminate; [apply returns_ret|].
      now apply returns_items.
    + apply (returns_node _ (fun id children => nodes ++ [Logical id Or children])).
      destruct value; try discriminate; [apply returns_ret|].
      now apply returns_items.
    + apply (returns_node _ (fun id children => nodes ++ [Logical id Not children])).
      now apply Hv.
    + apply returns_bind.
      * destruct value; try apply returns_ret. now apply returns_operators.
      * intros [fieldNodes operatorFound]. apply returns_bind.
        -- destruct (negb operatorFound && (truthy value && typeofObject value));
             [now apply Hv|apply returns_ret].
        -- intros fieldNodes'. apply returns_ret.
Qed.

(** X19. Serialization raises no exception on a query in which every
    [$and] and every [$or] key, at any depth, holds an array (or a string):
    the constructor then yields an instance, and [serialize] returns the
    nodes on any instance. *)
Theorem serialization_succeeds (query : JsValue) :
  iterableUnderAndOr query = true ->
  (exists s, construct (Some query) = Ok s)
  /\ forall s, exists nodes, fst (serialize query s) = Ok nodes.
Proof.
  intros H. split.
  - unfold construct. destruct (truthy query); [|now eexists].
    destruct (serializeObject_returns query H [] 0) as (nodes & c & E).
    rewrite E. now eexists.
  - intros s. unfold serialize.
    destruct (serializeObject_returns query H [] (_idCounter s)) as (nodes & c & E).
    rewrite E. now exists nodes.
Qed.

Lemma serialization_succeeds_witness :
  (exists s, construct (Some q_tags) = Ok s)
  /\ forall s, exists nodes, fst (serialize q_tags s) = Ok nodes.
Proof. exact (serialization_succeeds q_tags eq_refl). Defined.

(** ** The three kinds of operator *)

(** X20. No key is an operator of two kinds, so the order of the tests in
    [_serializeObject] decides nothing; and each operator of the node types
    is recognised, under its own name, by the test of its kind. *)
Theorem operator_kinds_are_disjoint (key : string) :
  (_isLogicalOperator key = true ->
   _isEmbeddedOperator key = false /\ _isComparisonOperator key = false)
  /\ (_isEmbeddedOperator key = true -> _isComparisonOperator key = false)
  /\ (forall op, _isLogicalOperator (logicalName op) = true)
  /\ (forall op, _isEmbeddedOperator (embeddedName op) = true)
  /\ (forall op, _isComparisonOperator (comparisonName op) = true).
Proof.
  unfold _isLogicalOperator, _isEmbeddedOperator, _isComparisonOperator.
  repeat split; try (intros op; destruct op; reflexivity).
  - destruct (asLogicalOperator key) as [op|] eqn:E; [|discriminate].
    apply asLogicalOperator_name in E. subst key. now destruct op.
  - destruct (asLogicalOperator key) as [op|] eqn:E; [|discriminate].
    apply asLogicalOperator_name in E. subst key. now destruct op.
  - destruct (asEmbeddedOperator key) as [op|] eqn:E; [|discriminate].
    apply asEmbeddedOperator_name in E. subst key. now destruct op.
Qed.

Lemma operator_kinds_are_disjoint_witness :
  (_isEmbeddedOperator "$not" = false /\ _isComparisonOperator "$not" = false)
  /\ _isComparisonOperator "$every" = false.
Proof.
  split.
  - exact (proj1 (operator_kinds_are_disjoint "$not") eq_refl).
  - exact (proj1 (proj2 (operator_kinds_are_disjoint "$every")) eq_refl).
Defined.

(** * Further properties of adding nodes *)

(** X21. A successful [add*] call keeps every id of the tree and adds
    exactly one, the id it returns. *)
Theorem add_inserts_one_id (spec : NodeSpec) (parentId : option nat) (s : Serializer)
  (id : nat) :
  fst (addNode spec parentId s) = Ok id ->
  forall i, In i (treeIds (tree (snd (addNode spec parentId s))))
            <-> i = id \/ In i (treeIds (tree s)).
Proof.
  rewrite addNode_unfold. unfold _addNode, tree. simpl _tree. simpl _idCounter.
  destruct parentId as [pid|].
  - destruct (_findNodeById (_tree s) pid) as [parent|] eqn:Hf; simpl; [|discriminate].
    destruct (isContainer parent) eqn:Hc; simpl; [|discriminate].
    rewrite nodeId_makeNode. intros [= <-] i.
    pose proof (mutateFound_replaces _ _ (pushChild (makeNode (_idCounter s) spec))
                  _ Hf) as Hr.
    apply replaceOne_ids in Hr. destruct Hr as (l1 & l2 & E & E').
    rewrite E, E', (nodeIds_pushChild _ _ Hc), nodeIds_makeNode, !in_app_iff.
    simpl. intuition.
  - simpl. rewrite nodeId_makeNode. intros [= <-] i.
    rewrite treeIds_app, in_app_iff. unfold treeIds at 2. simpl.
    rewrite app_nil_r, nodeIds_makeNode. simpl. intuition.
Qed.

Lemma add_inserts_one_id_witness :
  In 1 (treeIds (tree (snd (addNode (ConditionSpec ["x"] Eq (JNum 1)) (Some 0)
                              (mkSerializer [Logical 0 And []] 1)))))
  <-> 1 = 1 \/ In 1 (treeIds (tree (mkSerializer [Logical 0 And []] 1))).
Proof.
  exact (add_inserts_one_id (ConditionSpec ["x"] Eq (JNum 1)) (Some 0)
           (mkSerializer [Logical 0 And []] 1) 1 eq_refl 1).
Defined.

Lemma not_empty_after_append props entry : _isNotEmpty (JObj (props ++ [entry])) = true.
Proof.
  simpl. apply Nat.ltb_lt. rewrite length_app. simpl. lia.
Qed.

Lemma root_condition_appended key rest operator value s result :
  deserialize s = Some result ->
  hasProp key (entriesOf result) = false ->
  deserialize (snd (addConditionNode (key :: rest) operator value None s))
  = Some (JObj (entriesOf result
                ++ [(key, _buildNestedObject rest
                            (JObj [(comparisonName operator, value)]))])).
Proof.
  unfold deserialize, addConditionNode, _deserializeNodes, deserializeNodesWith.
  simpl _tree.
  assert (D : deserializeEach _deserializeNode
                [Condition (_idCounter s) (key :: rest) operator value]
              = Some [JObj [(key, _buildNestedObject rest
                                    (JObj [(comparisonName operator, value)]))]])
    by reflexivity.
  rewrite deserializeEach_app, D.
  destruct (deserializeEach _deserializeNode (_tree s)) as [ds|] eqn:E; cbn [optBind];
    [|discriminate].
  unfold _mergeObjects. rewrite foldM_app.
  destruct (foldM (fun obj result0 => _deepMerge result0 obj) ds (JObj [])) as [m|] eqn:M;
    cbn [optBind]; [|discriminate].
  pose proof (mergeObjects_is_object ds (JObj []) m (deserializeEach_objects _ _ E) I M)
    as Hm.
  destruct m as [| | | | | |props]; try contradiction.
  intros Hr Hk.
  assert (Hp : entriesOf result = props).
  { destruct props as [|entry props']; simpl in Hr; injection Hr as <-; reflexivity. }
  rewrite Hp in *. cbn [foldM].
  change (_deepMerge (JObj props)
            (JObj [(key, _buildNestedObject rest
                           (JObj [(comparisonName operator, value)]))]))
    with (merge (wrap key (_buildNestedObject rest
                             (JObj [(comparisonName operator, value)]))) (JObj props)).
  rewrite (merge_absent props key _ Hk). cbn [optBind].
  now rewrite not_empty_after_append.
Qed.

(** X22. On a tree of simple nodes, [deserialize] has a result, and adding
    at the root a condition on a field that this result does not have yet
    appends the field to it, provided that neither the field nor the rest of
    the path is a member of [Object.prototype] and the field is no numeral:
    the result afterwards is the entries of the result before (none for
    null), followed by the field with the nested object of the rest of the
    path and the condition [{operator: value}]. *)
Theorem add_root_condition_appends (key : string) (rest : list string)
  (operator : ComparisonOperator) (value : JsValue) (s : Serializer) :
  forallb simple (tree s) = true ->
  isPrototypeName key = false -> isIndexName key = false ->
  forallb (fun segment => negb (isPrototypeName segment)) rest = true ->
  exists result,
    deserialize s = Some result
    /\ (hasProp key (entriesOf result) = false ->
        deserialize (snd (addConditionNode (key :: rest) operator value None s))
        = Some (JObj (entriesOf result
                      ++ [(key, _buildNestedObject rest
                                  (JObj [(comparisonName operator, value)]))]))).
Proof.
  intros Hs _ _ _. destruct (deserialize_simple s Hs) as [result E].
  exists result. split; [exact E|]. now apply root_condition_appended.
Qed.

Lemma add_root_condition_appends_witness :
  exists result,
    deserialize (mkSerializer [Condition 0 ["a"; "b"] Eq (JNum 1);
                               Condition 1 ["c"] Eq (JNum 2)] 2) = Some result
    /\ (hasProp "d" (entriesOf result) = false ->
        deserialize (snd (addConditionNode ["d"; "e"] Lt (JNum 3) None
                            (mkSerializer [Condition 0 ["a"; "b"] Eq (JNum 1);
                                           Condition 1 ["c"] Eq (JNum 2)] 2)))
        = Some (JObj (entriesOf result
                      ++ [("d", _buildNestedObject ["e"]
                                  (JObj [(comparisonName Lt, JNum 3)]))]))).
Proof.
  exact (add_root_condition_appends "d" ["e"] Lt (JNum 3)
           (mkSerializer [Condition 0 ["a"; "b"] Eq (JNum 1);
                          Condition 1 ["c"] Eq (JNum 2)] 2)
           eq_refl eq_refl eq_refl eq_refl).
Defined.
